(** * Mercury Concurrency Engine: scheduler, threadpool, channels and await

    A shallow embedding of the parts of [inc/mce/scheduler.hpp],
    [inc/mce/threadpool.hpp], [src/threadpool.cpp],
    [inc/mce/unbuffered_channel.hpp], [inc/mce/buffered_channel.hpp],
    [inc/mce/coroutine.hpp] and [inc/mce/await.hpp] that the specification
    speaks about, and the properties of the specification stated over it.

    Conventions.  A [size_t] that counts is a [Z] with its wrap-around
    written out; the size of a container and an index into it are a [nat].
    Code that runs under a spinlock is one atomic function on the state the
    lock protects; a blocking call is split at [parkable::park] into the
    part that runs before the caller is parked and the part that runs after
    it is unparked.  What other threads do while a lock is released is an
    explicit input.  A result [None] stands for an exception, or for a call
    that does not come back. *)

From Stdlib Require Import ZArith List Bool Lia.
From stdpp Require Import base option list gmap.

(** ** [scheduler::measurement] (scheduler.hpp, 733-805) *)

Module Measurement.
Local Open Scope Z_scope.

Section Word.
(** [sizeof(size_t)] *)
Variable size_bytes : Z.

Definition size_width : Z := size_bytes * 8.
Definition half_width : Z := size_width / 2.
Definition SIZE_MAX : Z := 2 ^ size_width - 1.

(** arithmetic on [size_t] is modulo [2 ^ size_width] *)
Definition wrap (z : Z) : Z := z mod 2 ^ size_width.

Definition right_mask : Z := Z.shiftr SIZE_MAX half_width.
Definition left_mask : Z := wrap (Z.shiftl SIZE_MAX half_width).

Record measurement : Type := Measurement { weight_ : Z }.

(** [measurement()] *)
Definition zero : measurement := Measurement 0.

(** [measurement(size_t enqueued, size_t scheduled)] *)
Definition make (enqueued scheduled : Z) : measurement :=
  Measurement
    (Z.lor
       (wrap (Z.shiftl (if enqueued >? right_mask then right_mask
                        else enqueued) half_width))
       (if scheduled >? right_mask then right_mask else scheduled)).

(** [operator ==], [operator <], [operator <=], [operator size_t] *)
Definition eqb (a b : measurement) : bool := weight_ a =? weight_ b.
Definition ltb (a b : measurement) : bool := weight_ a <? weight_ b.
Definition leb (a b : measurement) : bool := weight_ a <=? weight_ b.
Definition to_size_t (a : measurement) : Z := weight_ a.

Definition scheduled (m : measurement) : Z := Z.land (weight_ m) right_mask.
Definition enqueued (m : measurement) : Z :=
  Z.shiftr (Z.land (weight_ m) left_mask) half_width.
Definition blocked (m : measurement) : Z := wrap (scheduled m - enqueued m).

(** a value of type [size_t] *)
Definition is_size_t (z : Z) : Prop := 0 <= z < 2 ^ size_width.

(** a count that fits the half word *)
Definition in_half (z : Z) : Prop := 0 <= z < 2 ^ half_width.

(** the lexicographic order on (enqueued, scheduled) *)
Definition lex_lt (e1 s1 e2 s2 : Z) : Prop :=
  e1 < e2 \/ (e1 = e2 /\ s1 < s2).

(** the half-word saturation written in the constructor, named *)
Definition saturate (z : Z) : Z := if z >? right_mask then right_mask else z.

Hypothesis size_bytes_pos : 0 < size_bytes.

Lemma size_width_double : size_width = 2 * half_width.
Proof.
  unfold half_width, size_width.
  replace (size_bytes * 8) with ((size_bytes * 4) * 2) by lia.
  rewrite Z.div_mul by lia. lia.
Qed.

Lemma half_width_pos : 0 < half_width.
Proof.
  unfold half_width, size_width.
  replace (size_bytes * 8) with ((size_bytes * 4) * 2) by lia.
  rewrite Z.div_mul by lia. lia.
Qed.

Lemma pow_size_width : 2 ^ size_width = 2 ^ half_width * 2 ^ half_width.
Proof.
  pose proof half_width_pos.
  rewrite size_width_double.
  replace (2 * half_width) with (half_width + half_width) by lia.
  apply Z.pow_add_r; lia.
Qed.

Lemma pow_half_pos : 0 < 2 ^ half_width.
Proof. pose proof half_width_pos. apply Z.pow_pos_nonneg; lia. Qed.

Lemma right_mask_eq : right_mask = 2 ^ half_width - 1.
Proof.
  pose proof half_width_pos. pose proof pow_half_pos.
  unfold right_mask, SIZE_MAX.
  rewrite Z.shiftr_div_pow2 by lia.
  rewrite pow_size_width.
  replace (2 ^ half_width * 2 ^ half_width - 1)
    with ((2 ^ half_width - 1) * 2 ^ half_width + (2 ^ half_width - 1)) by lia.
  rewrite Z.div_add_l by lia.
  rewrite Z.div_small by lia. lia.
Qed.

Lemma left_mask_eq : left_mask = (2 ^ half_width - 1) * 2 ^ half_width.
Proof.
  pose proof half_width_pos. pose proof pow_half_pos.
  unfold left_mask, wrap, SIZE_MAX.
  rewrite Z.shiftl_mul_pow2 by lia.
  rewrite pow_size_width.
  replace ((2 ^ half_width * 2 ^ half_width - 1) * 2 ^ half_width)
    with ((2 ^ half_width - 1) * 2 ^ half_width
          + (2 ^ half_width - 1) * (2 ^ half_width * 2 ^ half_width)) by lia.
  rewrite Z.mod_add by nia.
  apply Z.mod_small. nia.
Qed.

Lemma saturate_in_half z : 0 <= z -> in_half (saturate z).
Proof.
  intros Hz. unfold saturate, in_half. rewrite right_mask_eq.
  pose proof pow_half_pos.
  destruct (z >? 2 ^ half_width - 1) eqn:E; lia.
Qed.

Lemma saturate_small z : in_half z -> saturate z = z.
Proof.
  intros [H0 H1]. unfold saturate. rewrite right_mask_eq.
  destruct (z >? 2 ^ half_width - 1) eqn:E; lia.
Qed.

Lemma saturate_large z : 2 ^ half_width <= z -> saturate z = 2 ^ half_width - 1.
Proof.
  intros H. unfold saturate. rewrite right_mask_eq.
  destruct (z >? 2 ^ half_width - 1) eqn:E; lia.
Qed.

(** the packed word is [e * 2^half + s] *)
Lemma lor_halves a b :
  in_half a -> in_half b ->
  Z.lor (a * 2 ^ half_width) b = a * 2 ^ half_width + b.
Proof.
  intros [Ha0 Ha1] [Hb0 Hb1]. pose proof half_width_pos.
  rewrite <- Z.lxor_lor, <- Z.add_nocarry_lxor; trivial.
  all: apply Z.bits_inj'; intros n Hn; rewrite Z.land_spec, Z.bits_0.
  all: destruct (Z.lt_ge_cases n half_width) as [Hlt | Hge].
  all: try (rewrite Z.mul_pow2_bits_low by lia; reflexivity).
  all: assert (Hbn : Z.testbit b n = false)
    by (destruct (Z.eq_dec b 0) as [-> | Hne];
        [ apply Z.bits_0
        | apply Z.bits_above_log2; [lia |];
          apply Z.log2_lt_pow2; [lia |];
          apply Z.lt_le_trans with (2 ^ half_width); [lia |];
          apply Z.pow_le_mono_r; lia ]).
  all: rewrite Hbn; apply andb_false_r.
Qed.

Lemma weight_make e s :
  0 <= e -> 0 <= s ->
  weight_ (make e s) = saturate e * 2 ^ half_width + saturate s.
Proof.
  intros He Hs. pose proof half_width_pos. pose proof pow_half_pos.
  destruct (saturate_in_half e He) as [He0 He1].
  unfold make; simpl. fold (saturate e). fold (saturate s).
  rewrite Z.shiftl_mul_pow2 by lia.
  unfold wrap. rewrite Z.mod_small by (rewrite pow_size_width; nia).
  apply lor_halves; apply saturate_in_half; assumption.
Qed.

Lemma scheduled_make e s :
  0 <= e -> 0 <= s -> scheduled (make e s) = saturate s.
Proof.
  intros He Hs. pose proof half_width_pos. pose proof pow_half_pos.
  destruct (saturate_in_half s Hs) as [Hs0 Hs1].
  unfold scheduled. rewrite weight_make by assumption.
  rewrite right_mask_eq.
  replace (2 ^ half_width - 1) with (Z.ones half_width)
    by (rewrite Z.ones_equiv; lia).
  rewrite Z.land_ones by lia.
  rewrite Z.add_comm, Z.mod_add by lia.
  apply Z.mod_small. lia.
Qed.

Lemma enqueued_make e s :
  0 <= e -> 0 <= s -> enqueued (make e s) = saturate e.
Proof.
  intros He Hs. pose proof half_width_pos. pose proof pow_half_pos.
  destruct (saturate_in_half s Hs) as [Hs0 Hs1].
  destruct (saturate_in_half e He) as [He0 He1].
  unfold enqueued. rewrite weight_make by assumption.
  rewrite left_mask_eq.
  replace ((2 ^ half_width - 1) * 2 ^ half_width)
    with (Z.shiftl (Z.ones half_width) half_width)
    by (rewrite Z.shiftl_mul_pow2, Z.ones_equiv by lia; lia).
  rewrite <- (lor_halves (saturate e) (saturate s)) by (split; assumption).
  rewrite <- Z.shiftl_mul_pow2 by lia.
  rewrite Z.land_lor_distr_l.
  rewrite <- Z.shiftl_land, Z.land_ones by lia.
  rewrite (Z.mod_small (saturate e)) by lia.
  assert (Hz : Z.land (saturate s) (Z.shiftl (Z.ones half_width) half_width) = 0).
  { apply Z.bits_inj'; intros n Hn. rewrite Z.land_spec, Z.bits_0.
    destruct (Z.lt_ge_cases n half_width) as [Hlt | Hge].
    - rewrite (Z.shiftl_spec_low _ _ _ Hlt). apply andb_false_r.
    - replace (Z.testbit (saturate s) n) with false; [reflexivity |].
      symmetry. destruct (Z.eq_dec (saturate s) 0) as [-> | Hne];
        [ apply Z.bits_0 |].
      apply Z.bits_above_log2; [lia |].
      apply Z.log2_lt_pow2; [lia |].
      apply Z.lt_le_trans with (2 ^ half_width); [lia |].
      apply Z.pow_le_mono_r; lia. }
  rewrite Hz, Z.lor_0_r.
  rewrite Z.shiftr_shiftl_l by lia.
  rewrite Z.sub_diag. apply Z.shiftl_0_r.
Qed.

Lemma ltb_make e1 s1 e2 s2 :
  in_half e1 -> in_half s1 -> in_half e2 -> in_half s2 ->
  ltb (make e1 s1) (make e2 s2) = true <-> lex_lt e1 s1 e2 s2.
Proof.
  intros He1 Hs1 He2 Hs2. unfold ltb, lex_lt.
  rewrite !weight_make by (unfold in_half in *; lia).
  rewrite !saturate_small by assumption.
  unfold in_half in *. rewrite Z.ltb_lt. nia.
Qed.

(** C2, as amended: on counts below [2 ^ half_width] the comparison of
    the packed words is the lexicographic order on (enqueued, scheduled);
    a count of type [size_t] at or above [2 ^ half_width] is stored as the
    half-word maximum; and the accessors of a measurement built from
    counts in range give the counts back, with [blocked] their [size_t]
    difference, scheduled - enqueued modulo [2 ^ size_width]: that is the
    difference scheduled - enqueued exactly when enqueued <= scheduled. *)
Theorem measurement_packed_order (e1 s1 e2 s2 : Z) :
  in_half e1 -> in_half s1 -> in_half e2 -> in_half s2 ->
  (ltb (make e1 s1) (make e2 s2) = true <-> lex_lt e1 s1 e2 s2)
  /\ (forall e s, is_size_t e -> is_size_t s ->
        (2 ^ half_width <= e -> enqueued (make e s) = 2 ^ half_width - 1)
        /\ (2 ^ half_width <= s -> scheduled (make e s) = 2 ^ half_width - 1))
  /\ enqueued (make e1 s1) = e1
  /\ scheduled (make e1 s1) = s1
  /\ blocked (make e1 s1) = wrap (s1 - e1)
  /\ (blocked (make e1 s1) = s1 - e1 <-> e1 <= s1).
Proof.
  intros He1 Hs1 He2 Hs2.
  assert (Henq : enqueued (make e1 s1) = e1).
  { rewrite enqueued_make by (unfold in_half in *; lia).
    apply saturate_small; assumption. }
  assert (Hsch : scheduled (make e1 s1) = s1).
  { rewrite scheduled_make by (unfold in_half in *; lia).
    apply saturate_small; assumption. }
  split; [apply ltb_make; assumption |].
  split.
  { intros e s [He _] [Hs _]. split; intros Hge.
    - rewrite enqueued_make by assumption. apply saturate_large; assumption.
    - rewrite scheduled_make by assumption. apply saturate_large; assumption. }
  split; [exact Henq |]. split; [exact Hsch |].
  unfold blocked. rewrite Henq, Hsch. split; [reflexivity |].
  unfold in_half in *. pose proof pow_half_pos. pose proof pow_size_width.
  unfold wrap. split.
  - intros Heq.
    pose proof (Z.mod_pos_bound (s1 - e1) (2 ^ size_width) ltac:(nia)). lia.
  - intros Hle. apply Z.mod_small. nia.
Qed.

End Word.

(** the theorem at a 64-bit [size_t], on the counts (1,5) and (2,0) *)
Lemma measurement_packed_order_witness :
  (ltb (make 8 1 5) (make 8 2 0) = true <-> lex_lt 1 5 2 0)
  /\ enqueued 8 (make 8 1 5) = 1
  /\ scheduled 8 (make 8 1 5) = 5
  /\ blocked 8 (make 8 1 5) = 4.
Proof.
  assert (H8 : 0 < 8) by lia.
  assert (Hin : forall z, 0 <= z < 8 -> in_half 8 z).
  { intros z Hz. unfold in_half, half_width, size_width.
    change (2 ^ (8 * 8 / 2)) with 4294967296. lia. }
  destruct (measurement_packed_order 8 H8 1 5 2 0
              (Hin 1 ltac:(lia)) (Hin 5 ltac:(lia))
              (Hin 2 ltac:(lia)) (Hin 0 ltac:(lia)))
    as (Hlt & _ & He & Hs & _ & Hb).
  split; [exact Hlt |]. split; [exact He |]. split; [exact Hs |].
  apply Hb. lia.
Defined.

(** C2 with [blocked() = s - e] on every pair of counts in range fails
    where more coroutines are enqueued than scheduled: with a 64-bit
    [size_t] the counts (2,0) are in range, and [blocked()] of their
    measurement is [2^64 - 2], not [0 - 2]. *)
Lemma blocked_not_difference :
  in_half 8 2 /\ in_half 8 0
  /\ enqueued 8 (make 8 2 0) = 2 /\ scheduled 8 (make 8 2 0) = 0
  /\ blocked 8 (make 8 2 0) = 2 ^ 64 - 2
  /\ blocked 8 (make 8 2 0) <> 0 - 2.
Proof.
  assert (Hb : blocked 8 (make 8 2 0) = 2 ^ 64 - 2) by (vm_compute; reflexivity).
  split; [vm_compute; split; [discriminate | reflexivity] |].
  split; [vm_compute; split; [discriminate | reflexivity] |].
  split; [vm_compute; reflexivity |]. split; [vm_compute; reflexivity |].
  split; [exact Hb |]. rewrite Hb. discriminate.
Qed.

End Measurement.

(** ** Thread-local state (scheduler.hpp, coroutine.hpp, threadpool.hpp,
       await.cpp)

    Schedulers, coroutines, threadpools and threads are named by numbers;
    a null pointer is [None]. *)

Module ThreadLocal.

Record thread_locals : Type := ThreadLocals {
  thread_id : nat;
  tl_this_scheduler : option nat;
  tl_this_scheduler_redirect : option nat;
  tl_this_coroutine : option nat;
  tl_this_threadpool : option nat;
  tl_is_await : bool
}.

(** [in_scheduler()]: the redirected pointer is not null *)
Definition in_scheduler (tl : thread_locals) : bool :=
  bool_decide (is_Some (tl_this_scheduler_redirect tl)).

(** [this_scheduler()]: the redirected pointer *)
Definition this_scheduler (tl : thread_locals) : option nat :=
  tl_this_scheduler_redirect tl.

Definition in_coroutine (tl : thread_locals) : bool :=
  bool_decide (is_Some (tl_this_coroutine tl)).

Definition in_threadpool (tl : thread_locals) : bool :=
  bool_decide (is_Some (tl_this_threadpool tl)).

Definition is_await (tl : thread_locals) : bool := tl_is_await tl.

(** [mce::yield()] (coroutine.hpp, 186-190): the coroutine that yields, if
    the caller runs in one; no effect on a raw thread *)
Definition yield (tl : thread_locals) : option nat := tl_this_coroutine tl.

End ThreadLocal.

(** ** [scheduler::parkable] (scheduler.hpp, 267-425) *)

Module Parkable.
Import ThreadLocal.

Inductive waiting_context : Type :=
| scheduled_context
| coroutine_context
| thread_context.

(** [wc] is the waiting context made by [park]; [notified] is what
    [notify] leaves behind: the coroutine handed back to its scheduler,
    [co_not_ready] cleared, or [ready] set. *)
Record parkable : Type := MkParkable {
  wc : option waiting_context;
  notified : bool
}.

(** [parkable()] *)
Definition new : parkable := MkParkable None false.

(** [park(lk)], up to the point where the caller waits *)
Definition park (tl : thread_locals) (p : parkable) : parkable :=
  MkParkable
    (Some (if in_scheduler tl then scheduled_context
           else if in_coroutine tl then coroutine_context
           else thread_context))
    (notified p).

(** [unpark(lk)]: [None] is the throw of [unpark_exception] *)
Definition unpark (p : parkable) : option parkable :=
  match wc p with
  | Some c => Some (MkParkable (Some c) true)
  | None => None
  end.

Lemma unpark_park tl p :
  unpark (park tl p) = Some (MkParkable (wc (park tl p)) true).
Proof. reflexivity. Qed.

End Parkable.

(** ** [scheduler] (scheduler.hpp, 179-1092) *)

Module Scheduler.
Import ThreadLocal.

(** [lifecycle::state]; the order of the enumerators matters to
    [can_continue_] *)
Inductive state : Type := ready | running | suspended | halted.

Definition state_rank (s : state) : nat :=
  match s with ready => 0 | running => 1 | suspended => 2 | halted => 3 end.

Definition state_eqb (a b : state) : bool := Nat.eqb (state_rank a) (state_rank b).

Lemma state_eqb_eq a b : state_eqb a b = true <-> a = b.
Proof. destruct a, b; simpl; split; (reflexivity || discriminate). Qed.

(** A coroutine is either one the caller allocated or the one that
    [coroutine::make] builds from a callable and its bind-arguments.  An
    argument of [schedule] is a [std::unique_ptr<coroutine>] (possibly
    empty), a container of such pointers, or anything else. *)
Inductive coroutine : Type :=
| co_ptr (id : nat)
| co_make (cb : nat) (bound : list arg)
with arg : Type :=
| arg_coroutine (c : option coroutine)
| arg_container (cs : list (option coroutine))
| arg_other (v : nat).

Record scheduler : Type := MkScheduler {
  state_ : state;
  halt_complete_ : bool;
  scheduled_ : Z;
  waiting_for_resume_ : bool;
  waiting_for_tasks_ : bool;
  tasks_available_park_ : option nat;
  halt_complete_waiters_ : list nat;
  task_queue_ : list coroutine
}.

Definition set_state_ (x : state) (s : scheduler) : scheduler :=
  MkScheduler x (halt_complete_ s) (scheduled_ s) (waiting_for_resume_ s)
    (waiting_for_tasks_ s) (tasks_available_park_ s)
    (halt_complete_waiters_ s) (task_queue_ s).

Definition set_halt_complete_ (x : bool) (s : scheduler) : scheduler :=
  MkScheduler (state_ s) x (scheduled_ s) (waiting_for_resume_ s)
    (waiting_for_tasks_ s) (tasks_available_park_ s)
    (halt_complete_waiters_ s) (task_queue_ s).

Definition set_scheduled_ (x : Z) (s : scheduler) : scheduler :=
  MkScheduler (state_ s) (halt_complete_ s) x (waiting_for_resume_ s)
    (waiting_for_tasks_ s) (tasks_available_park_ s)
    (halt_complete_waiters_ s) (task_queue_ s).

Definition set_waiting_for_resume_ (x : bool) (s : scheduler) : scheduler :=
  MkScheduler (state_ s) (halt_complete_ s) (scheduled_ s) x
    (waiting_for_tasks_ s) (tasks_available_park_ s)
    (halt_complete_waiters_ s) (task_queue_ s).

Definition set_waiting_for_tasks_ (x : bool) (s : scheduler) : scheduler :=
  MkScheduler (state_ s) (halt_complete_ s) (scheduled_ s)
    (waiting_for_resume_ s) x (tasks_available_park_ s)
    (halt_complete_waiters_ s) (task_queue_ s).

Definition set_tasks_available_park_ (x : option nat) (s : scheduler) : scheduler :=
  MkScheduler (state_ s) (halt_complete_ s) (scheduled_ s)
    (waiting_for_resume_ s) (waiting_for_tasks_ s) x
    (halt_complete_waiters_ s) (task_queue_ s).

Definition set_halt_complete_waiters_ (x : list nat) (s : scheduler) : scheduler :=
  MkScheduler (state_ s) (halt_complete_ s) (scheduled_ s)
    (waiting_for_resume_ s) (waiting_for_tasks_ s) (tasks_available_park_ s)
    x (task_queue_ s).

Definition set_task_queue_ (x : list coroutine) (s : scheduler) : scheduler :=
  MkScheduler (state_ s) (halt_complete_ s) (scheduled_ s)
    (waiting_for_resume_ s) (waiting_for_tasks_ s) (tasks_available_park_ s)
    (halt_complete_waiters_ s) x.

(** [reset_flags_()] *)
Definition reset_flags_ (s : scheduler) : scheduler :=
  set_tasks_available_park_ None
    (set_waiting_for_tasks_ false
       (set_waiting_for_resume_ false (set_halt_complete_ false s))).

(** [scheduler::make()]: the constructor, then [reset_flags_] *)
Definition make : scheduler :=
  reset_flags_ (MkScheduler ready false 0 false false None [] []).

(** [can_continue_()]: [state_ < lifecycle::state::suspended] *)
Definition can_continue_ (s : scheduler) : bool :=
  Nat.ltb (state_rank (state_ s)) (state_rank suspended).

(** [clear_task_queue_()]: every queued coroutine is deleted *)
Definition clear_task_queue_ (s : scheduler) : scheduler := set_task_queue_ [] s.

(** [resume_notify_()] *)
Definition resume_notify_ (s : scheduler) : scheduler :=
  if waiting_for_resume_ s then set_waiting_for_resume_ false s else s.

(** [update_running_state_()] *)
Definition update_running_state_ (s : scheduler) : scheduler :=
  if state_eqb (state_ s) ready then set_state_ running s else s.

(** [tasks_available_notify_()]: the parked child scheduler is unparked
    and forgotten, or the condition variable is notified *)
Definition tasks_available_notify_ (s : scheduler) : scheduler :=
  if waiting_for_tasks_ s then
    let s1 := set_waiting_for_tasks_ false s in
    match tasks_available_park_ s1 with
    | Some _ => set_tasks_available_park_ None s1
    | None => s1
    end
  else s.

Section SizeT.
(** [sizeof(size_t)] *)
Variable size_bytes : Z.

(** [schedule_coroutine_(c)] *)
Definition schedule_coroutine_ (c : option coroutine) (s : scheduler) : scheduler :=
  match c with
  | Some co =>
      set_task_queue_ (task_queue_ s ++ [co])
        (set_scheduled_ (Measurement.wrap size_bytes (scheduled_ s + 1)) s)
  | None => s
  end.

(** the overloads of [schedule_]: no argument left; a coroutine first; a
    container first; anything else first, which is taken as a callable
    with all that follows as its arguments *)
Fixpoint schedule_ (args : list arg) (s : scheduler) : scheduler :=
  match args with
  | [] => tasks_available_notify_ s
  | arg_coroutine c :: rest => schedule_ rest (schedule_coroutine_ c s)
  | arg_container cs :: rest =>
      schedule_ rest (fold_left (fun s' c => schedule_coroutine_ c s') cs s)
  | arg_other cb :: rest =>
      tasks_available_notify_ (schedule_coroutine_ (Some (co_make cb rest)) s)
  end.

(** [schedule(a, as...)] *)
Definition schedule (a : arg) (rest : list arg) (s : scheduler) : scheduler :=
  if negb (state_eqb (state_ s) halted) then schedule_ (a :: rest) s else s.

(** [measure()] *)
Definition measure (s : scheduler) : Measurement.measurement :=
  Measurement.make size_bytes (Z.of_nat (length (task_queue_ s))) (scheduled_ s).

(** [get_state_impl()] *)
Definition get_state_impl (s : scheduler) : state := state_ s.

(** [suspend_impl()] *)
Definition suspend_impl (s : scheduler) : bool * scheduler :=
  if state_eqb (state_ s) halted then (false, s)
  else (true, tasks_available_notify_ (set_state_ suspended s)).

(** [resume_impl()] *)
Definition resume_impl (s : scheduler) : scheduler :=
  if state_eqb (state_ s) suspended then resume_notify_ (set_state_ ready s)
  else s.

(** who calls [halt()]: a coroutine running in this scheduler, a coroutine
    running elsewhere (with the parkable it waits on), or a thread *)
Inductive halt_caller : Type :=
| from_this_scheduler
| from_coroutine (p : nat)
| from_thread.

(** [halt_impl()], up to the point where the caller yields or waits for
    [halt_complete_] *)
Definition halt_impl (c : halt_caller) (s : scheduler) : scheduler :=
  let s1 := resume_notify_ (set_state_ halted s) in
  match c with
  | from_this_scheduler => s1
  | from_coroutine p =>
      let s2 := tasks_available_notify_ s1 in
      if halt_complete_ s2 then s2
      else set_halt_complete_waiters_ (halt_complete_waiters_ s2 ++ [p]) s2
  | from_thread => tasks_available_notify_ s1
  end.

(** what other code may call on the scheduler while its lock is free *)
Inductive op : Type :=
| op_schedule (a : arg) (rest : list arg)
| op_suspend
| op_resume
| op_halt (c : halt_caller)
| op_measure
| op_get_state.

Definition apply_op (o : op) (s : scheduler) : scheduler :=
  match o with
  | op_schedule a rest => schedule a rest s
  | op_suspend => snd (suspend_impl s)
  | op_resume => resume_impl s
  | op_halt c => halt_impl c s
  | op_measure => s
  | op_get_state => s
  end.

Definition apply_ops (ops : list op) (s : scheduler) : scheduler :=
  fold_left (fun s' o => apply_op o s') ops s.

(** how [cur_co->run()] comes back: by a yield, by the end of the
    coroutine, with [park_continuation_] set, or by an exception *)
Inductive co_result : Type := co_yield | co_complete | co_park | co_throw.

(** One stretch of time in which [run()] does not hold the lock: the calls
    made on the scheduler meanwhile (by other threads, and by the running
    coroutine itself) and, when the stretch is the run of a coroutine, how
    the coroutine comes back. *)
Record interval : Type := Interval {
  during : list op;
  outcome : co_result
}.

Inductive run_result : Type :=
| returned (b : bool)
| raised
| blocked.

(** [resume_wait_(lk)], [tasks_available_wait_(lk)] and
    [tasks_available_child_wait_(lk)]; the child scheduler parks on a
    parkable of its frame, named [0] here.  A wait ends with the stretch,
    whether or not a call in it notified: a condition variable may wake for
    no reason, and for the parked child this allows more than the code
    does. *)
Definition resume_wait_ (i : interval) (s : scheduler) : scheduler :=
  apply_ops (during i) (set_waiting_for_resume_ true s).

Definition tasks_available_wait_ (i : interval) (s : scheduler) : scheduler :=
  update_running_state_
    (apply_ops (during i) (set_waiting_for_tasks_ true s)).

Definition tasks_available_child_wait_ (i : interval) (s : scheduler) : scheduler :=
  update_running_state_
    (apply_ops (during i)
       (set_tasks_available_park_ (Some 0%nat) (set_waiting_for_tasks_ true s))).

(** the lambda [execute_co]: [None] when the coroutine threw *)
Definition execute_co (i : interval) (s : scheduler) : option scheduler :=
  match task_queue_ s with
  | [] => Some s
  | cur_co :: _ =>
      let s1 := apply_ops (during i) s in
      match outcome i with
      | co_park => Some (set_task_queue_ (tail (task_queue_ s1)) s1)
      | co_complete =>
          Some (set_scheduled_ (Measurement.wrap size_bytes (scheduled_ s1 - 1))
                  (set_task_queue_ (tail (task_queue_ s1)) s1))
      | co_yield =>
          Some (set_task_queue_ (tail (task_queue_ s1) ++ [cur_co]) s1)
      | co_throw => None
      end
  end.

(** [while(state_ == suspended) resume_wait_(lk)] *)
Fixpoint resume_loop (env : list interval) (s : scheduler)
  : option (list interval * scheduler) :=
  if state_eqb (state_ s) suspended then
    match env with
    | [] => None
    | i :: env' => resume_loop env' (resume_wait_ i s)
    end
  else Some (env, s).

(** the scheduler when [env] is used up in that loop: the stretches were
    spent in [resume_wait_], the last call of [resume_wait_] has set
    [waiting_for_resume_], and the caller of [run()] waits *)
Fixpoint resume_blocked (env : list interval) (s : scheduler) : scheduler :=
  if state_eqb (state_ s) suspended then
    match env with
    | [] => set_waiting_for_resume_ true s
    | i :: env' => resume_blocked env' (resume_wait_ i s)
    end
  else s.

(** how the evaluation loop of [run()] ends: its condition failed, a
    coroutine threw, or [env] is used up: the thread waits, or the
    coroutine keeps running, and nothing more happens *)
Inductive loop_result : Type :=
| loop_done (s : scheduler)
| loop_raised (s : scheduler)
| loop_blocked (s : scheduler).

(** the root evaluation loop; the inner [while] that waits for tasks tests
    what the outer loop tests next, so one level of recursion does both *)
Fixpoint root_loop (env : list interval) (s : scheduler) : loop_result :=
  if can_continue_ s then
    match env with
    | [] => loop_blocked s
    | i :: env' =>
        if negb (Nat.eqb (length (task_queue_ s)) 0) then
          match execute_co i s with
          | Some s' => root_loop env' s'
          | None => loop_raised (apply_ops (during i) s)
          end
        else root_loop env' (tasks_available_wait_ i s)
    end
  else loop_done s.

(** the loop of a scheduler that runs inside another one: after a
    coroutine it yields to the parent, which is one more stretch without
    the lock *)
Fixpoint child_loop (env : list interval) (s : scheduler) : loop_result :=
  if can_continue_ s then
    match env with
    | [] => loop_blocked s
    | i :: env' =>
        if negb (Nat.eqb (length (task_queue_ s)) 0) then
          match execute_co i s with
          | Some s' =>
              match env' with
              | [] => loop_blocked s'
              | j :: env'' => child_loop env'' (apply_ops (during j) s')
              end
          | None => loop_raised (apply_ops (during i) s)
          end
        else child_loop env' (tasks_available_child_wait_ i s)
    end
  else loop_done s.

(** the halt path at the end of [run()]: the queue is cleared,
    [halt_complete_] is set and every waiter for it is unparked *)
Definition halt_exit (s : scheduler) : scheduler :=
  set_halt_complete_waiters_ []
    (set_halt_complete_ true (clear_task_queue_ s)).

(** the end of [run()] *)
Definition run_exit (s : scheduler) : run_result * scheduler :=
  if state_eqb (state_ s) suspended then (returned true, reset_flags_ s)
  else (returned false, halt_exit s).

(** [run()]; [parent_cs] is [tl_this_scheduler()] on entry, and the
    scheduler is a child when it is not null.  Calls of [run()] by a second
    thread are not among the operations of [env]: what such a call does is
    [run] itself, on the state it finds. *)
Definition run (parent_cs : option nat) (env : list interval) (s : scheduler)
  : run_result * scheduler :=
  match resume_loop env s with
  | None => (blocked, resume_blocked env s)
  | Some (env1, s1) =>
      if state_eqb (state_ s1) ready then
        let s2 := set_state_ running s1 in
        match (if bool_decide (is_Some parent_cs) then child_loop env1 s2
               else root_loop env1 s2) with
        | loop_done s3 => run_exit s3
        | loop_raised s3 => (raised, s3)
        | loop_blocked s3 => (blocked, s3)
        end
      else run_exit s1
  end.

(** *** Facts about the lifecycle state *)

(** what an operation does to [state_] *)
Definition op_state (o : op) (st : state) : state :=
  match o with
  | op_suspend => if state_eqb st halted then st else suspended
  | op_resume => if state_eqb st suspended then ready else st
  | op_halt _ => halted
  | _ => st
  end.

Lemma state_tasks_available_notify_ s :
  state_ (tasks_available_notify_ s) = state_ s.
Proof.
  unfold tasks_available_notify_.
  destruct (waiting_for_tasks_ s); [| reflexivity].
  simpl. destruct (tasks_available_park_ s); reflexivity.
Qed.

Lemma state_resume_notify_ s : state_ (resume_notify_ s) = state_ s.
Proof. unfold resume_notify_. destruct (waiting_for_resume_ s); reflexivity. Qed.

Lemma state_schedule_coroutine_ c s :
  state_ (schedule_coroutine_ c s) = state_ s.
Proof. destruct c; reflexivity. Qed.

Lemma state_schedule_ args : forall s, state_ (schedule_ args s) = state_ s.
Proof.
  induction args as [| a rest IH]; intros s; simpl.
  - apply state_tasks_available_notify_.
  - destruct a as [c | cs | cb].
    + rewrite IH. apply state_schedule_coroutine_.
    + rewrite IH. revert s. induction cs as [| c cs IHcs]; intros s; simpl.
      * reflexivity.
      * rewrite IHcs. apply state_schedule_coroutine_.
    + rewrite state_tasks_available_notify_. reflexivity.
Qed.

Lemma state_apply_op o s : state_ (apply_op o s) = op_state o (state_ s).
Proof.
  destruct o as [a rest | | | c | |]; simpl; try reflexivity.
  - unfold schedule. destruct (negb (state_eqb (state_ s) halted)).
    + apply state_schedule_.
    + reflexivity.
  - unfold suspend_impl. destruct (state_eqb (state_ s) halted); simpl.
    + reflexivity.
    + apply state_tasks_available_notify_.
  - unfold resume_impl. destruct (state_eqb (state_ s) suspended).
    + apply state_resume_notify_.
    + reflexivity.
  - unfold halt_impl. destruct c.
    + apply state_resume_notify_.
    + match goal with |- context [if ?b then _ else _] => destruct b end;
        simpl; rewrite state_tasks_available_notify_; apply state_resume_notify_.
    + rewrite state_tasks_available_notify_. apply state_resume_notify_.
Qed.

(** some stretch of [env] holds a call of [suspend()], of [halt()] *)
Definition suspend_called (env : list interval) : Prop :=
  exists i, In i env /\ In op_suspend (during i).

Definition halt_called (env : list interval) : Prop :=
  exists i c, In i env /\ In (op_halt c) (during i).

(** what a list of operations does to [state_] *)
Definition ops_state (ops : list op) (st : state) : state :=
  fold_left (fun st' o => op_state o st') ops st.

Lemma state_apply_ops ops : forall s,
  state_ (apply_ops ops s) = ops_state ops (state_ s).
Proof.
  induction ops as [| o ops IH]; intros s; simpl.
  - reflexivity.
  - unfold apply_ops in IH. rewrite IH, state_apply_op. reflexivity.
Qed.

Lemma ops_state_suspended ops : forall st,
  ops_state ops st = suspended -> st = suspended \/ In op_suspend ops.
Proof.
  induction ops as [| o ops IH]; intros st H; simpl in *.
  - left. exact H.
  - destruct (IH _ H) as [Hs | Hin]; [| right; right; exact Hin].
    destruct o; simpl in Hs; try (left; exact Hs); try discriminate.
    + right. left. reflexivity.
    + destruct st; simpl in Hs; try discriminate; left; reflexivity.
Qed.

Lemma ops_state_halted ops : forall st,
  ops_state ops st = halted -> st = halted \/ exists c, In (op_halt c) ops.
Proof.
  induction ops as [| o ops IH]; intros st H; simpl in *.
  - left. exact H.
  - destruct (IH _ H) as [Hs | [c Hin]]; [| right; exists c; right; exact Hin].
    destruct o as [a rest | | | c | |]; simpl in Hs; try (left; exact Hs).
    + destruct st; simpl in Hs; try discriminate; left; reflexivity.
    + destruct st; simpl in Hs; try discriminate; left; reflexivity.
    + right. exists c. left. reflexivity.
Qed.

Lemma ops_state_running ops : forall st,
  ops_state ops st = running -> st = running.
Proof.
  induction ops as [| o ops IH]; intros st H; simpl in *.
  - exact H.
  - apply IH in H.
    destruct o; simpl in H; try exact H; try discriminate;
      destruct st; simpl in H; try discriminate; reflexivity.
Qed.

Lemma state_update_running_state_ s st :
  st <> running -> st <> ready ->
  state_ (update_running_state_ s) = st -> state_ s = st.
Proof.
  intros Hr Hd. unfold update_running_state_.
  destruct (state_eqb (state_ s) ready) eqn:E; simpl; [| trivial].
  intros <-. contradiction Hr. reflexivity.
Qed.

Lemma state_execute_co i s s' :
  task_queue_ s <> [] ->
  execute_co i s = Some s' -> state_ s' = state_ (apply_ops (during i) s).
Proof.
  intros Hq. unfold execute_co.
  destruct (task_queue_ s) as [| cur_co q]; [contradiction |].
  destruct (outcome i); intros [= <-]; reflexivity.
Qed.

Lemma can_continue_false s :
  can_continue_ s = false -> state_ s = suspended \/ state_ s = halted.
Proof.
  unfold can_continue_. destruct (state_ s); simpl; try discriminate; auto.
Qed.

Lemma queue_nonempty (s : scheduler) :
  negb (Nat.eqb (length (task_queue_ s)) 0) = true -> task_queue_ s <> [].
Proof. destruct (task_queue_ s); simpl; [discriminate | discriminate]. Qed.

(** the end state of a loop that ran to its end: it cannot continue, and a
    suspended or halted end state was there at the start or was made by a
    call in [env] *)
Definition loop_post (env : list interval) (s s' : scheduler) : Prop :=
  can_continue_ s' = false
  /\ (state_ s' = suspended -> state_ s = suspended \/ suspend_called env)
  /\ (state_ s' = halted -> state_ s = halted \/ halt_called env).

Lemma loop_post_here env s : can_continue_ s = false -> loop_post env s s.
Proof. intros H. split; [exact H |]. split; intros; left; assumption. Qed.

(** one stretch [i] taken from the front of [env], after which the state
    is [s1] with the lifecycle state the calls of [i] left, up to
    [update_running_state_] *)
Lemma loop_post_step i env s s1 s' :
  (forall st, st <> running -> st <> ready ->
     state_ s1 = st -> ops_state (during i) (state_ s) = st) ->
  loop_post env s1 s' -> loop_post (i :: env) s s'.
Proof.
  intros Hst (Hc & Hs & Hh). split; [exact Hc |]. split; intros H.
  - destruct (Hs H) as [H1 | (j & Hj & Hin)].
    + apply Hst in H1; try discriminate.
      destruct (ops_state_suspended _ _ H1) as [? | Hin]; [left; assumption |].
      right. exists i. split; [left; reflexivity | exact Hin].
    + right. exists j. split; [right; exact Hj | exact Hin].
  - destruct (Hh H) as [H1 | (j & c & Hj & Hin)].
    + apply Hst in H1; try discriminate.
      destruct (ops_state_halted _ _ H1) as [? | [c Hin]]; [left; assumption |].
      right. exists i, c. split; [left; reflexivity | exact Hin].
    + right. exists j, c. split; [right; exact Hj | exact Hin].
Qed.

Lemma execute_co_step i s s1 :
  negb (Nat.eqb (length (task_queue_ s)) 0) = true ->
  execute_co i s = Some s1 ->
  forall st, st <> running -> st <> ready ->
    state_ s1 = st -> ops_state (during i) (state_ s) = st.
Proof.
  intros Hq He st _ _ <-. rewrite <- state_apply_ops. symmetry.
  eapply state_execute_co; [apply queue_nonempty |]; eassumption.
Qed.

Lemma wait_step i s s0 :
  state_ s0 = state_ s ->
  forall st, st <> running -> st <> ready ->
    state_ (update_running_state_ (apply_ops (during i) s0)) = st ->
    ops_state (during i) (state_ s) = st.
Proof.
  intros H0 st Hr Hd Hst.
  apply state_update_running_state_ in Hst; try assumption.
  rewrite state_apply_ops, H0 in Hst. exact Hst.
Qed.

Lemma root_loop_done env : forall s s',
  root_loop env s = loop_done s' -> loop_post env s s'.
Proof.
  induction env as [| i env IH]; intros s s'; simpl.
  - destruct (can_continue_ s) eqn:Hc; [discriminate |].
    intros [= <-]. apply loop_post_here; assumption.
  - destruct (can_continue_ s) eqn:Hc;
      [| intros [= <-]; apply loop_post_here; assumption].
    destruct (negb (Nat.eqb (length (task_queue_ s)) 0)) eqn:Hq.
    + destruct (execute_co i s) as [s1 |] eqn:He; [| discriminate].
      intros H. apply IH in H. eapply loop_post_step; [| exact H].
      eapply execute_co_step; eassumption.
    + intros H. apply IH in H. eapply loop_post_step; [| exact H].
      apply wait_step. reflexivity.
Qed.

Lemma child_loop_done n : forall env s s',
  length env <= n ->
  child_loop env s = loop_done s' -> loop_post env s s'.
Proof.
  induction n as [| n IH]; intros env s s' Hn.
  - destruct env; [| simpl in Hn; lia]. simpl.
    destruct (can_continue_ s) eqn:Hc; [discriminate |].
    intros [= <-]. apply loop_post_here; assumption.
  - destruct env as [| i env]; simpl.
    { destruct (can_continue_ s) eqn:Hc; [discriminate |].
      intros [= <-]. apply loop_post_here; assumption. }
    destruct (can_continue_ s) eqn:Hc;
      [| intros [= <-]; apply loop_post_here; assumption].
    simpl in Hn.
    destruct (negb (Nat.eqb (length (task_queue_ s)) 0)) eqn:Hq.
    + destruct (execute_co i s) as [s1 |] eqn:He; [| discriminate].
      destruct env as [| j env]; [discriminate |].
      intros H. apply IH in H; [| simpl in Hn; lia].
      eapply loop_post_step; [eapply execute_co_step; eassumption |].
      eapply loop_post_step; [| exact H].
      intros st _ _ <-. symmetry. apply state_apply_ops.
    + intros H. apply IH in H; [| lia]. eapply loop_post_step; [| exact H].
      apply wait_step. reflexivity.
Qed.

Lemma resume_loop_some env : forall s env1 s1,
  resume_loop env s = Some (env1, s1) ->
  state_ s1 <> suspended
  /\ (exists pre, env = pre ++ env1)
  /\ (state_ s1 = running -> s1 = s /\ env1 = env)
  /\ (state_ s1 = halted -> state_ s = halted \/ halt_called env)
  /\ (state_ s <> suspended -> s1 = s /\ env1 = env).
Proof.
  induction env as [| i env IH]; intros s env1 s1; simpl.
  - destruct (state_eqb (state_ s) suspended) eqn:E; [discriminate |].
    intros [= <- <-].
    assert (Hne : state_ s <> suspended)
      by (intros H; apply state_eqb_eq in H; congruence).
    repeat split; trivial; try (exists []; reflexivity). left; assumption.
  - destruct (state_eqb (state_ s) suspended) eqn:E.
    + apply state_eqb_eq in E. intros H.
      destruct (IH _ _ _ H) as (Hne & [pre Hpre] & Hrun & Hhalt & _).
      split; [exact Hne |]. split; [exists (i :: pre); rewrite Hpre; reflexivity |].
      split; [| split].
      * intros Hr. exfalso. destruct (Hrun Hr) as [-> _].
        unfold resume_wait_ in Hr. rewrite state_apply_ops in Hr.
        apply ops_state_running in Hr. simpl in Hr. congruence.
      * intros Hh. right. destruct (Hhalt Hh) as [H1 | (j & c & Hj & Hin)].
        -- unfold resume_wait_ in H1. rewrite state_apply_ops in H1.
           destruct (ops_state_halted _ _ H1) as [H2 | [c Hin]].
           ++ simpl in H2. congruence.
           ++ exists i, c. split; [left; reflexivity | exact Hin].
        -- exists j, c. split; [right; exact Hj | exact Hin].
      * intros Hns. contradiction.
    + intros [= <- <-].
      assert (Hne : state_ s <> suspended)
        by (intros H; apply state_eqb_eq in H; congruence).
      repeat split; trivial; try (exists []; reflexivity). left; assumption.
Qed.

Lemma state_run_exit s b s' :
  run_exit s = (returned b, s') ->
  state_ s' = state_ s /\ (b = true <-> state_ s = suspended).
Proof.
  unfold run_exit. destruct (state_eqb (state_ s) suspended) eqn:E.
  - apply state_eqb_eq in E. intros [= <- <-]. split; [reflexivity |].
    split; trivial.
  - intros [= <- <-]. split; [reflexivity |].
    split; [discriminate |].
    intros H. apply state_eqb_eq in H. congruence.
Qed.

Lemma root_loop_stop env s : can_continue_ s = false -> root_loop env s = loop_done s.
Proof. intros H. destruct env; simpl; rewrite H; reflexivity. Qed.

(** a root scheduler that is ready and sees, in the first stretch without
    the lock, calls that leave it suspended or halted ([st]) returns at the
    next test of its loop: [true] for suspended, [false] for halted *)
Lemma run_root_returns i rest s st :
  state_ s = ready ->
  outcome i <> co_throw ->
  ops_state (during i) running = st ->
  st = suspended \/ st = halted ->
  fst (run None (i :: rest) s) = returned (state_eqb st suspended).
Proof.
  intros Hs Ho Hops Hst. unfold run. simpl resume_loop. rewrite Hs. simpl.
  rewrite Hs. simpl.
  assert (Hfin : forall s1, state_ s1 = st ->
            fst (match root_loop rest s1 with
                 | loop_done s3 => run_exit s3
                 | loop_raised s3 => (raised, s3)
                 | loop_blocked s3 => (blocked, s3)
                 end) = returned (state_eqb st suspended)).
  { intros s1 H1. rewrite root_loop_stop
      by (unfold can_continue_; rewrite H1; destruct Hst as [-> | ->]; reflexivity).
    unfold run_exit. rewrite H1. destruct Hst as [-> | ->]; reflexivity. }
  unfold execute_co. simpl task_queue_.
  destruct (task_queue_ s) as [| cur_co q] eqn:Hq; simpl.
  - apply Hfin. unfold tasks_available_wait_, update_running_state_.
    rewrite !state_apply_ops. simpl. rewrite Hops.
    destruct Hst as [-> | ->]; simpl; rewrite state_apply_ops; simpl;
      exact Hops.
  - destruct (outcome i); try contradiction; apply Hfin; simpl;
      rewrite state_apply_ops; simpl; exact Hops.
Qed.

(** C5: [run()] returns [true] exactly when it leaves the scheduler
    suspended, which takes a call of [suspend()] made while it ran; it
    returns [false] when it leaves the scheduler halted, which takes a
    call of [halt()] unless the scheduler was halted before; a call made
    while the scheduler is in state running returns [false] at once, by
    the halt path and whatever else happens; and a ready root scheduler
    does return, [true] or [false], once the calls made in a stretch
    without its lock leave it suspended or halted. *)
Theorem run_return_value (parent_cs : option nat) (env : list interval)
    (s : scheduler) :
  (state_ s = running ->
     run parent_cs env s = (returned false, halt_exit s))
  /\ (forall b s', run parent_cs env s = (returned b, s') ->
        (b = true <-> state_ s' = suspended)
        /\ (b = true -> suspend_called env)
        /\ (b = false ->
             state_ s = running
             \/ (state_ s' = halted /\ (state_ s = halted \/ halt_called env))))
  /\ (forall i rest st,
        state_ s = ready -> outcome i <> co_throw ->
        ops_state (during i) running = st ->
        st = suspended \/ st = halted ->
        fst (run None (i :: rest) s) = returned (state_eqb st suspended)).
Proof.
  split; [| split].
  - intros Hr. unfold run.
    assert (H : resume_loop env s = Some (env, s))
      by (destruct env; simpl; rewrite Hr; reflexivity).
    rewrite H, Hr. simpl. unfold run_exit. rewrite Hr. reflexivity.
  - intros b s' Hrun. unfold run in Hrun.
    destruct (resume_loop env s) as [[env1 s1] |] eqn:Hres; [| discriminate].
    destruct (resume_loop_some _ _ _ _ Hres)
      as (Hne & [pre Hpre] & Hrun1 & Hhalt1 & _).
    assert (Hsub_s : suspend_called env1 -> suspend_called env).
    { intros (j & Hj & Hin). exists j. split; [| exact Hin].
      rewrite Hpre. apply in_or_app. right. exact Hj. }
    assert (Hsub_h : halt_called env1 -> halt_called env).
    { intros (j & c & Hj & Hin). exists j, c. split; [| exact Hin].
      rewrite Hpre. apply in_or_app. right. exact Hj. }
    destruct (state_eqb (state_ s1) ready) eqn:Hready.
    + assert (Hpost : exists s3, run_exit s3 = (returned b, s')
                /\ loop_post env1 (set_state_ running s1) s3).
      { destruct (bool_decide (is_Some parent_cs)).
        - destruct (child_loop env1 (set_state_ running s1)) as [s3 | s3 | s3] eqn:Hl;
            try discriminate.
          exists s3. split; [exact Hrun |].
          eapply child_loop_done; [reflexivity | exact Hl].
        - destruct (root_loop env1 (set_state_ running s1)) as [s3 | s3 | s3] eqn:Hl;
            try discriminate.
          exists s3. split; [exact Hrun |].
          apply root_loop_done. exact Hl. }
      destruct Hpost as (s3 & Hexit & Hc & Hs3 & Hh3).
      destruct (state_run_exit _ _ _ Hexit) as [Heq Hb].
      rewrite Heq. split; [exact Hb |]. split.
      * intros Ht. apply Hb in Ht. destruct (Hs3 Ht) as [H | H];
          [discriminate | auto].
      * intros ->. right.
        destruct (can_continue_false _ Hc) as [H | H].
        -- apply Hb in H. discriminate.
        -- split; [exact H |]. right.
           destruct (Hh3 H) as [H' | H']; [discriminate | auto].
    + destruct (state_run_exit _ _ _ Hrun) as [Heq Hb].
      rewrite Heq. split; [exact Hb |]. split.
      * intros Ht. apply Hb in Ht. contradiction.
      * intros ->. destruct (state_ s1) eqn:Hs1; try discriminate.
        -- left. destruct (Hrun1 eq_refl) as [<- _]. exact Hs1.
        -- contradiction.
        -- right. split; [reflexivity |].
           destruct (Hhalt1 eq_refl) as [H | H]; auto.
  - intros i rest st. apply run_root_returns.
Qed.


(** *** [schedule] on a halted scheduler *)

Lemma schedule_enqueues c s :
  state_ s <> halted ->
  task_queue_ (schedule (arg_coroutine (Some c)) [] s) = task_queue_ s ++ [c]
  /\ scheduled_ (schedule (arg_coroutine (Some c)) [] s)
     = Measurement.wrap size_bytes (scheduled_ s + 1).
Proof.
  intros Hs. unfold schedule.
  destruct (state_eqb (state_ s) halted) eqn:E;
    [apply state_eqb_eq in E; contradiction |].
  simpl. unfold tasks_available_notify_. simpl.
  destruct (waiting_for_tasks_ s); simpl;
    [destruct (tasks_available_park_ s) |]; split; reflexivity.
Qed.

(** C10: on a halted scheduler [schedule] changes nothing, whatever its
    arguments: the scheduler, and so its run-queue, its scheduled-count and
    its measurement, are what they were, and no argument is enqueued.
    ([schedule] has no path that throws: it is a function of the state.) *)
Theorem schedule_halted_discards (a : arg) (rest : list arg) (s : scheduler) :
  state_ s = halted ->
  schedule a rest s = s
  /\ task_queue_ (schedule a rest s) = task_queue_ s
  /\ scheduled_ (schedule a rest s) = scheduled_ s
  /\ measure (schedule a rest s) = measure s.
Proof.
  intros Hs. assert (H : schedule a rest s = s).
  { unfold schedule. rewrite Hs. reflexivity. }
  rewrite H. repeat split; reflexivity.
Qed.

End SizeT.

(** a scheduler with one coroutine made from callable 1, then halted by a
    thread *)
Definition halted_example : scheduler :=
  halt_impl from_thread (schedule 8 (arg_other 1) [] make).

Lemma schedule_halted_discards_witness :
  schedule 8 (arg_coroutine (Some (co_ptr 5))) [arg_other 3] halted_example
  = halted_example
  /\ task_queue_ halted_example = [co_make 1 []].
Proof.
  split; [| reflexivity].
  apply (schedule_halted_discards 8 (arg_coroutine (Some (co_ptr 5)))
           [arg_other 3] halted_example).
  reflexivity.
Defined.

(** a ready root scheduler with one coroutine, which yields in its first
    run while another thread calls [suspend()] *)
Definition suspend_example_env : list interval := [Interval [op_suspend] co_yield].
Definition suspend_example : scheduler := schedule 8 (arg_other 1) [] make.

Lemma run_return_value_witness :
  fst (run 8 None suspend_example_env suspend_example) = returned true
  /\ suspend_called suspend_example_env.
Proof.
  destruct (run_return_value 8 None suspend_example_env suspend_example)
    as (_ & H & Hp).
  split.
  - apply (Hp (Interval [op_suspend] co_yield) [] suspended);
      [reflexivity | discriminate | reflexivity | left; reflexivity].
  - apply (H true (snd (run 8 None suspend_example_env suspend_example)));
      reflexivity.
Defined.

Example run_halt_from_within :
  run 8 None
    [Interval [] co_yield; Interval [op_halt from_this_scheduler] co_yield;
     Interval [] co_complete]
    (schedule 8 (arg_other 1) [arg_other 2] (schedule 8 (arg_other 7) [] make))
  = (returned false,
     MkScheduler halted true 2 false false None [] []).
Proof. reflexivity. Qed.

(** tst/scheduler_ut.cpp, [run_suspend_resume]: a coroutine suspends its
    scheduler and yields, and [run()] returns [true]; the next [run()] waits
    for [resume()], goes on, and returns [false] after a [halt()] *)
Example run_suspend_then_resume :
  let '(r1, s1) :=
    run 8 None [Interval [op_suspend] co_yield] suspend_example in
  let '(r2, s2) :=
    run 8 None
      [Interval [op_resume] co_yield; Interval [op_halt from_thread] co_yield] s1 in
  (r1, state_ s1, r2, state_ s2, task_queue_ s2)
  = (returned true, suspended, returned false, halted, []).
Proof. reflexivity. Qed.

Example run_second_call :
  run 8 None [] (set_state_ running suspend_example)
  = (returned false, MkScheduler running true 1 false false None [] []).
Proof. reflexivity. Qed.

End Scheduler.

(** ** [threadpool] and [concurrent] (threadpool.hpp, threadpool.cpp) *)

Module Threadpool.
Import ThreadLocal.

#[global] Instance scheduler_inhabited : Inhabited Scheduler.scheduler :=
  populate Scheduler.make.

(** the vector of worker schedulers, by name, and the rotating index *)
Record threadpool : Type := MkThreadpool {
  workers_schedulers_ : list nat;
  current_scheduler_idx_val_ : nat
}.

(** the schedulers of the process, by name, and the default threadpool *)
Record world : Type := MkWorld {
  schedulers : gmap nat Scheduler.scheduler;
  default_threadpool : threadpool
}.

(** [size()] and [worker(idx)] *)
Definition size (tp : threadpool) : nat := length (workers_schedulers_ tp).
Definition worker_at (tp : threadpool) (idx : nat) : nat :=
  workers_schedulers_ tp !!! idx.

(** [current_scheduler_idx_()] *)
Definition current_scheduler_idx_ (tp : threadpool) : nat * threadpool :=
  (current_scheduler_idx_val_ tp,
   MkThreadpool (workers_schedulers_ tp)
     (if Nat.ltb (current_scheduler_idx_val_ tp + 1) (size tp)
      then current_scheduler_idx_val_ tp + 1 else 0)).

Section SizeT.
Variable size_bytes : Z.

(** [workers_schedulers_[i]->measure()] *)
Definition measure_of (w : world) (sch : nat) : Measurement.measurement :=
  Scheduler.measure size_bytes (schedulers w !!! sch).

(** the locals of [worker()] that the lambda [compare] updates *)
Record scan : Type := MkScan {
  least_weight : Measurement.measurement;
  ret : nat;
  found_empty : bool
}.

(** the lambda [compare] of [worker()], over the workers at the indices
    from [i] up to [end] *)
Fixpoint compare (w : world) (range : list nat) (st : scan) : scan :=
  match range with
  | [] => st
  | sch :: range' =>
      let cur_weight := measure_of w sch in
      if negb (Z.eqb (Measurement.to_size_t cur_weight) 0) then
        compare w range'
          (if Measurement.ltb cur_weight (least_weight st)
           then MkScan cur_weight sch (found_empty st)
           else st)
      else MkScan (least_weight st) sch true
  end.

(** [worker()]: the least busy worker at the time of the call *)
Definition worker (w : world) (tp : threadpool) : nat * threadpool :=
  let '(start_idx, tp') := current_scheduler_idx_ tp in
  let ws := workers_schedulers_ tp in
  let st0 := MkScan (measure_of w (ws !!! start_idx)) (ws !!! start_idx) false in
  let st1 := compare w (drop (S start_idx) ws) st0 in
  let st2 :=
    if negb (found_empty st1) && negb (Nat.eqb start_idx 0)
    then compare w (take start_idx ws) st1
    else st1 in
  (ret st2, tp').

(** [detail::default_threadpool_scheduler()]: [worker(0)] of the default
    threadpool, taken once; the vector never changes, so it is the same at
    every call *)
Definition default_threadpool_scheduler (w : world) : nat :=
  worker_at (default_threadpool w) 0.

(** [detail::concurrent_algorithm()]; [this_scheduler()] dereferences the
    redirected pointer, which is not null where it is called *)
Definition concurrent_algorithm (w : world) (tl : thread_locals) : nat :=
  if in_scheduler tl then default (default_threadpool_scheduler w) (this_scheduler tl)
  else default_threadpool_scheduler w.

(** [concurrent(args...)] *)
Definition concurrent (a : Scheduler.arg) (rest : list Scheduler.arg)
    (w : world) (tl : thread_locals) : world :=
  let target := concurrent_algorithm w tl in
  MkWorld
    (<[target := Scheduler.schedule size_bytes a rest (schedulers w !!! target)]>
       (schedulers w))
    (default_threadpool w).

(** C1, as the code has it: [concurrent] schedules on the scheduler the
    calling thread runs in (the redirected pointer) when there is one, and
    otherwise on worker 0 of the default threadpool, whatever the loads of
    the workers are; only that scheduler changes, by [schedule]. *)
Theorem concurrent_target (a : Scheduler.arg) (rest : list Scheduler.arg)
    (w : world) (tl : thread_locals) :
  let target := concurrent_algorithm w tl in
  (forall sch, tl_this_scheduler_redirect tl = Some sch -> target = sch)
  /\ (tl_this_scheduler_redirect tl = None ->
      target = worker_at (default_threadpool w) 0)
  /\ (forall w', default_threadpool w' = default_threadpool w ->
      concurrent_algorithm w' tl = target)
  /\ schedulers (concurrent a rest w tl) !! target
     = Some (Scheduler.schedule size_bytes a rest (schedulers w !!! target))
  /\ (forall sch, sch <> target ->
      schedulers (concurrent a rest w tl) !! sch = schedulers w !! sch).
Proof.
  intros target. split; [| split; [| split; [| split]]].
  - intros sch Hsch. unfold target, concurrent_algorithm, in_scheduler, this_scheduler.
    rewrite Hsch, bool_decide_eq_true_2 by eauto. reflexivity.
  - intros Hnone. unfold target, concurrent_algorithm, in_scheduler, this_scheduler.
    rewrite Hnone, bool_decide_eq_false_2 by (intros [? ?]; discriminate).
    reflexivity.
  - intros w' Hw. unfold target, concurrent_algorithm, default_threadpool_scheduler.
    rewrite Hw. reflexivity.
  - unfold concurrent. cbn [schedulers]. fold target. apply lookup_insert_eq.
  - intros sch Hne. unfold concurrent. cbn [schedulers]. fold target.
    apply lookup_insert_ne. intros Heq. apply Hne. symmetry. exact Heq.
Qed.

End SizeT.

(** a default threadpool of two workers, 10 and 11: worker 10 has one
    coroutine enqueued, worker 11 has none *)
Definition two_workers : world :=
  MkWorld
    (<[10%nat := Scheduler.schedule 8 (Scheduler.arg_other 1) [] Scheduler.make]>
       (<[11%nat := Scheduler.make]> ∅))
    (MkThreadpool [10%nat; 11%nat] 0).

(** a thread that runs no scheduler *)
Definition raw_thread : thread_locals := ThreadLocals 1 None None None None false.

(** C1 with the least-loaded worker fails: outside a scheduler
    [concurrent] takes worker 0 (named 10), while [worker()] selects the
    empty worker (named 11). *)
Lemma concurrent_not_least_loaded :
  in_scheduler raw_thread = false
  /\ concurrent_algorithm two_workers raw_thread = 10%nat
  /\ fst (worker 8 two_workers (default_threadpool two_workers)) = 11%nat
  /\ concurrent_algorithm two_workers raw_thread
     <> fst (worker 8 two_workers (default_threadpool two_workers)).
Proof.
  assert (H10 : concurrent_algorithm two_workers raw_thread = 10%nat)
    by reflexivity.
  assert (H11 : fst (worker 8 two_workers (default_threadpool two_workers)) = 11%nat)
    by (vm_compute; reflexivity).
  split; [reflexivity |]. split; [exact H10 |]. split; [exact H11 |].
  rewrite H10, H11. discriminate.
Qed.

(** where [concurrent] goes on the same input: worker 0 *)
Lemma concurrent_target_witness :
  concurrent_algorithm two_workers raw_thread
  = worker_at (default_threadpool two_workers) 0.
Proof.
  apply (concurrent_target 8 (Scheduler.arg_other 1) [] two_workers raw_thread).
  reflexivity.
Defined.

End Threadpool.

(** ** What the two channels share (base_channel.hpp, and the frames of
       the blocking calls)

    A blocking [send_] or [recv] that has to wait keeps, in its own frame,
    the flag [failed], the parkable [p] and the value it sends or the
    variable it receives into; the queue entry it pushes is a closure over
    that frame.  The frames of the calls that wait are kept in a store, by
    the name of the call; a queue entry is the name.  Copy and move give
    the receiver the same value; what a move leaves in its source is not
    modelled. *)

Module Channel.
Import ThreadLocal Parkable.

(** [enum result]: [closed] is 0, so it converts to [false] *)
Inductive result : Type := closed | success | failure.

Definition result_eqb (a b : result) : bool :=
  match a, b with
  | closed, closed | success, success | failure, failure => true
  | _, _ => false
  end.

(** what a call does besides changing the channel: [ev_yield co] is the
    call [mce::yield()], made where [tl_this_coroutine] is [co]: coroutine
    [co] is suspended, and nothing happens on a raw thread ([None]) *)
Inductive event : Type :=
| ev_lock
| ev_unlock
| ev_park
| ev_yield (co : option nat).

Definition is_yield (e : event) : bool :=
  match e with ev_yield _ => true | _ => false end.

(** the number of calls of [mce::yield()] in a trace *)
Definition yields (tr : list event) : nat := length (filter is_yield tr).

Section Frames.
Variable T : Type.

Record frame : Type := MkFrame {
  failed : bool;
  p : parkable;
  val : T
}.

(** how a call comes back: it returns [res] with [out] in the caller's
    variable, or it waits in [park] *)
Inductive outcome : Type :=
| ret (res : result) (out : T) (tr : list event)
| parked (tr : list event).

(** the frame of a blocking call at the moment it parks *)
Definition park_frame (tl : thread_locals) (v : T) : frame :=
  MkFrame false (park tl new) v.

(** a queue entry called with a null pointer: [failed = true; p.unpark(lk)];
    [None] when [unpark] throws, or when the frame is not there *)
Definition call_null (id : nat) (fr : gmap nat frame) : option (gmap nat frame) :=
  f ← fr !! id;
  p' ← unpark (p f);
  Some (<[id := MkFrame true p' (val f)]> fr).

(** a queue entry called with a pointer that leaves [v] in the frame:
    [p.unpark(lk)] after the assignment *)
Definition call_value (id : nat) (v : T) (fr : gmap nat frame)
  : option (gmap nat frame) :=
  f ← fr !! id;
  p' ← unpark (p f);
  Some (<[id := MkFrame (failed f) p' v]> fr).

(** the lambda [unpark_queue] of [close()]: every entry, front first, is
    called with [NULL] and popped *)
Fixpoint unpark_queue (lst : list nat) (fr : gmap nat frame)
  : option (gmap nat frame) :=
  match lst with
  | [] => Some fr
  | id :: lst' => fr' ← call_null id fr; unpark_queue lst' fr'
  end.

(** a frame whose call waits: the parkable has its waiting context *)
Definition waits (fr : gmap nat frame) (id : nat) : Prop :=
  exists f, fr !! id = Some f /\ is_Some (wc (p f)) /\ notified (p f) = false.

(** a frame whose call was unparked *)
Definition woken (fr : gmap nat frame) (id : nat) : Prop :=
  exists f, fr !! id = Some f /\ notified (p f) = true.

(** what [notify] leaves of a parkable that waits *)
Definition notify_done (q : parkable) : parkable := MkParkable (wc q) true.

Lemma unpark_waits (q : parkable) :
  is_Some (wc q) -> unpark q = Some (notify_done q).
Proof. intros [c Hc]. unfold unpark, notify_done. rewrite Hc. reflexivity. Qed.

Lemma call_null_waits id fr :
  waits fr id ->
  exists f, fr !! id = Some f
    /\ call_null id fr = Some (<[id := MkFrame true (notify_done (p f)) (val f)]> fr).
Proof.
  intros (f & Hf & Hwc & _). exists f. split; [exact Hf |].
  unfold call_null. rewrite Hf. simpl. rewrite (unpark_waits _ Hwc). reflexivity.
Qed.

Lemma call_value_waits id v fr :
  waits fr id ->
  exists f, fr !! id = Some f
    /\ call_value id v fr = Some (<[id := MkFrame (failed f) (notify_done (p f)) v]> fr).
Proof.
  intros (f & Hf & Hwc & _). exists f. split; [exact Hf |].
  unfold call_value. rewrite Hf. simpl. rewrite (unpark_waits _ Hwc). reflexivity.
Qed.

Lemma waits_insert_ne id id' f fr :
  id <> id' -> waits fr id' -> waits (<[id := f]> fr) id'.
Proof.
  intros Hne (f' & Hf' & H). exists f'. split; [| exact H].
  rewrite lookup_insert_ne by exact Hne. exact Hf'.
Qed.

Lemma waits_delete_ne id id' fr :
  id <> id' -> waits fr id' -> waits (delete id fr) id'.
Proof.
  intros Hne (f' & Hf' & H). exists f'. split; [| exact H].
  rewrite lookup_delete_ne by exact Hne. exact Hf'.
Qed.

Lemma waits_not_woken fr id : waits fr id -> woken fr id -> False.
Proof.
  intros (f & Hf & _ & Hn) (f' & Hf' & Hn'). rewrite Hf in Hf'.
  injection Hf' as <-. rewrite Hn in Hn'. discriminate.
Qed.

Lemma waits_park_frame tl v id fr : waits (<[id := park_frame tl v]> fr) id.
Proof.
  exists (park_frame tl v). split; [apply lookup_insert_eq |].
  split; [eexists; reflexivity | reflexivity].
Qed.

Lemma fresh_not_waiting (fr : gmap nat frame) (lst : list nat) id :
  (forall id', id' ∈ lst -> waits fr id') -> fr !! id = None -> id ∉ lst.
Proof.
  intros Hw Hnone Hin. destruct (Hw _ Hin) as (f & Hf & _). congruence.
Qed.

(** the frames after [unpark_queue lst]: the calls of [lst] have failed and
    are unparked, with the value they had; the other frames are as before *)
Definition all_failed (lst : list nat) (fr fr' : gmap nat frame) : Prop :=
  (forall id, id ∈ lst ->
     exists f, fr !! id = Some f
       /\ fr' !! id = Some (MkFrame true (notify_done (p f)) (val f)))
  /\ (forall id, id ∉ lst -> fr' !! id = fr !! id).

Lemma unpark_queue_waits lst : forall fr,
  NoDup lst -> (forall id, id ∈ lst -> waits fr id) ->
  exists fr', unpark_queue lst fr = Some fr' /\ all_failed lst fr fr'.
Proof.
  induction lst as [| id lst IH]; intros fr Hnd Hw; simpl.
  - exists fr. split; [reflexivity |]. split; [| reflexivity].
    intros id Hin. inversion Hin.
  - apply NoDup_cons in Hnd as [Hnin Hnd].
    destruct (call_null_waits id fr) as (f & Hf & Hcall);
      [apply Hw; left |].
    rewrite Hcall. simpl.
    destruct (IH (<[id := MkFrame true (notify_done (p f)) (val f)]> fr) Hnd)
      as (fr' & Hq & Hin' & Hout').
    { intros id' Hin'. apply waits_insert_ne; [| apply Hw; right; exact Hin'].
      intros ->. contradiction. }
    exists fr'. split; [exact Hq |]. split.
    + intros id' Hin. apply elem_of_cons in Hin as [-> | Hin].
      * exists f. split; [exact Hf |].
        rewrite (Hout' _ Hnin). apply lookup_insert_eq.
      * destruct (Hin' _ Hin) as (f' & Hf' & Hfr').
        exists f'. split; [| exact Hfr'].
        rewrite lookup_insert_ne in Hf'; [exact Hf' |].
        intros ->. contradiction.
    + intros id' Hnin'. apply not_elem_of_cons in Hnin' as [Hne Hnin'].
      rewrite (Hout' _ Hnin'). apply lookup_insert_ne. congruence.
Qed.

(** a trace that ends with the release of the lock and then the one call
    of [mce::yield()] *)
Definition one_yield_after_unlock (tl : thread_locals) (tr : list event) : Prop :=
  exists pre, tr = pre ++ [ev_unlock; ev_yield (yield tl)]
    /\ yields pre = 0%nat /\ yields tr = 1%nat.

(** what a [try_send] or [try_recv] gives on a channel whose closed flag
    is [closed_flag] and on which the operation would have to wait exactly
    when [would_block] *)
Definition try_result (tl : thread_locals) (would_block : Prop)
    (closed_flag : bool) (o : outcome) : Prop :=
  exists res out tr, o = ret res out tr
    /\ (res = closed <-> closed_flag = true)
    /\ (res = closed -> yields tr = 0%nat)
    /\ (res <> closed -> one_yield_after_unlock tl tr)
    /\ (res = failure <-> closed_flag = false /\ would_block).

Lemma one_yield_try tl :
  one_yield_after_unlock tl [ev_lock; ev_unlock; ev_yield (yield tl)].
Proof. exists [ev_lock]. repeat split. Qed.

Lemma try_result_closed tl (wb : Prop) out :
  try_result tl wb true (ret closed out [ev_lock; ev_unlock]).
Proof.
  exists closed, out, [ev_lock; ev_unlock].
  split; [reflexivity |]. split; [split; trivial |].
  split; [reflexivity |]. split; [intros H; contradiction H; reflexivity |].
  split; [discriminate | intros [H _]; discriminate].
Qed.

Lemma try_result_failure tl (wb : Prop) out :
  wb ->
  try_result tl wb false (ret failure out [ev_lock; ev_unlock; ev_yield (yield tl)]).
Proof.
  intros Hwb. eexists failure, out, _.
  split; [reflexivity |]. split; [split; discriminate |].
  split; [discriminate |]. split; [intros _; apply one_yield_try |].
  split; auto.
Qed.

Lemma try_result_success tl (wb : Prop) out :
  ~ wb ->
  try_result tl wb false (ret success out [ev_lock; ev_unlock; ev_yield (yield tl)]).
Proof.
  intros Hwb. eexists success, out, _.
  split; [reflexivity |]. split; [split; discriminate |].
  split; [discriminate |]. split; [intros _; apply one_yield_try |].
  split; [discriminate | intros [_ H]; contradiction].
Qed.

End Frames.

Arguments failed {T} _.
Arguments p {T} _.
Arguments val {T} _.
Arguments MkFrame {T} _ _ _.
Arguments ret {T} _ _ _.
Arguments parked {T} _.
Arguments park_frame {T} _ _.
Arguments call_null {T} _ _.
Arguments call_value {T} _ _ _.
Arguments unpark_queue {T} _ _.
Arguments waits {T} _ _.
Arguments woken {T} _ _.
Arguments all_failed {T} _ _ _.
Arguments try_result {T} _ _ _ _.

End Channel.

(** ** [unbuffered_channel] (unbuffered_channel.hpp) *)

Module Unbuffered.
Import ThreadLocal Parkable Channel.

Section Chan.
Variable T : Type.

(** the context, with the frames of the [send_] calls and of the [recv]
    calls that wait on it *)
Record unbuffered_channel_context : Type := MkContext {
  closed_flag : bool;
  parked_send : list nat;
  parked_recv : list nat;
  send_frames : gmap nat (frame T);
  recv_frames : gmap nat (frame T)
}.

(** [construct()] *)
Definition construct : unbuffered_channel_context := MkContext false [] [] ∅ ∅.

(** [close()]; [None] when an [unpark] throws *)
Definition close (c : unbuffered_channel_context)
  : option unbuffered_channel_context :=
  sf ← unpark_queue (parked_send c) (send_frames c);
  rf ← unpark_queue (parked_recv c) (recv_frames c);
  Some (MkContext true [] [] sf rf).

(** [closed()] *)
Definition closed (c : unbuffered_channel_context) : bool := closed_flag c.

(** the closure a parked [recv] pushes, called with a [send_pair]: the
    value goes into its [r], then [p.unpark(lk)] *)
Definition call_recv_entry (id : nat) (s : T) (fr : gmap nat (frame T))
  : option (gmap nat (frame T)) :=
  call_value id s fr.

(** the closure a parked [send_] pushes, called with the address of the
    receiver's [r]: its value goes there, then [p.unpark(lk)] *)
Definition call_send_entry (id : nat) (fr : gmap nat (frame T))
  : option (T * gmap nat (frame T)) :=
  f ← fr !! id;
  p' ← unpark (p f);
  Some (val f, <[id := MkFrame (failed f) p' (val f)]> fr).

(** [send_(s, block, is_rvalue)] up to its return or to [p.park(lk)];
    [id] names the call *)
Definition send_ (tl : thread_locals) (id : nat) (s : T) (block : bool)
    (c : unbuffered_channel_context)
  : option (outcome T * unbuffered_channel_context) :=
  if closed_flag c then Some (ret Channel.closed s [ev_lock; ev_unlock], c)
  else
    match parked_recv c with
    | [] =>
        if block then
          Some (parked [ev_lock; ev_park],
                MkContext (closed_flag c) (parked_send c ++ [id]) (parked_recv c)
                  (<[id := park_frame tl s]> (send_frames c)) (recv_frames c))
        else Some (ret failure s [ev_lock; ev_unlock; ev_yield (yield tl)], c)
    | front :: rest =>
        rf ← call_recv_entry front s (recv_frames c);
        Some (ret success s [ev_lock; ev_unlock; ev_yield (yield tl)],
              MkContext (closed_flag c) (parked_send c) rest (send_frames c) rf)
    end.

(** [send_] from the return of [p.park(lk)] on; the frame goes with the
    return *)
Definition send_after_park (tl : thread_locals) (id : nat)
    (c : unbuffered_channel_context)
  : option (outcome T * unbuffered_channel_context) :=
  f ← send_frames c !! id;
  let c' := MkContext (closed_flag c) (parked_send c) (parked_recv c)
              (delete id (send_frames c)) (recv_frames c) in
  if failed f then Some (ret Channel.closed (val f) [ev_lock; ev_unlock], c')
  else Some (ret success (val f) [ev_lock; ev_unlock; ev_yield (yield tl)], c').

(** [recv(r, block)] up to its return or to [p.park(lk)] *)
Definition recv (tl : thread_locals) (id : nat) (r : T) (block : bool)
    (c : unbuffered_channel_context)
  : option (outcome T * unbuffered_channel_context) :=
  if closed_flag c then Some (ret Channel.closed r [ev_lock; ev_unlock], c)
  else
    match parked_send c with
    | [] =>
        if block then
          Some (parked [ev_lock; ev_park],
                MkContext (closed_flag c) (parked_send c) (parked_recv c ++ [id])
                  (send_frames c) (<[id := park_frame tl r]> (recv_frames c)))
        else Some (ret failure r [ev_lock; ev_unlock; ev_yield (yield tl)], c)
    | front :: rest =>
        '(r', sf) ← call_send_entry front (send_frames c);
        Some (ret success r' [ev_lock; ev_unlock; ev_yield (yield tl)],
              MkContext (closed_flag c) rest (parked_recv c) sf (recv_frames c))
    end.

(** [recv] from the return of [p.park(lk)] on *)
Definition recv_after_park (tl : thread_locals) (id : nat)
    (c : unbuffered_channel_context)
  : option (outcome T * unbuffered_channel_context) :=
  f ← recv_frames c !! id;
  let c' := MkContext (closed_flag c) (parked_send c) (parked_recv c)
              (send_frames c) (delete id (recv_frames c)) in
  if failed f then Some (ret Channel.closed (val f) [ev_lock; ev_unlock], c')
  else Some (ret success (val f) [ev_lock; ev_unlock; ev_yield (yield tl)], c').

(** the public [send] and [recv] return [ctx->send(s,true) == success];
    [try_send] and [try_recv] return the result of the call with
    [block = false] *)
Definition returns_bool (o : outcome T) : option bool :=
  match o with
  | ret res _ _ => Some (result_eqb res success)
  | parked _ => None
  end.

Definition try_send (tl : thread_locals) (s : T) (c : unbuffered_channel_context) :=
  send_ tl 0 s false c.

Definition try_recv (tl : thread_locals) (r : T) (c : unbuffered_channel_context) :=
  recv tl 0 r false c.

(** the steps of a channel: the public operations, with the blocking ones
    in their two parts *)
Inductive call : Type :=
| c_send (tl : thread_locals) (id : nat) (s : T) (block : bool)
| c_send_after_park (tl : thread_locals) (id : nat)
| c_recv (tl : thread_locals) (id : nat) (r : T) (block : bool)
| c_recv_after_park (tl : thread_locals) (id : nat)
| c_close
| c_closed.

(** the result of a step that returns no channel result is [None] *)
Definition exec (k : call) (c : unbuffered_channel_context)
  : option (option (outcome T) * unbuffered_channel_context) :=
  match k with
  | c_send tl id s block => '(o, c') ← send_ tl id s block c; Some (Some o, c')
  | c_send_after_park tl id => '(o, c') ← send_after_park tl id c; Some (Some o, c')
  | c_recv tl id r block => '(o, c') ← recv tl id r block c; Some (Some o, c')
  | c_recv_after_park tl id => '(o, c') ← recv_after_park tl id c; Some (Some o, c')
  | c_close => c' ← close c; Some (None, c')
  | c_closed => Some (None, c)
  end.

(** when a step can happen: a call that may park has a name no waiting
    call has, and a parked call goes on once it was unparked *)
Definition enabled (k : call) (c : unbuffered_channel_context) : Prop :=
  match k with
  | c_send _ id _ block => block = true -> send_frames c !! id = None
  | c_send_after_park _ id => woken (send_frames c) id
  | c_recv _ id _ block => block = true -> recv_frames c !! id = None
  | c_recv_after_park _ id => woken (recv_frames c) id
  | c_close | c_closed => True
  end.

Definition step (k : call) (c c' : unbuffered_channel_context) : Prop :=
  enabled k c /\ exists o, exec k c = Some (o, c').

(** the states of a channel at the boundaries of its operations *)
Inductive reachable : unbuffered_channel_context -> Prop :=
| reach_construct : reachable construct
| reach_step k c c' : reachable c -> step k c c' -> reachable c'.

(** every queue entry is the closure of a call that waits, once *)
Definition wf (c : unbuffered_channel_context) : Prop :=
  NoDup (parked_send c) /\ NoDup (parked_recv c)
  /\ (forall id, id ∈ parked_send c -> waits (send_frames c) id)
  /\ (forall id, id ∈ parked_recv c -> waits (recv_frames c) id).

(** the invariant of the specification *)
Definition not_both (c : unbuffered_channel_context) : Prop :=
  parked_send c = [] \/ parked_recv c = [].

Definition inv (c : unbuffered_channel_context) : Prop := wf c /\ not_both c.

Lemma unbuffered_inv_construct : inv construct.
Proof.
  split; [| left; reflexivity].
  split; [apply NoDup_nil_2 |]. split; [apply NoDup_nil_2 |].
  split; intros id Hin; inversion Hin.
Qed.

(** [close()] on a well-formed channel does not throw, and leaves every
    call that waited failed and unparked *)
Lemma unbuffered_close_wf c :
  wf c ->
  exists c', close c = Some c'
    /\ closed_flag c' = true /\ parked_send c' = [] /\ parked_recv c' = []
    /\ all_failed (parked_send c) (send_frames c) (send_frames c')
    /\ all_failed (parked_recv c) (recv_frames c) (recv_frames c').
Proof.
  intros (Hns & Hnr & Hws & Hwr).
  destruct (unpark_queue_waits T _ _ Hns Hws) as (sf & Hsf & Hs).
  destruct (unpark_queue_waits T _ _ Hnr Hwr) as (rf & Hrf & Hr).
  exists (MkContext true [] [] sf rf). unfold close. rewrite Hsf, Hrf.
  repeat split; try reflexivity; try apply Hs; try apply Hr.
Qed.

Lemma close_inv c c' : inv c -> close c = Some c' -> inv c'.
Proof.
  intros [Hwf _] Hc. destruct (unbuffered_close_wf c Hwf) as (c0 & Hc0 & _ & Hs & Hr & _).
  rewrite Hc in Hc0. injection Hc0 as <-.
  split; [| left; exact Hs].
  unfold wf. rewrite Hs, Hr.
  split; [apply NoDup_nil_2 |]. split; [apply NoDup_nil_2 |].
  split; intros id Hin; inversion Hin.
Qed.

Lemma send__inv tl id s block c o c' :
  inv c -> (block = true -> send_frames c !! id = None) ->
  send_ tl id s block c = Some (o, c') -> inv c'.
Proof.
  intros [(Hns & Hnr & Hws & Hwr) Hnb] Hfresh. unfold send_.
  destruct (closed_flag c); [intros [= <- <-]; repeat split; assumption |].
  destruct (parked_recv c) as [| front rest] eqn:Hpr.
  - destruct block; [| intros [= <- <-]; repeat split; try assumption;
                        rewrite ?Hpr; assumption].
    intros [= <- <-]. specialize (Hfresh eq_refl).
    pose proof (fresh_not_waiting T _ _ _ Hws Hfresh) as Hnin.
    split; [| right; reflexivity]. unfold wf; simpl.
    split; [apply NoDup_app; repeat split; trivial;
            [intros x Hx Hx'; apply list_elem_of_singleton in Hx' as ->; contradiction
            | apply NoDup_singleton] |].
    split; [apply NoDup_nil_2 |]. split; [| intros x Hx; inversion Hx].
    intros x Hx. apply elem_of_app in Hx as [Hx | Hx].
    + apply waits_insert_ne; [intros ->; contradiction | apply Hws; exact Hx].
    + apply list_elem_of_singleton in Hx as ->. apply waits_park_frame.
  - destruct (call_value_waits T front s (recv_frames c)) as (f & Hf & Hcall);
      [apply Hwr; left |].
    unfold call_recv_entry. rewrite Hcall. simpl. intros [= <- <-].
    apply NoDup_cons in Hnr as [Hnin Hnr].
    destruct Hnb as [Hnb | Hnb]; [| congruence].
    split; [| left; exact Hnb]. unfold wf; simpl.
    split; [exact Hns |]. split; [exact Hnr |]. split; [exact Hws |].
    intros x Hx. apply waits_insert_ne; [intros ->; contradiction |].
    apply Hwr. right. exact Hx.
Qed.

Lemma recv_inv tl id r block c o c' :
  inv c -> (block = true -> recv_frames c !! id = None) ->
  recv tl id r block c = Some (o, c') -> inv c'.
Proof.
  intros [(Hns & Hnr & Hws & Hwr) Hnb] Hfresh. unfold recv.
  destruct (closed_flag c); [intros [= <- <-]; repeat split; assumption |].
  destruct (parked_send c) as [| front rest] eqn:Hps.
  - destruct block; [| intros [= <- <-]; repeat split; try assumption;
                        rewrite ?Hps; assumption].
    intros [= <- <-]. specialize (Hfresh eq_refl).
    pose proof (fresh_not_waiting T _ _ _ Hwr Hfresh) as Hnin.
    split; [| left; reflexivity]. unfold wf; simpl.
    split; [apply NoDup_nil_2 |].
    split; [apply NoDup_app; repeat split; trivial;
            [intros x Hx Hx'; apply list_elem_of_singleton in Hx' as ->; contradiction
            | apply NoDup_singleton] |].
    split; [intros x Hx; inversion Hx |].
    intros x Hx. apply elem_of_app in Hx as [Hx | Hx].
    + apply waits_insert_ne; [intros ->; contradiction | apply Hwr; exact Hx].
    + apply list_elem_of_singleton in Hx as ->. apply waits_park_frame.
  - destruct (Hws front) as (f & Hf & Hwc & Hn); [left |].
    unfold call_send_entry. rewrite Hf. simpl.
    rewrite (unpark_waits _ Hwc). simpl. intros [= <- <-].
    apply NoDup_cons in Hns as [Hnin Hns].
    destruct Hnb as [Hnb | Hnb]; [congruence |].
    split; [| right; exact Hnb]. unfold wf; simpl.
    split; [exact Hns |]. split; [exact Hnr |]. split; [| exact Hwr].
    intros x Hx. apply waits_insert_ne; [intros ->; contradiction |].
    apply Hws. right. exact Hx.
Qed.

Lemma send_after_park_inv tl id c o c' :
  inv c -> woken (send_frames c) id ->
  send_after_park tl id c = Some (o, c') -> inv c'.
Proof.
  intros [(Hns & Hnr & Hws & Hwr) Hnb] Hwoken. unfold send_after_park.
  destruct (send_frames c !! id) as [f |]; [simpl | discriminate].
  assert (Hinv : inv (MkContext (closed_flag c) (parked_send c) (parked_recv c)
                        (delete id (send_frames c)) (recv_frames c))).
  { split; [| exact Hnb]. unfold wf; simpl.
    split; [exact Hns |]. split; [exact Hnr |]. split; [| exact Hwr].
    intros x Hx. apply waits_delete_ne; [| apply Hws; exact Hx].
    intros ->. eapply waits_not_woken; [apply Hws |]; eassumption. }
  destruct (failed f); intros [= <- <-]; exact Hinv.
Qed.

Lemma recv_after_park_inv tl id c o c' :
  inv c -> woken (recv_frames c) id ->
  recv_after_park tl id c = Some (o, c') -> inv c'.
Proof.
  intros [(Hns & Hnr & Hws & Hwr) Hnb] Hwoken. unfold recv_after_park.
  destruct (recv_frames c !! id) as [f |]; [simpl | discriminate].
  assert (Hinv : inv (MkContext (closed_flag c) (parked_send c) (parked_recv c)
                        (send_frames c) (delete id (recv_frames c)))).
  { split; [| exact Hnb]. unfold wf; simpl.
    split; [exact Hns |]. split; [exact Hnr |]. split; [exact Hws |].
    intros x Hx. apply waits_delete_ne; [| apply Hwr; exact Hx].
    intros ->. eapply waits_not_woken; [apply Hwr |]; eassumption. }
  destruct (failed f); intros [= <- <-]; exact Hinv.
Qed.

Lemma unbuffered_step_inv k c c' : inv c -> step k c c' -> inv c'.
Proof.
  intros Hinv [Hen [o Hex]]. destruct k; simpl in Hen, Hex.
  - destruct (send_ tl id s block c) as [[o' c0] |] eqn:E; [| discriminate].
    injection Hex as <- <-. eapply send__inv; eassumption.
  - destruct (send_after_park tl id c) as [[o' c0] |] eqn:E; [| discriminate].
    injection Hex as <- <-. eapply send_after_park_inv; eassumption.
  - destruct (recv tl id r block c) as [[o' c0] |] eqn:E; [| discriminate].
    injection Hex as <- <-. eapply recv_inv; eassumption.
  - destruct (recv_after_park tl id c) as [[o' c0] |] eqn:E; [| discriminate].
    injection Hex as <- <-. eapply recv_after_park_inv; eassumption.
  - destruct (close c) as [c0 |] eqn:E; [| discriminate].
    injection Hex as <- <-. eapply close_inv; eassumption.
  - injection Hex as <- <-. exact Hinv.
Qed.

Lemma unbuffered_reachable_inv c : reachable c -> inv c.
Proof.
  induction 1 as [| k c c' _ IH Hstep]; [apply unbuffered_inv_construct |].
  eapply unbuffered_step_inv; eassumption.
Qed.

(** no step of a channel the operations made throws: every enabled call
    has its result *)
Lemma unbuffered_exec_total k c :
  reachable c -> enabled k c -> exists o c', exec k c = Some (o, c').
Proof.
  intros Hr Hen. destruct (unbuffered_reachable_inv c Hr) as [Hwf Hnb].
  pose proof Hwf as (Hns & Hnr & Hws & Hwr).
  destruct k; simpl in *.
  - unfold send_. destruct (closed_flag c); [eauto |].
    destruct (parked_recv c) as [| front rest] eqn:Hpr.
    + destruct block; eauto.
    + destruct (call_value_waits T front s (recv_frames c)) as (f & Hf & Hcall);
        [apply Hwr; rewrite ?Hpr; left |].
      unfold call_recv_entry. rewrite Hcall. simpl. eauto.
  - destruct Hen as (f & Hf & _). unfold send_after_park. rewrite Hf. simpl.
    destruct (failed f); eauto.
  - unfold recv. destruct (closed_flag c); [eauto |].
    destruct (parked_send c) as [| front rest] eqn:Hps.
    + destruct block; eauto.
    + destruct (Hws front) as (f & Hf & Hwc & Hn); [rewrite ?Hps; left |].
      unfold call_send_entry. rewrite Hf. simpl.
      rewrite (unpark_waits _ Hwc). simpl. eauto.
  - destruct Hen as (f & Hf & _). unfold recv_after_park. rewrite Hf. simpl.
    destruct (failed f); eauto.
  - destruct (unbuffered_close_wf c Hwf) as (c' & Hc & _). rewrite Hc. simpl. eauto.
  - eauto.
Qed.

(** C6: at the boundary of every operation of an unbuffered channel the
    queue of parked senders and the queue of parked receivers are not both
    non-empty. *)
Theorem unbuffered_queues_not_both (c : unbuffered_channel_context) :
  reachable c -> parked_send c = [] \/ parked_recv c = [].
Proof. intros Hr. apply (unbuffered_reachable_inv c Hr). Qed.

(** *** What [close()] does to the calls that wait *)

Ltac proj_ctx :=
  cbn [closed_flag parked_send parked_recv send_frames recv_frames].

(** from the result of [exec] to the result of the operation *)
Ltac exec_inv H :=
  match type of H with
  | (?m ≫= _) = Some _ =>
      let E := fresh "E" in
      destruct m as [[? ?] |] eqn:E; [| discriminate];
      simpl in H; injection H as <- <-; rename E into H
  end.

(** the steps other than the going on of the parked [send_] named [id];
    of the parked [recv] named [id] *)
Definition not_send_after_park (id : nat) (k : call) : Prop :=
  match k with c_send_after_park _ id' => id' <> id | _ => True end.

Definition not_recv_after_park (id : nat) (k : call) : Prop :=
  match k with c_recv_after_park _ id' => id' <> id | _ => True end.

Inductive steps (ok : call -> Prop) (c : unbuffered_channel_context)
  : unbuffered_channel_context -> Prop :=
| steps_refl : steps ok c c
| steps_step k c' c'' : steps ok c c' -> ok k -> step k c' c'' -> steps ok c c''.






(** [close()] with K parked senders and L parked receivers: it returns,
    both queues are empty after it, and each of the K+L calls is unparked
    and, whenever it goes on, returns [closed] without a yield, that is
    [false] from [send] and [recv]; a receiver has in its variable what it
    had when it parked *)
Definition close_unblocks (c : unbuffered_channel_context) : Prop :=
  exists c', close c = Some c'
    /\ closed_flag c' = true /\ parked_send c' = [] /\ parked_recv c' = []
    /\ (forall id, id ∈ parked_send c ->
          forall c'' tl, steps (not_send_after_park id) c' c'' ->
          woken (send_frames c'') id /\
          exists out tr c3,
            send_after_park tl id c'' = Some (ret Channel.closed out tr, c3)
            /\ returns_bool (ret Channel.closed out tr) = Some false
            /\ yields tr = 0%nat)
    /\ (forall id, id ∈ parked_recv c ->
          forall c'' tl, steps (not_recv_after_park id) c' c'' ->
          woken (recv_frames c'') id /\
          exists f tr c3,
            recv_frames c !! id = Some f
            /\ recv_after_park tl id c'' = Some (ret Channel.closed (val f) tr, c3)
            /\ returns_bool (ret Channel.closed (val f) tr) = Some false
            /\ yields tr = 0%nat).


(** *** [try_send] and [try_recv] *)

Lemma unbuffered_try_send_result tl s c o c' :
  try_send tl s c = Some (o, c') -> try_result tl (parked_recv c = []) (closed_flag c) o.
Proof.
  unfold try_send, send_. destruct (closed_flag c) eqn:Hcl.
  - intros [= <- <-]. apply try_result_closed.
  - destruct (parked_recv c) as [| front rest] eqn:Hpr.
    + intros [= <- <-]. apply try_result_failure; trivial.
    + destruct (call_recv_entry front s (recv_frames c)); [simpl | discriminate].
      intros [= <- <-]. apply try_result_success. discriminate.
Qed.

Lemma unbuffered_try_recv_result tl r c o c' :
  try_recv tl r c = Some (o, c') -> try_result tl (parked_send c = []) (closed_flag c) o.
Proof.
  unfold try_recv, recv. destruct (closed_flag c) eqn:Hcl.
  - intros [= <- <-]. apply try_result_closed.
  - destruct (parked_send c) as [| front rest] eqn:Hps.
    + intros [= <- <-]. apply try_result_failure; trivial.
    + destruct (call_send_entry front (send_frames c)) as [[r' sf] |];
        [simpl | discriminate].
      intros [= <- <-]. apply try_result_success. discriminate.
Qed.

Lemma unbuffered_try_total tl v c :
  reachable c ->
  (exists o c', try_send tl v c = Some (o, c'))
  /\ (exists o c', try_recv tl v c = Some (o, c')).
Proof.
  intros Hr. split.
  - destruct (unbuffered_exec_total (c_send tl 0 v false) c Hr) as (o & c' & H);
      [simpl; discriminate |].
    simpl in H. unfold try_send.
    destruct (send_ tl 0 v false c) as [[o' c0] |]; [eauto | discriminate].
  - destruct (unbuffered_exec_total (c_recv tl 0 v false) c Hr) as (o & c' & H);
      [simpl; discriminate |].
    simpl in H. unfold try_recv.
    destruct (recv tl 0 v false c) as [[o' c0] |]; [eauto | discriminate].
Qed.

End Chan.
End Unbuffered.

(** ** [buffered_channel] (buffered_channel.hpp) *)

Module Buffered.
Import ThreadLocal Parkable Channel.

Section Chan.
Variable T : Type.

(** the context: [buf] holds the values of the [boost::circular_buffer],
    oldest first, and [cap] is its capacity *)
Record buffered_channel_context : Type := MkContext {
  closed_flag : bool;
  buf : list T;
  cap : nat;
  parked_send : list nat;
  parked_recv : list nat;
  send_frames : gmap nat (frame T);
  recv_frames : gmap nat (frame T)
}.

Definition set_buf (b : list T) (c : buffered_channel_context) :=
  MkContext (closed_flag c) b (cap c) (parked_send c) (parked_recv c)
    (send_frames c) (recv_frames c).

Definition set_parked_send (q : list nat) (c : buffered_channel_context) :=
  MkContext (closed_flag c) (buf c) (cap c) q (parked_recv c)
    (send_frames c) (recv_frames c).

Definition set_parked_recv (q : list nat) (c : buffered_channel_context) :=
  MkContext (closed_flag c) (buf c) (cap c) (parked_send c) q
    (send_frames c) (recv_frames c).

Definition set_send_frames (fr : gmap nat (frame T)) (c : buffered_channel_context) :=
  MkContext (closed_flag c) (buf c) (cap c) (parked_send c) (parked_recv c)
    fr (recv_frames c).

Definition set_recv_frames (fr : gmap nat (frame T)) (c : buffered_channel_context) :=
  MkContext (closed_flag c) (buf c) (cap c) (parked_send c) (parked_recv c)
    (send_frames c) fr.

(** [construct(sz)]: a size below 1 is taken as 1 *)
Definition construct (sz : nat) : buffered_channel_context :=
  MkContext false [] (if Nat.ltb sz 1 then 1 else sz) [] [] ∅ ∅.

(** [size()], [empty()], [full()], [capacity()], [reserve()], [closed()] *)
Definition size (c : buffered_channel_context) : nat := length (buf c).
Definition empty (c : buffered_channel_context) : bool := Nat.eqb (length (buf c)) 0.
Definition full (c : buffered_channel_context) : bool := Nat.eqb (length (buf c)) (cap c).
Definition capacity (c : buffered_channel_context) : nat := cap c.
Definition reserve (c : buffered_channel_context) : nat := cap c - length (buf c).
Definition closed (c : buffered_channel_context) : bool := closed_flag c.

(** [buf.push_back(v)] of a circular buffer: on a full buffer the oldest
    value is overwritten, and nothing happens when the capacity is 0 *)
Definition push_back (v : T) (c : buffered_channel_context) : buffered_channel_context :=
  if full c then
    if Nat.eqb (cap c) 0 then c else set_buf (tail (buf c) ++ [v]) c
  else set_buf (buf c ++ [v]) c.

(** [close()]; [None] when an [unpark] throws *)
Definition close (c : buffered_channel_context) : option buffered_channel_context :=
  sf ← unpark_queue (parked_send c) (send_frames c);
  rf ← unpark_queue (parked_recv c) (recv_frames c);
  Some (MkContext true (buf c) (cap c) [] [] sf rf).

(** the closure a parked [send_] pushes, called with a pointer that is not
    null: [internal_send()], then [p.unpark(lk)] *)
Definition call_send_entry (id : nat) (c : buffered_channel_context)
  : option buffered_channel_context :=
  f ← send_frames c !! id;
  let c1 := push_back (val f) c in
  p' ← unpark (p f);
  Some (set_send_frames (<[id := MkFrame (failed f) p' (val f)]> (send_frames c1)) c1).

(** the closure a parked [recv] pushes, called with a pointer that is not
    null: [internal_recv()], then [p.unpark(lk)]; [None] also for the front
    of an empty buffer *)
Definition call_recv_entry (id : nat) (c : buffered_channel_context)
  : option buffered_channel_context :=
  f ← recv_frames c !! id;
  match buf c with
  | [] => None
  | v :: b =>
      p' ← unpark (p f);
      Some (set_recv_frames (<[id := MkFrame (failed f) p' v]> (recv_frames c))
              (set_buf b c))
  end.

(** after a value went in: [if(!closed_flag)], a parked receiver is woken
    if there is one and the buffer is not empty *)
Definition wake_recv (c : buffered_channel_context) : option buffered_channel_context :=
  if negb (closed_flag c) then
    match parked_recv c with
    | front :: rest =>
        if negb (empty c) then
          c1 ← call_recv_entry front c; Some (set_parked_recv rest c1)
        else Some c
    | [] => Some c
    end
  else Some c.

(** after a value went out: [if(!closed_flag)], a parked sender is woken
    if there is one and the buffer is not full *)
Definition wake_send (c : buffered_channel_context) : option buffered_channel_context :=
  if negb (closed_flag c) then
    match parked_send c with
    | front :: rest =>
        if negb (full c) then
          c1 ← call_send_entry front c; Some (set_parked_send rest c1)
        else Some c
    | [] => Some c
    end
  else Some c.

(** [send_(s, block, is_rvalue)] up to its return or to [p.park(lk)] *)
Definition send_ (tl : thread_locals) (id : nat) (s : T) (block : bool)
    (c : buffered_channel_context)
  : option (outcome T * buffered_channel_context) :=
  if closed_flag c then Some (ret Channel.closed s [ev_lock; ev_unlock], c)
  else if full c then
    if block then
      Some (parked [ev_lock; ev_park],
            set_send_frames (<[id := park_frame tl s]> (send_frames c))
              (set_parked_send (parked_send c ++ [id]) c))
    else Some (ret failure s [ev_lock; ev_unlock; ev_yield (yield tl)], c)
  else
    c1 ← wake_recv (push_back s c);
    Some (ret success s [ev_lock; ev_unlock; ev_yield (yield tl)], c1).

(** [send_] from the return of [p.park(lk)] on *)
Definition send_after_park (tl : thread_locals) (id : nat)
    (c : buffered_channel_context)
  : option (outcome T * buffered_channel_context) :=
  f ← send_frames c !! id;
  let c0 := set_send_frames (delete id (send_frames c)) c in
  if failed f then Some (ret Channel.closed (val f) [ev_lock; ev_unlock], c0)
  else
    c1 ← wake_recv c0;
    Some (ret success (val f) [ev_lock; ev_unlock; ev_yield (yield tl)], c1).

(** [recv(r, block)] up to its return or to [p.park(lk)] *)
Definition recv (tl : thread_locals) (id : nat) (r : T) (block : bool)
    (c : buffered_channel_context)
  : option (outcome T * buffered_channel_context) :=
  if closed_flag c then Some (ret Channel.closed r [ev_lock; ev_unlock], c)
  else
    match buf c with
    | [] =>
        if block then
          Some (parked [ev_lock; ev_park],
                set_recv_frames (<[id := park_frame tl r]> (recv_frames c))
                  (set_parked_recv (parked_recv c ++ [id]) c))
        else Some (ret failure r [ev_lock; ev_unlock; ev_yield (yield tl)], c)
    | v :: b =>
        c1 ← wake_send (set_buf b c);
        Some (ret success v [ev_lock; ev_unlock; ev_yield (yield tl)], c1)
    end.

(** [recv] from the return of [p.park(lk)] on *)
Definition recv_after_park (tl : thread_locals) (id : nat)
    (c : buffered_channel_context)
  : option (outcome T * buffered_channel_context) :=
  f ← recv_frames c !! id;
  let c0 := set_recv_frames (delete id (recv_frames c)) c in
  if failed f then Some (ret Channel.closed (val f) [ev_lock; ev_unlock], c0)
  else
    c1 ← wake_send c0;
    Some (ret success (val f) [ev_lock; ev_unlock; ev_yield (yield tl)], c1).

(** the public [send] and [recv] return [ctx->send(s,true) == success] *)
Definition returns_bool (o : outcome T) : option bool :=
  match o with
  | ret res _ _ => Some (result_eqb res success)
  | parked _ => None
  end.

Definition try_send (tl : thread_locals) (s : T) (c : buffered_channel_context) :=
  send_ tl 0 s false c.

Definition try_recv (tl : thread_locals) (r : T) (c : buffered_channel_context) :=
  recv tl 0 r false c.

(** the steps of a channel: the public operations, with the blocking ones
    in their two parts; the queries are one step *)
Inductive call : Type :=
| c_send (tl : thread_locals) (id : nat) (s : T) (block : bool)
| c_send_after_park (tl : thread_locals) (id : nat)
| c_recv (tl : thread_locals) (id : nat) (r : T) (block : bool)
| c_recv_after_park (tl : thread_locals) (id : nat)
| c_close
| c_query.

Definition exec (k : call) (c : buffered_channel_context)
  : option (option (outcome T) * buffered_channel_context) :=
  match k with
  | c_send tl id s block => '(o, c') ← send_ tl id s block c; Some (Some o, c')
  | c_send_after_park tl id => '(o, c') ← send_after_park tl id c; Some (Some o, c')
  | c_recv tl id r block => '(o, c') ← recv tl id r block c; Some (Some o, c')
  | c_recv_after_park tl id => '(o, c') ← recv_after_park tl id c; Some (Some o, c')
  | c_close => c' ← close c; Some (None, c')
  | c_query => Some (None, c)
  end.

Definition enabled (k : call) (c : buffered_channel_context) : Prop :=
  match k with
  | c_send _ id _ block => block = true -> send_frames c !! id = None
  | c_send_after_park _ id => woken (send_frames c) id
  | c_recv _ id _ block => block = true -> recv_frames c !! id = None
  | c_recv_after_park _ id => woken (recv_frames c) id
  | c_close | c_query => True
  end.

Definition step (k : call) (c c' : buffered_channel_context) : Prop :=
  enabled k c /\ exists o, exec k c = Some (o, c').

Inductive reachable : buffered_channel_context -> Prop :=
| reach_construct sz : reachable (construct sz)
| reach_step k c c' : reachable c -> step k c c' -> reachable c'.

Inductive steps (ok : call -> Prop) (c : buffered_channel_context)
  : buffered_channel_context -> Prop :=
| steps_refl : steps ok c c
| steps_step k c' c'' : steps ok c c' -> ok k -> step k c' c'' -> steps ok c c''.

Definition wf (c : buffered_channel_context) : Prop :=
  NoDup (parked_send c) /\ NoDup (parked_recv c)
  /\ (forall id, id ∈ parked_send c -> waits (send_frames c) id)
  /\ (forall id, id ∈ parked_recv c -> waits (recv_frames c) id).

(** the invariant of the specification, with the bounds of the buffer *)
Definition buffer_inv (c : buffered_channel_context) : Prop :=
  1 <= cap c /\ length (buf c) <= cap c
  /\ (full c = false -> parked_send c = [])
  /\ (empty c = false -> parked_recv c = []).

Definition inv (c : buffered_channel_context) : Prop := wf c /\ buffer_inv c.

Ltac proj_ctx :=
  cbn [closed_flag buf cap parked_send parked_recv send_frames recv_frames
       set_buf set_parked_send set_parked_recv set_send_frames set_recv_frames].

Ltac exec_inv H :=
  match type of H with
  | (?m ≫= _) = Some _ =>
      let E := fresh "E" in
      destruct m as [[? ?] |] eqn:E; [| discriminate];
      simpl in H; injection H as <- <-; rename E into H
  end.

Lemma buffered_inv_construct sz : inv (construct sz).
Proof.
  split.
  - split; [apply NoDup_nil_2 |]. split; [apply NoDup_nil_2 |].
    split; intros id Hin; inversion Hin.
  - unfold buffer_inv, construct; simpl.
    destruct (Nat.ltb sz 1) eqn:E; repeat split; try lia; try reflexivity.
    apply Nat.ltb_ge in E. exact E.
Qed.

Lemma full_false c : length (buf c) <= cap c -> full c = false -> length (buf c) < cap c.
Proof. unfold full. intros Hle H. apply Nat.eqb_neq in H. lia. Qed.

(** between the operations no wake-up is due: the tests of [wake_recv] and
    [wake_send] fail *)
Lemma wake_recv_noop c : inv c -> wake_recv c = Some c.
Proof.
  intros [_ (_ & _ & _ & He)]. unfold wake_recv.
  destruct (negb (closed_flag c)); [| reflexivity].
  destruct (parked_recv c) as [| front rest]; [reflexivity |].
  destruct (empty c); [reflexivity |]. specialize (He eq_refl). discriminate.
Qed.

Lemma wake_send_noop c : inv c -> wake_send c = Some c.
Proof.
  intros [_ (_ & _ & Hf & _)]. unfold wake_send.
  destruct (negb (closed_flag c)); [| reflexivity].
  destruct (parked_send c) as [| front rest]; [reflexivity |].
  destruct (full c); [reflexivity |]. specialize (Hf eq_refl). discriminate.
Qed.

(** a value put into a buffer that is not full, then [wake_recv] *)
Lemma wake_recv_after_push s c :
  inv c -> closed_flag c = false -> full c = false ->
  exists c', wake_recv (push_back s c) = Some c' /\ inv c'
    /\ closed_flag c' = false /\ cap c' = cap c
    /\ send_frames c' = send_frames c /\ parked_send c' = parked_send c
    /\ (forall id, id ∉ parked_recv c ->
          (id ∉ parked_recv c') /\ recv_frames c' !! id = recv_frames c !! id)
    /\ (parked_recv c = [] -> buf c' = buf c ++ [s])
    /\ (parked_recv c <> [] -> buf c' = buf c).
Proof.
  intros [(Hns & Hnr & Hws & Hwr) (Hcap & Hlen & Hf & He)] Hcl Hfull.
  pose proof (full_false c Hlen Hfull) as Hlt.
  unfold push_back. rewrite Hfull. unfold wake_recv. proj_ctx. rewrite Hcl. simpl negb.
  destruct (parked_recv c) as [| front rest] eqn:Hpr.
  - eexists. split; [reflexivity |]. proj_ctx.
    split; [| repeat split; trivial; try congruence; rewrite ?Hpr; auto].
    split; [repeat split; proj_ctx; rewrite ?Hpr; assumption |].
    unfold buffer_inv, full, empty. proj_ctx. rewrite length_app. simpl.
    repeat split; try lia; auto.
  - assert (Hb : buf c = []).
    { destruct (buf c) eqn:Hb; [reflexivity |].
      assert (H : empty c = false) by (unfold empty; rewrite Hb; reflexivity).
      apply He in H. discriminate. }
    destruct (Hwr front) as (f & Hfr & Hwc & Hn); [left |].
    unfold empty, call_recv_entry. proj_ctx. rewrite Hb. simpl.
    rewrite Hfr. simpl. rewrite (unpark_waits _ Hwc). simpl.
    eexists. split; [reflexivity |]. proj_ctx.
    apply NoDup_cons in Hnr as [Hnin Hnr].
    split; [| repeat split; trivial; try congruence].
    + split.
      * unfold wf. proj_ctx. split; [exact Hns |]. split; [exact Hnr |].
        split; [exact Hws |]. intros x Hx.
        apply waits_insert_ne; [intros ->; contradiction |].
        apply Hwr. right. exact Hx.
      * unfold buffer_inv, full, empty. proj_ctx. simpl.
        repeat split; try lia; auto.
    + apply not_elem_of_cons in H as [_ H]. exact H.
    + apply not_elem_of_cons in H as [Hne _].
      rewrite lookup_insert_ne by congruence. reflexivity.
Qed.

(** a value taken from the front of the buffer, then [wake_send] *)
Lemma wake_send_after_pop v b c :
  inv c -> closed_flag c = false -> buf c = v :: b ->
  exists c', wake_send (set_buf b c) = Some c' /\ inv c'
    /\ closed_flag c' = false /\ cap c' = cap c
    /\ recv_frames c' = recv_frames c /\ parked_recv c' = parked_recv c
    /\ (forall id, id ∉ parked_send c ->
          (id ∉ parked_send c') /\ send_frames c' !! id = send_frames c !! id).
Proof.
  intros [(Hns & Hnr & Hws & Hwr) (Hcap & Hlen & Hf & He)] Hcl Hbuf.
  assert (Hpr : parked_recv c = []).
  { apply He. unfold empty. rewrite Hbuf. reflexivity. }
  rewrite Hbuf in Hlen. simpl in Hlen.
  unfold wake_send. proj_ctx. rewrite Hcl. simpl negb.
  destruct (parked_send c) as [| front rest] eqn:Hps.
  - eexists. split; [reflexivity |]. proj_ctx.
    split; [| repeat split; trivial; rewrite ?Hps; auto].
    split; [repeat split; proj_ctx; rewrite ?Hps, ?Hpr; trivial;
            intros x Hx; inversion Hx |].
    unfold buffer_inv, full, empty. proj_ctx.
    repeat split; try lia; auto.
  - assert (Hfull : full c = true).
    { destruct (full c) eqn:E; [reflexivity |]. specialize (Hf eq_refl).
      discriminate. }
    unfold full in Hfull. rewrite Hbuf in Hfull.
    apply Nat.eqb_eq in Hfull. simpl in Hfull.
    assert (Hnf : Nat.eqb (length b) (cap c) = false) by (apply Nat.eqb_neq; lia).
    destruct (Hws front) as (f & Hfr & Hwc & Hn); [left |].
    unfold full at 1. proj_ctx. rewrite Hnf. simpl negb. cbv iota.
    unfold call_send_entry, push_back, full. proj_ctx. rewrite Hfr. simpl.
    rewrite Hnf. proj_ctx. rewrite (unpark_waits _ Hwc). simpl.
    eexists. split; [reflexivity |]. proj_ctx.
    apply NoDup_cons in Hns as [Hnin Hns].
    split; [| repeat split; trivial].
    + split.
      * unfold wf. proj_ctx. split; [exact Hns |]. split; [exact Hnr |].
        split; [| exact Hwr]. intros x Hx.
        apply waits_insert_ne; [intros ->; contradiction |].
        apply Hws. right. exact Hx.
      * unfold buffer_inv, full, empty. proj_ctx. rewrite length_app. simpl.
        repeat split; try lia; auto.
        intros H. apply Nat.eqb_neq in H. lia.
    + apply not_elem_of_cons in H as [_ H]. exact H.
    + apply not_elem_of_cons in H as [Hne _].
      rewrite lookup_insert_ne by congruence. reflexivity.
Qed.

Lemma buffered_close_wf c :
  wf c ->
  exists c', close c = Some c'
    /\ closed_flag c' = true /\ buf c' = buf c /\ cap c' = cap c
    /\ parked_send c' = [] /\ parked_recv c' = []
    /\ all_failed (parked_send c) (send_frames c) (send_frames c')
    /\ all_failed (parked_recv c) (recv_frames c) (recv_frames c').
Proof.
  intros (Hns & Hnr & Hws & Hwr).
  destruct (unpark_queue_waits T _ _ Hns Hws) as (sf & Hsf & Hs).
  destruct (unpark_queue_waits T _ _ Hnr Hwr) as (rf & Hrf & Hr).
  exists (MkContext true (buf c) (cap c) [] [] sf rf).
  unfold close. rewrite Hsf, Hrf.
  repeat split; try reflexivity; try apply Hs; try apply Hr.
Qed.

Definition not_send_after_park (id : nat) (k : call) : Prop :=
  match k with c_send_after_park _ id' => id' <> id | _ => True end.

Definition not_recv_after_park (id : nat) (k : call) : Prop :=
  match k with c_recv_after_park _ id' => id' <> id | _ => True end.

(** what a step keeps: the frame of a call that is in no queue, unless
    the step is that call going on; and, once the channel is closed, the
    closed flag and the buffer *)
Definition keeps (k : call) (c c' : buffered_channel_context) : Prop :=
  (forall id f, id ∉ parked_send c -> send_frames c !! id = Some f ->
     not_send_after_park id k ->
     (id ∉ parked_send c') /\ send_frames c' !! id = Some f)
  /\ (forall id f, id ∉ parked_recv c -> recv_frames c !! id = Some f ->
       not_recv_after_park id k ->
       (id ∉ parked_recv c') /\ recv_frames c' !! id = Some f)
  /\ (closed_flag c = true -> closed_flag c' = true /\ buf c' = buf c).

Lemma keeps_refl k c : keeps k c c.
Proof. repeat split; auto. Qed.

Lemma NoDup_snoc (lst : list nat) id : NoDup lst -> id ∉ lst -> NoDup (lst ++ [id]).
Proof.
  intros Hnd Hnin. apply NoDup_app. split; [exact Hnd |].
  split; [| apply NoDup_singleton].
  intros x Hx Hx'. apply list_elem_of_singleton in Hx' as ->. contradiction.
Qed.

Lemma send__ok tl id s block c :
  inv c -> (block = true -> send_frames c !! id = None) ->
  exists o c', send_ tl id s block c = Some (o, c') /\ inv c'
    /\ keeps (c_send tl id s block) c c'.
Proof.
  intros Hinv Hfresh. pose proof Hinv as [(Hns & Hnr & Hws & Hwr) (Hcap & Hlen & Hf & He)].
  unfold send_. destruct (closed_flag c) eqn:Hcl.
  { eexists _, c. split; [reflexivity |]. split; [exact Hinv | apply keeps_refl]. }
  destruct (full c) eqn:Hfull.
  - destruct block.
    + specialize (Hfresh eq_refl).
      pose proof (fresh_not_waiting T _ _ _ Hws Hfresh) as Hnin.
      eexists _, _. split; [reflexivity |]. split; [split |].
      * unfold wf. proj_ctx. split; [apply NoDup_snoc; assumption |].
        split; [exact Hnr |]. split; [| exact Hwr].
        intros x Hx. apply elem_of_app in Hx as [Hx | Hx].
        -- apply waits_insert_ne; [intros ->; contradiction | apply Hws; exact Hx].
        -- apply list_elem_of_singleton in Hx as ->. apply waits_park_frame.
      * unfold buffer_inv, full, empty in *. proj_ctx.
        split; [exact Hcap |]. split; [exact Hlen |].
        split; [intros H; congruence | exact He].
      * split; [| split].
        -- intros x f Hx Hfx _. proj_ctx. split.
           ++ intros Hin. apply elem_of_app in Hin as [Hin | Hin]; [contradiction |].
              apply list_elem_of_singleton in Hin. congruence.
           ++ rewrite lookup_insert_ne by congruence. exact Hfx.
        -- intros x f Hx Hfx _. proj_ctx. auto.
        -- congruence.
    + eexists _, c. split; [reflexivity |]. split; [exact Hinv | apply keeps_refl].
  - destruct (wake_recv_after_push s c Hinv Hcl Hfull)
      as (c' & Hw & Hinv' & Hcl' & Hcap' & Hsf & Hps & Hrecv & _).
    rewrite Hw. simpl. eexists _, c'. split; [reflexivity |].
    split; [exact Hinv' |]. split; [| split].
    + intros x f Hx Hfx _. rewrite Hps, Hsf. auto.
    + intros x f Hx Hfx _. destruct (Hrecv x Hx) as [H1 H2].
      split; [exact H1 | rewrite H2; exact Hfx].
    + congruence.
Qed.

Lemma recv_ok tl id r block c :
  inv c -> (block = true -> recv_frames c !! id = None) ->
  exists o c', recv tl id r block c = Some (o, c') /\ inv c'
    /\ keeps (c_recv tl id r block) c c'.
Proof.
  intros Hinv Hfresh. pose proof Hinv as [(Hns & Hnr & Hws & Hwr) (Hcap & Hlen & Hf & He)].
  unfold recv. destruct (closed_flag c) eqn:Hcl.
  { eexists _, c. split; [reflexivity |]. split; [exact Hinv | apply keeps_refl]. }
  destruct (buf c) as [| v b] eqn:Hbuf.
  - destruct block.
    + specialize (Hfresh eq_refl).
      pose proof (fresh_not_waiting T _ _ _ Hwr Hfresh) as Hnin.
      eexists _, _. split; [reflexivity |]. split; [split |].
      * unfold wf. proj_ctx. split; [exact Hns |].
        split; [apply NoDup_snoc; assumption |]. split; [exact Hws |].
        intros x Hx. apply elem_of_app in Hx as [Hx | Hx].
        -- apply waits_insert_ne; [intros ->; contradiction | apply Hwr; exact Hx].
        -- apply list_elem_of_singleton in Hx as ->. apply waits_park_frame.
      * unfold buffer_inv, full, empty in *. proj_ctx. rewrite Hbuf in *.
        split; [exact Hcap |]. split; [exact Hlen |].
        split; [exact Hf | intros H; discriminate].
      * split; [| split].
        -- intros x f Hx Hfx _. proj_ctx. auto.
        -- intros x f Hx Hfx _. proj_ctx. split.
           ++ intros Hin. apply elem_of_app in Hin as [Hin | Hin]; [contradiction |].
              apply list_elem_of_singleton in Hin. congruence.
           ++ rewrite lookup_insert_ne by congruence. exact Hfx.
        -- congruence.
    + eexists _, c. split; [reflexivity |]. split; [exact Hinv | apply keeps_refl].
  - destruct (wake_send_after_pop v b c Hinv Hcl Hbuf)
      as (c' & Hw & Hinv' & Hcl' & Hcap' & Hrf & Hpr & Hsend).
    rewrite Hw. simpl. eexists _, c'. split; [reflexivity |].
    split; [exact Hinv' |]. split; [| split].
    + intros x f Hx Hfx _. destruct (Hsend x Hx) as [H1 H2].
      split; [exact H1 | rewrite H2; exact Hfx].
    + intros x f Hx Hfx _. rewrite Hpr, Hrf. auto.
    + congruence.
Qed.

Lemma send_after_park_ok tl id c :
  inv c -> woken (send_frames c) id ->
  exists o c', send_after_park tl id c = Some (o, c') /\ inv c'
    /\ keeps (c_send_after_park tl id) c c'.
Proof.
  intros Hinv Hwoken. pose proof Hinv as [(Hns & Hnr & Hws & Hwr) Hbi].
  pose proof Hwoken as (f & Hf & _).
  set (c0 := set_send_frames (delete id (send_frames c)) c).
  assert (Hinv0 : inv c0).
  { split; [| exact Hbi]. unfold wf, c0. proj_ctx.
    split; [exact Hns |]. split; [exact Hnr |]. split; [| exact Hwr].
    intros x Hx. apply waits_delete_ne; [| apply Hws; exact Hx].
    intros ->. eapply waits_not_woken; [apply Hws |]; eassumption. }
  assert (Hkeeps : keeps (c_send_after_park tl id) c c0).
  { split; [| split]; unfold c0; proj_ctx; auto.
    intros x fx Hx Hfx Hne. simpl in Hne.
    split; [exact Hx | rewrite lookup_delete_ne by exact Hne; exact Hfx]. }
  unfold send_after_park. rewrite Hf. simpl. fold c0.
  destruct (failed f); [eauto |].
  rewrite (wake_recv_noop c0 Hinv0). simpl. eauto.
Qed.

Lemma recv_after_park_ok tl id c :
  inv c -> woken (recv_frames c) id ->
  exists o c', recv_after_park tl id c = Some (o, c') /\ inv c'
    /\ keeps (c_recv_after_park tl id) c c'.
Proof.
  intros Hinv Hwoken. pose proof Hinv as [(Hns & Hnr & Hws & Hwr) Hbi].
  pose proof Hwoken as (f & Hf & _).
  set (c0 := set_recv_frames (delete id (recv_frames c)) c).
  assert (Hinv0 : inv c0).
  { split; [| exact Hbi]. unfold wf, c0. proj_ctx.
    split; [exact Hns |]. split; [exact Hnr |]. split; [exact Hws |].
    intros x Hx. apply waits_delete_ne; [| apply Hwr; exact Hx].
    intros ->. eapply waits_not_woken; [apply Hwr |]; eassumption. }
  assert (Hkeeps : keeps (c_recv_after_park tl id) c c0).
  { split; [| split]; unfold c0; proj_ctx; auto.
    intros x fx Hx Hfx Hne. simpl in Hne.
    split; [exact Hx | rewrite lookup_delete_ne by exact Hne; exact Hfx]. }
  unfold recv_after_park. rewrite Hf. simpl. fold c0.
  destruct (failed f); [eauto |].
  rewrite (wake_send_noop c0 Hinv0). simpl. eauto.
Qed.

Lemma close_ok c :
  inv c -> exists c', close c = Some c' /\ inv c' /\ keeps c_close c c'.
Proof.
  intros [Hwf (Hcap & Hlen & Hf & He)].
  destruct (buffered_close_wf c Hwf)
    as (c' & Hc & Hcl & Hb & Hcp & Hs & Hr & [_ Hsout] & [_ Hrout]).
  exists c'. split; [exact Hc |]. split; [split |].
  - unfold wf. rewrite Hs, Hr.
    split; [apply NoDup_nil_2 |]. split; [apply NoDup_nil_2 |].
    split; intros id Hin; inversion Hin.
  - unfold buffer_inv, full, empty. rewrite Hb, Hcp, Hs, Hr. auto.
  - split; [| split].
    + intros x f Hx Hfx _. rewrite Hs. split; [apply not_elem_of_nil |].
      rewrite Hsout by exact Hx. exact Hfx.
    + intros x f Hx Hfx _. rewrite Hr. split; [apply not_elem_of_nil |].
      rewrite Hrout by exact Hx. exact Hfx.
    + auto.
Qed.

(** every enabled step of a channel in its invariant has its result, which
    is in the invariant again *)
Lemma exec_ok k c :
  inv c -> enabled k c ->
  exists o c', exec k c = Some (o, c') /\ inv c' /\ keeps k c c'.
Proof.
  intros Hinv Hen. destruct k; simpl in Hen; simpl exec.
  - destruct (send__ok tl id s block c Hinv Hen) as (o & c' & -> & H). simpl. eauto.
  - destruct (send_after_park_ok tl id c Hinv Hen) as (o & c' & -> & H). simpl. eauto.
  - destruct (recv_ok tl id r block c Hinv Hen) as (o & c' & -> & H). simpl. eauto.
  - destruct (recv_after_park_ok tl id c Hinv Hen) as (o & c' & -> & H). simpl. eauto.
  - destruct (close_ok c Hinv) as (c' & -> & H). simpl. eauto.
  - eexists _, c. split; [reflexivity |]. split; [exact Hinv | apply keeps_refl].
Qed.

Lemma buffered_step_inv k c c' : inv c -> step k c c' -> inv c' /\ keeps k c c'.
Proof.
  intros Hinv [Hen [o Hex]].
  destruct (exec_ok k c Hinv Hen) as (o' & c0 & Hex' & H).
  rewrite Hex in Hex'. injection Hex' as <- <-. exact H.
Qed.

Lemma buffered_reachable_inv c : reachable c -> inv c.
Proof.
  induction 1 as [sz | k c c' _ IH Hstep]; [apply buffered_inv_construct |].
  eapply buffered_step_inv; eassumption.
Qed.

Lemma buffered_exec_total k c :
  reachable c -> enabled k c -> exists o c', exec k c = Some (o, c').
Proof.
  intros Hr Hen. destruct (exec_ok k c (buffered_reachable_inv c Hr) Hen) as (o & c' & H & _).
  eauto.
Qed.

Lemma buffered_steps_reachable ok c c' : reachable c -> steps ok c c' -> reachable c'.
Proof.
  intros Hr. induction 1 as [| k c' c'' _ IH _ Hstep]; [exact Hr |].
  eapply reach_step; eassumption.
Qed.

(** C3: at the boundary of every operation of a buffered channel, a buffer
    that is not full has no parked sender and a buffer that is not empty
    has no parked receiver. *)
Theorem buffered_queues_invariant (c : buffered_channel_context) :
  reachable c ->
  (full c = false -> parked_send c = [])
  /\ (empty c = false -> parked_recv c = []).
Proof.
  intros Hr. destruct (buffered_reachable_inv c Hr) as [_ (_ & _ & Hf & He)].
  split; assumption.
Qed.

(** *** What [close()] does to the calls that wait, and to the buffer *)



(** closing is one-way, and the buffer of a closed channel is frozen *)
Lemma closed_kept ok c c' :
  reachable c -> closed_flag c = true -> steps ok c c' ->
  closed_flag c' = true /\ buf c' = buf c.
Proof.
  intros Hr Hcl. induction 1 as [| k c' c'' Hst IH Hk Hstep]; [auto |].
  destruct IH as [Hcl' Hb'].
  assert (Hinv : inv c') by (apply buffered_reachable_inv; eapply buffered_steps_reachable; eassumption).
  destruct (buffered_step_inv k c' c'' Hinv Hstep) as [_ (_ & _ & Hc)].
  destruct (Hc Hcl') as [H1 H2]. split; [exact H1 | congruence].
Qed.

(** [close()] with K parked senders and L parked receivers: it returns,
    both queues are empty after it and the buffer is what it was, and each
    of the K+L calls is unparked and, whenever it goes on, returns [closed]
    without a yield, that is [false] from [send] and [recv], and leaves
    the buffer alone; a receiver has in its variable what it had when it
    parked *)
Definition close_unblocks (c : buffered_channel_context) : Prop :=
  exists c', close c = Some c'
    /\ closed_flag c' = true /\ parked_send c' = [] /\ parked_recv c' = []
    /\ buf c' = buf c
    /\ (forall id, id ∈ parked_send c ->
          forall c'' tl, steps (not_send_after_park id) c' c'' ->
          woken (send_frames c'') id /\
          exists out tr c3,
            send_after_park tl id c'' = Some (ret Channel.closed out tr, c3)
            /\ returns_bool (ret Channel.closed out tr) = Some false
            /\ yields tr = 0%nat /\ buf c3 = buf c)
    /\ (forall id, id ∈ parked_recv c ->
          forall c'' tl, steps (not_recv_after_park id) c' c'' ->
          woken (recv_frames c'') id /\
          exists f tr c3,
            recv_frames c !! id = Some f
            /\ recv_after_park tl id c'' = Some (ret Channel.closed (val f) tr, c3)
            /\ returns_bool (ret Channel.closed (val f) tr) = Some false
            /\ yields tr = 0%nat /\ buf c3 = buf c).


(** C9: once a buffered channel is closed, whatever is done to it after,
    it stays closed and its buffer stays what it was, so no value in it is
    delivered; every [recv] called then returns [closed] (the public
    [recv] returns [false], [try_recv] returns [closed]) with the caller's
    variable untouched, the channel unchanged and no call of
    [mce::yield()]. *)
Theorem closed_recv_returns_closed (c c' : buffered_channel_context) :
  reachable c -> closed_flag c = true -> steps (fun _ => True) c c' ->
  closed_flag c' = true /\ buf c' = buf c
  /\ (forall tl id r block,
        recv tl id r block c'
        = Some (ret Channel.closed r [ev_lock; ev_unlock], c')
        /\ returns_bool (ret Channel.closed r [ev_lock; ev_unlock]) = Some false
        /\ yields [ev_lock; ev_unlock] = 0%nat)
  /\ (forall tl r,
        try_recv tl r c' = Some (ret Channel.closed r [ev_lock; ev_unlock], c')).
Proof.
  intros Hr Hcl Hsteps.
  destruct (closed_kept _ c c' Hr Hcl Hsteps) as [Hcl' Hb].
  split; [exact Hcl' |]. split; [exact Hb |]. split.
  - intros tl id r block. unfold recv. rewrite Hcl'. repeat split.
  - intros tl r. unfold try_recv, recv. rewrite Hcl'. reflexivity.
Qed.

(** *** [try_send] and [try_recv] *)

Lemma buffered_try_send_result tl s c o c' :
  try_send tl s c = Some (o, c') -> try_result tl (full c = true) (closed_flag c) o.
Proof.
  unfold try_send, send_. destruct (closed_flag c) eqn:Hcl.
  - intros [= <- <-]. apply try_result_closed.
  - destruct (full c) eqn:Hfull.
    + intros [= <- <-]. apply try_result_failure; trivial.
    + destruct (wake_recv (push_back s c)); [simpl | discriminate].
      intros [= <- <-]. apply try_result_success. discriminate.
Qed.

Lemma buffered_try_recv_result tl r c o c' :
  try_recv tl r c = Some (o, c') -> try_result tl (empty c = true) (closed_flag c) o.
Proof.
  unfold try_recv, recv, empty. destruct (closed_flag c) eqn:Hcl.
  - intros [= <- <-]. apply try_result_closed.
  - destruct (buf c) as [| v b] eqn:Hbuf.
    + intros [= <- <-]. apply try_result_failure; trivial.
    + destruct (wake_send (set_buf b c)); [simpl | discriminate].
      intros [= <- <-]. apply try_result_success. discriminate.
Qed.

Lemma buffered_try_total tl v c :
  reachable c ->
  (exists o c', try_send tl v c = Some (o, c'))
  /\ (exists o c', try_recv tl v c = Some (o, c')).
Proof.
  intros Hr. split.
  - destruct (buffered_exec_total (c_send tl 0 v false) c Hr) as (o & c' & H);
      [simpl; discriminate |].
    simpl in H. unfold try_send.
    destruct (send_ tl 0 v false c) as [[o' c0] |]; [eauto | discriminate].
  - destruct (buffered_exec_total (c_recv tl 0 v false) c Hr) as (o & c' & H);
      [simpl; discriminate |].
    simpl in H. unfold try_recv.
    destruct (recv tl 0 v false c) as [[o' c0] |]; [eauto | discriminate].
Qed.

End Chan.
End Buffered.

(** ** The waiting contexts of a [parkable] (scheduler.hpp, 310-413)

    [Parkable] keeps of a waiting context its kind, and of [notify] that
    it was called, which is all a channel sees of it.  Here a context has
    what it holds, and [notify] does with it what the code does: a caller
    that waits in a scheduler is handed back to that scheduler, and goes
    on when the scheduler runs its coroutine again. *)

Module WaitingContext.
Import ThreadLocal Scheduler.

(** the schedulers there are, by name; a [std::weak_ptr] to a scheduler
    that is no longer there does not [lock()] *)
Abbreviation schedulers := (gmap nat scheduler).

(** [scheduled_context] with its [co] and [wsch], [coroutine_context] with
    [co_not_ready], [thread_context] with [ready] *)
Inductive waiting_context : Type :=
| scheduled_context (co : coroutine) (wsch : nat)
| coroutine_context (co_not_ready : bool)
| thread_context (ready : bool).

Definition kind (c : waiting_context) : Parkable.waiting_context :=
  match c with
  | scheduled_context _ _ => Parkable.scheduled_context
  | coroutine_context _ => Parkable.coroutine_context
  | thread_context _ => Parkable.thread_context
  end.

Section SizeT.
Variable size_bytes : Z.

(** [park(lk)]: the context made for the caller, and [wc->wait(&lk)] up to
    the point where the caller waits.  In a scheduler, [park::suspend]
    sets [park_continuation_] of [tl_this_scheduler()] and yields, and
    [run()] of that scheduler, in [execute_co], puts [cur_co], the front
    of its queue, and [self_wptr_] into the context and pops the queue.
    [None]: [park::suspend] called where no scheduler runs a coroutine,
    which the code calls an error. *)
Definition wait (tl : thread_locals) (w : schedulers)
  : option (waiting_context * schedulers) :=
  if in_scheduler tl then
    n ← tl_this_scheduler tl;
    sch ← w !! n;
    cur_co ← head (task_queue_ sch);
    sch' ← execute_co size_bytes (Interval [] co_park) sch;
    Some (scheduled_context cur_co n, <[n := sch']> w)
  else if in_coroutine tl then Some (coroutine_context true, w)
  else Some (thread_context false, w).




(** the context [park] makes is of the kind [Parkable.park] records *)
Lemma wait_kind tl w c w' :
  wait tl w = Some (c, w') ->
  Parkable.wc (Parkable.park tl Parkable.new) = Some (kind c).
Proof.
  unfold wait, Parkable.park. simpl. destruct (in_scheduler tl).
  - destruct (tl_this_scheduler tl) as [n |]; [simpl | discriminate].
    destruct (w !! n) as [sch |]; [simpl | discriminate].
    destruct (head (task_queue_ sch)) as [cur_co |]; [simpl | discriminate].
    destruct (execute_co _ _ sch) as [sch' |]; [simpl | discriminate].
    intros [= <- <-]. reflexivity.
  - destruct (in_coroutine tl); intros [= <- <-]; reflexivity.
Qed.

(** a caller that waits in a scheduler was taken out of its queue *)
Lemma wait_scheduled tl w co n w' :
  wait tl w = Some (scheduled_context co n, w') ->
  exists sch rest,
    w !! n = Some sch /\ task_queue_ sch = co :: rest
    /\ w' = <[n := set_task_queue_ rest sch]> w.
Proof.
  unfold wait. destruct (in_scheduler tl);
    [| destruct (in_coroutine tl); discriminate].
  destruct (tl_this_scheduler tl) as [n' |]; [simpl | discriminate].
  destruct (w !! n') as [sch |] eqn:Hw; [simpl | discriminate].
  unfold execute_co.
  destruct (task_queue_ sch) as [| c rest] eqn:Hq; [discriminate |].
  simpl. intros [= <- <- <-]. exists sch, rest. rewrite Hq. auto.
Qed.





End SizeT.
End WaitingContext.

(** ** The two channels together *)

Module Channels.
Import ThreadLocal Parkable Channel.

Section Laws.
Variable T : Type.

(** [sizeof(size_t)] *)
Variable size_bytes : Z.


(** C7: a [try_send] or [try_recv] on a channel of either kind returns
    [closed] exactly when the channel is closed, then without a yield; it
    returns [failure] exactly when the channel is open and the operation
    would have to wait (no parked receiver, no parked sender, buffer full,
    buffer empty); and when it returns [success] or [failure] its trace
    ends with the release of the lock and then the one call of
    [mce::yield()] it makes.  At the boundary of the operations of the
    channel the call does return. *)
Theorem try_yields_once (tl : thread_locals) (v : T)
    (cu : Unbuffered.unbuffered_channel_context T)
    (cb : Buffered.buffered_channel_context T) :
  (forall o c', Unbuffered.try_send T tl v cu = Some (o, c') ->
     try_result tl (Unbuffered.parked_recv T cu = [])
       (Unbuffered.closed_flag T cu) o)
  /\ (forall o c', Unbuffered.try_recv T tl v cu = Some (o, c') ->
       try_result tl (Unbuffered.parked_send T cu = [])
         (Unbuffered.closed_flag T cu) o)
  /\ (forall o c', Buffered.try_send T tl v cb = Some (o, c') ->
       try_result tl (Buffered.full T cb = true) (Buffered.closed_flag T cb) o)
  /\ (forall o c', Buffered.try_recv T tl v cb = Some (o, c') ->
       try_result tl (Buffered.empty T cb = true) (Buffered.closed_flag T cb) o)
  /\ (Unbuffered.reachable T cu ->
       (exists o c', Unbuffered.try_send T tl v cu = Some (o, c'))
       /\ (exists o c', Unbuffered.try_recv T tl v cu = Some (o, c')))
  /\ (Buffered.reachable T cb ->
       (exists o c', Buffered.try_send T tl v cb = Some (o, c'))
       /\ (exists o c', Buffered.try_recv T tl v cb = Some (o, c'))).
Proof.
  split; [intros o c'; apply Unbuffered.unbuffered_try_send_result |].
  split; [intros o c'; apply Unbuffered.unbuffered_try_recv_result |].
  split; [intros o c'; apply Buffered.buffered_try_send_result |].
  split; [intros o c'; apply Buffered.buffered_try_recv_result |].
  split; [apply Unbuffered.unbuffered_try_total | apply Buffered.buffered_try_total].
Qed.

End Laws.

(** *** The laws on small channels of numbers *)

(** a coroutine, named 7, that runs in scheduler 1 *)
Definition in_coroutine_7 : thread_locals :=
  ThreadLocals 1 (Some 1%nat) (Some 1%nat) (Some 7%nat) None false.

(** an unbuffered channel on which the calls 1 and 2 wait in [send] *)
Definition two_senders : Unbuffered.unbuffered_channel_context nat :=
  Unbuffered.MkContext nat false [1%nat; 2%nat] []
    (<[2%nat := park_frame in_coroutine_7 20%nat]>
       (<[1%nat := park_frame in_coroutine_7 10%nat]> ∅)) ∅.

Lemma two_senders_reachable : Unbuffered.reachable nat two_senders.
Proof.
  apply (Unbuffered.reach_step nat (Unbuffered.c_send nat in_coroutine_7 2 20%nat true)
           (Unbuffered.MkContext nat false [1%nat] []
              (<[1%nat := park_frame in_coroutine_7 10%nat]> ∅) ∅)).
  - apply (Unbuffered.reach_step nat (Unbuffered.c_send nat in_coroutine_7 1 10%nat true)
             (Unbuffered.construct nat)).
    + apply Unbuffered.reach_construct.
    + split; [intros _; reflexivity | eexists; reflexivity].
  - split; [intros _; reflexivity | eexists; reflexivity].
Defined.

(** a buffered channel of capacity 1 that holds 5, on which call 1 waits
    in [send] *)
Definition full_one_sender : Buffered.buffered_channel_context nat :=
  Buffered.MkContext nat false [5%nat] 1 [1%nat] []
    (<[1%nat := park_frame in_coroutine_7 6%nat]> ∅) ∅.

Lemma full_one_sender_reachable : Buffered.reachable nat full_one_sender.
Proof.
  apply (Buffered.reach_step nat (Buffered.c_send nat in_coroutine_7 1 6%nat true)
           (Buffered.MkContext nat false [5%nat] 1 [] [] ∅ ∅)).
  - apply (Buffered.reach_step nat (Buffered.c_send nat in_coroutine_7 0 5%nat false)
             (Buffered.construct nat 0)).
    + apply Buffered.reach_construct.
    + split; [intros H; discriminate | eexists; reflexivity].
  - split; [intros _; reflexivity | eexists; reflexivity].
Defined.

(** scheduler 1 while its [run()] runs coroutine 7, the front of its
    queue *)
Definition running_7 : Scheduler.scheduler :=
  Scheduler.set_state_ Scheduler.running
    (Scheduler.schedule 8 (Scheduler.arg_coroutine (Some (Scheduler.co_ptr 7))) []
       Scheduler.make).

Definition runs_7 : WaitingContext.schedulers := {[ 1%nat := running_7 ]}.

(** coroutine 7 waits: [run()] of scheduler 1 took it out of the queue *)
Definition parked_7 : WaitingContext.schedulers :=
  {[ 1%nat := Scheduler.set_task_queue_ [] running_7 ]}.

(** the context coroutine 7 waits with *)
Definition context_7 : WaitingContext.waiting_context :=
  WaitingContext.scheduled_context (Scheduler.co_ptr 7) 1.

Example wait_7 :
  WaitingContext.wait 8 in_coroutine_7 runs_7 = Some (context_7, parked_7).
Proof. reflexivity. Qed.






Lemma try_yields_once_witness :
  try_result in_coroutine_7 (Unbuffered.parked_recv nat two_senders = [])
    (Unbuffered.closed_flag nat two_senders)
    (ret failure 3%nat [ev_lock; ev_unlock; ev_yield (Some 7%nat)])
  /\ try_result in_coroutine_7 (Buffered.full nat full_one_sender = true)
       (Buffered.closed_flag nat full_one_sender)
       (ret failure 3%nat [ev_lock; ev_unlock; ev_yield (Some 7%nat)]).
Proof.
  destruct (try_yields_once nat in_coroutine_7 3%nat two_senders full_one_sender)
    as (Hus & _ & Hbs & _).
  split.
  - apply (Hus _ two_senders). reflexivity.
  - apply (Hbs _ full_one_sender). reflexivity.
Defined.

Lemma unbuffered_queues_not_both_witness :
  Unbuffered.parked_send nat two_senders = []
  \/ Unbuffered.parked_recv nat two_senders = [].
Proof.
  apply (Unbuffered.unbuffered_queues_not_both nat two_senders).
  exact two_senders_reachable.
Defined.

Lemma buffered_queues_invariant_witness :
  (Buffered.full nat full_one_sender = false ->
   Buffered.parked_send nat full_one_sender = [])
  /\ (Buffered.empty nat full_one_sender = false ->
      Buffered.parked_recv nat full_one_sender = []).
Proof.
  apply (Buffered.buffered_queues_invariant nat full_one_sender).
  exact full_one_sender_reachable.
Defined.

(** tst/buffered_channel_ut.cpp, [try_send], from a thread: a channel of
    capacity 1 takes 5, refuses 10, and gives the 5 to [recv] *)
Example buffered_try_send_test :
  (Buffered.try_send nat Threadpool.raw_thread 5%nat (Buffered.construct nat 1)
   ≫= fun '(o1, c1) =>
   Buffered.try_send nat Threadpool.raw_thread 10%nat c1
   ≫= fun '(o2, c2) =>
   Buffered.recv nat Threadpool.raw_thread 1 0%nat true c2
   ≫= fun '(o3, c3) => Some (o1, o2, o3, Buffered.buf nat c3))
  = Some (ret success 5%nat [ev_lock; ev_unlock; ev_yield None],
          ret failure 10%nat [ev_lock; ev_unlock; ev_yield None],
          ret success 5%nat [ev_lock; ev_unlock; ev_yield None],
          []).
Proof. reflexivity. Qed.

(** a rendezvous: coroutine 7 parks in [recv], a thread sends 33, and the
    receiver goes on with 33 in its variable *)
Example unbuffered_rendezvous :
  (Unbuffered.recv nat in_coroutine_7 1 0%nat true (Unbuffered.construct nat)
   ≫= fun '(o1, c1) =>
   Unbuffered.send_ nat Threadpool.raw_thread 2 33%nat true c1
   ≫= fun '(o2, c2) =>
   Unbuffered.recv_after_park nat in_coroutine_7 1 c2
   ≫= fun '(o3, c3) => Some (o1, o2, o3))
  = Some (parked [ev_lock; ev_park],
          ret success 33%nat [ev_lock; ev_unlock; ev_yield None],
          ret success 33%nat [ev_lock; ev_unlock; ev_yield (Some 7%nat)]).
Proof. reflexivity. Qed.

(** tst/unbuffered_channel_ut.cpp, [close_unblocks_coroutine_after_wait]:
    the parked [recv] goes on after [close] and returns [closed] *)
Example unbuffered_close_unblocks :
  (Unbuffered.recv nat in_coroutine_7 1 0%nat true (Unbuffered.construct nat)
   ≫= fun '(_, c1) =>
   Unbuffered.close nat c1
   ≫= fun c2 =>
   Unbuffered.recv_after_park nat in_coroutine_7 1 c2
   ≫= fun '(o3, c3) => Some (o3, Unbuffered.closed nat c3))
  = Some (ret closed 0%nat [ev_lock; ev_unlock], true).
Proof. reflexivity. Qed.

(** the channel that holds 5, closed: the 5 stays, and [recv] is refused *)
Definition closed_with_value : Buffered.buffered_channel_context nat :=
  Buffered.MkContext nat true [5%nat] 1 [] []
    (<[1%nat := MkFrame true (notify_done (p (park_frame in_coroutine_7 6%nat))) 6%nat]> ∅) ∅.

Lemma closed_with_value_reachable : Buffered.reachable nat closed_with_value.
Proof.
  apply (Buffered.reach_step nat (Buffered.c_close nat) full_one_sender).
  - exact full_one_sender_reachable.
  - split; [exact I | eexists; reflexivity].
Defined.

Lemma closed_recv_returns_closed_witness :
  Buffered.buf nat closed_with_value = [5%nat]
  /\ Buffered.recv nat in_coroutine_7 9 0%nat true closed_with_value
     = Some (ret closed 0%nat [ev_lock; ev_unlock], closed_with_value).
Proof.
  destruct (Buffered.closed_recv_returns_closed nat closed_with_value closed_with_value
              closed_with_value_reachable eq_refl
              (Buffered.steps_refl nat _ closed_with_value))
    as (_ & Hb & Hrecv & _).
  split; [exact Hb |]. apply Hrecv.
Defined.

End Channels.

(** ** [await] (await.hpp, await.cpp)

    The caller of [await] waits, parked, until the callable has run, so
    the hand-over to a worker thread and back is written as one sequence;
    what other callers of [await] do to the pool meanwhile is an input.
    A callable is called with its arguments on some thread and changes
    what it can reach; where it ran is recorded. *)

Module Await.
Import ThreadLocal.

(** an [await_worker]: its scheduler, with the name of the scheduler, and
    its thread *)
Record await_worker : Type := MkWorker {
  sch : Scheduler.scheduler;
  sch_name : nat;
  thd : nat
}.

(** the [await_threadpool]; [spawned] counts the workers made so far, and
    names the next one *)
Record await_threadpool : Type := MkPool {
  min_worker_cnt_ : nat;
  worker_cnt_ : Z;
  workers_ : list await_worker;
  spawned : nat
}.

(** what happens, in order: a worker is checked out, the caller parks, the
    callable is called where the thread-locals are [tl], the caller is
    unparked, the worker is checked in *)
Inductive event : Type :=
| ev_checkout (w : nat)
| ev_park
| ev_call (tl : thread_locals)
| ev_unpark
| ev_checkin (w : nat).

Section SizeT.
Variable size_bytes : Z.

(** [await_worker()]: a new scheduler and a new thread that runs it *)
Definition new_worker (n : nat) : await_worker := MkWorker Scheduler.make n n.

(** [checkout_worker()] *)
Definition checkout_worker (pool : await_threadpool) : await_worker * await_threadpool :=
  match workers_ pool with
  | w :: rest =>
      (w, MkPool (min_worker_cnt_ pool) (worker_cnt_ pool) rest (spawned pool))
  | [] =>
      (new_worker (spawned pool),
       MkPool (min_worker_cnt_ pool)
         (Measurement.wrap size_bytes (worker_cnt_ pool + 1))
         (workers_ pool) (S (spawned pool)))
  end.

(** [checkin_worker(w)] *)
Definition checkin_worker (w : await_worker) (pool : await_threadpool) : await_threadpool :=
  if Nat.ltb (length (workers_ pool)) (min_worker_cnt_ pool) then
    MkPool (min_worker_cnt_ pool) (worker_cnt_ pool) (workers_ pool ++ [w])
      (spawned pool)
  else
    MkPool (min_worker_cnt_ pool)
      (Measurement.wrap size_bytes (worker_cnt_ pool - 1))
      (workers_ pool) (spawned pool).

(** the thread-locals of the worker's thread while [await_coroutine::run]
    runs the callable: the thread runs the worker's scheduler and the
    await coroutine ([co]), is marked as an await thread, and has the
    caller's scheduler and threadpool as the redirected ones *)
Definition worker_locals (w : await_worker) (co : nat) (tl : thread_locals)
  : thread_locals :=
  ThreadLocals (thd w) (Some (sch_name w))
    (if in_scheduler tl then this_scheduler tl else None)
    (Some co)
    (if in_threadpool tl then tl_this_threadpool tl else None)
    true.

Section Callable.
(** the state the scheduled lambda captures by reference *)
Variable St : Type.

(** [await_threadpool::schedule(cb, args...)]; [cb] is the effect of the
    callable on the captured state, [co] names the await coroutine.
    [None]: the worker's scheduler did not take the coroutine, and the
    caller stays parked. *)
Definition schedule (cb : St -> St) (co : nat) (tl : thread_locals) (st : St)
    (pool : await_threadpool) : option (St * list event * await_threadpool) :=
  if in_scheduler tl && negb (tl_is_await tl) then
    let '(w, pool1) := checkout_worker pool in
    let s1 :=
      Scheduler.schedule size_bytes
        (Scheduler.arg_coroutine (Some (Scheduler.co_ptr co))) [] (sch w) in
    if negb (Scheduler.state_eqb (Scheduler.state_ (sch w)) Scheduler.halted) then
      let tlw := worker_locals w co tl in
      let st' := cb st in
      match Scheduler.execute_co size_bytes
              (Scheduler.Interval [] Scheduler.co_complete) s1 with
      | Some s2 =>
          Some (st',
                [ev_checkout (thd w); ev_park; ev_call tlw; ev_unpark;
                 ev_checkin (thd w)],
                checkin_worker (MkWorker s2 (sch_name w) (thd w)) pool1)
      | None => None
      end
    else None
  else Some (cb st, [ev_call tl], pool).

End Callable.

(** what the other callers of [await] do to the pool while this caller is
    parked, or while its callable runs in place: they check workers out
    and in *)
Inductive pool_op : Type :=
| pool_checkout
| pool_checkin (w : await_worker).

Definition apply_pool_op (o : pool_op) (pool : await_threadpool) : await_threadpool :=
  match o with
  | pool_checkout => snd (checkout_worker pool)
  | pool_checkin w => checkin_worker w pool
  end.

Definition apply_pool_ops (ops : list pool_op) (pool : await_threadpool)
  : await_threadpool :=
  fold_left (fun pool' o => apply_pool_op o pool') ops pool.

Section Shared.
Variable St : Type.

(** [await_threadpool::schedule(cb, args...)] on a pool that other callers
    use too: [during] is what they do to it between this caller's
    [checkout_worker()] and its [checkin_worker(w)], and the effect [cb] of
    the callable on the captured state may depend on the thread-locals of
    the thread that calls it.  With no other caller, and a callable that
    does not look at the thread-locals, this is [schedule]. *)
Definition schedule_shared (cb : thread_locals -> St -> St) (co : nat)
    (tl : thread_locals) (during : list pool_op) (st : St)
    (pool : await_threadpool) : option (St * list event * await_threadpool) :=
  if in_scheduler tl && negb (tl_is_await tl) then
    let '(w, pool1) := checkout_worker pool in
    let s1 :=
      Scheduler.schedule size_bytes
        (Scheduler.arg_coroutine (Some (Scheduler.co_ptr co))) [] (sch w) in
    if negb (Scheduler.state_eqb (Scheduler.state_ (sch w)) Scheduler.halted) then
      let tlw := worker_locals w co tl in
      let st' := cb tlw st in
      match Scheduler.execute_co size_bytes
              (Scheduler.Interval [] Scheduler.co_complete) s1 with
      | Some s2 =>
          Some (st',
                [ev_checkout (thd w); ev_park; ev_call tlw; ev_unpark;
                 ev_checkin (thd w)],
                checkin_worker (MkWorker s2 (sch_name w) (thd w))
                  (apply_pool_ops during pool1))
      | None => None
      end
    else None
  else Some (cb tl st, [ev_call tl], apply_pool_ops during pool).

Lemma schedule_shared_alone (cb : St -> St) co tl st pool :
  schedule_shared (fun _ => cb) co tl [] st pool = schedule St cb co tl st pool.
Proof. reflexivity. Qed.

End Shared.

(** the [await_threadpool] constructors: [min] workers, all new (the
    default [min] is 1); no worker at all with [no_threads_t] *)
Definition initial_pool (min : nat) : await_threadpool :=
  MkPool min (Z.of_nat min) (map new_worker (seq 0 min)) min.

Definition no_threads_pool : await_threadpool := MkPool 0 0 [] 0.

(** the pools the code builds: a constructed one, and what a call of
    [schedule] that returns leaves *)
Inductive pool_reachable : await_threadpool -> Prop :=
| pool_initial min : pool_reachable (initial_pool min)
| pool_no_threads : pool_reachable no_threads_pool
| pool_schedule St cb co tl st pool st' tr pool' :
    pool_reachable pool ->
    schedule St cb co tl st pool = Some (st', tr, pool') ->
    pool_reachable pool'.

(** the schedulers of the workers in the free list are not halted *)
Definition workers_live (pool : await_threadpool) : Prop :=
  forall w, In w (workers_ pool) -> Scheduler.state_ (sch w) <> Scheduler.halted.

Lemma checkout_live pool w pool1 :
  workers_live pool -> checkout_worker pool = (w, pool1) ->
  Scheduler.state_ (sch w) <> Scheduler.halted /\ workers_live pool1.
Proof.
  intros Hlive. unfold checkout_worker.
  destruct (workers_ pool) as [| w0 rest] eqn:Hw; intros [= <- <-].
  - split; [simpl; discriminate |]. intros w Hin. simpl in Hin.
    rewrite ?Hw in Hin. destruct Hin.
  - split; [apply Hlive; rewrite Hw; left; reflexivity |].
    intros w Hin. apply Hlive. rewrite Hw. right. exact Hin.
Qed.

Lemma checkin_live w pool :
  Scheduler.state_ (sch w) <> Scheduler.halted ->
  workers_live pool -> workers_live (checkin_worker w pool).
Proof.
  intros Hw Hlive. unfold checkin_worker.
  destruct (Nat.ltb (length (workers_ pool)) (min_worker_cnt_ pool));
    intros w' Hin; simpl in Hin; [| apply Hlive; exact Hin].
  apply in_app_or in Hin as [Hin | [<- | []]]; [apply Hlive; exact Hin | exact Hw].
Qed.

Lemma state_execute_co_quiet s s2 :
  Scheduler.execute_co size_bytes (Scheduler.Interval [] Scheduler.co_complete) s
  = Some s2 ->
  Scheduler.state_ s2 = Scheduler.state_ s.
Proof.
  unfold Scheduler.execute_co. destruct (Scheduler.task_queue_ s); simpl;
    intros [= <-]; reflexivity.
Qed.

Lemma schedule_live St (cb : St -> St) co tl st pool st' tr pool' :
  workers_live pool ->
  schedule St cb co tl st pool = Some (st', tr, pool') -> workers_live pool'.
Proof.
  intros Hlive. unfold schedule.
  destruct (in_scheduler tl && negb (tl_is_await tl));
    [| intros [= <- <- <-]; exact Hlive].
  destruct (checkout_worker pool) as [w pool1] eqn:Hco.
  destruct (checkout_live _ _ _ Hlive Hco) as [Hw Hlive1].
  destruct (negb _); [| discriminate].
  destruct (Scheduler.execute_co _ _ _) as [s2 |] eqn:He; [| discriminate].
  intros [= <- <- <-]. apply checkin_live; [| exact Hlive1]. simpl.
  rewrite (state_execute_co_quiet _ _ He).
  pose proof (Scheduler.state_apply_op size_bytes
                (Scheduler.op_schedule
                   (Scheduler.arg_coroutine (Some (Scheduler.co_ptr co))) [])
                (sch w)) as H.
  simpl in H. rewrite H. exact Hw.
Qed.

Lemma reachable_live pool : pool_reachable pool -> workers_live pool.
Proof.
  induction 1 as [min | | St cb co tl st pool st' tr pool' _ IH Hs].
  - intros w Hin. simpl in Hin. apply in_map_iff in Hin as (n & <- & _).
    simpl. discriminate.
  - intros w [].
  - eapply schedule_live; eassumption.
Qed.

(** the pools the program can have, also while callers of [await] are
    parked and workers are checked out: a constructed pool, and what
    [checkout_worker()] and [checkin_worker(w)] leave.  The scheduler of a
    worker is halted by the destructor of the worker only, so a worker
    that is checked in is not halted. *)
Inductive pool_in_use : await_threadpool -> Prop :=
| in_use_initial min : pool_in_use (initial_pool min)
| in_use_no_threads : pool_in_use no_threads_pool
| in_use_checkout pool :
    pool_in_use pool -> pool_in_use (snd (checkout_worker pool))
| in_use_checkin w pool :
    pool_in_use pool ->
    Scheduler.state_ (sch w) <> Scheduler.halted ->
    pool_in_use (checkin_worker w pool).


(** the calls of [await] made one at a time leave such pools *)
Lemma reachable_in_use pool : pool_reachable pool -> pool_in_use pool.
Proof.
  induction 1 as [min | | St cb co tl st pool st' tr pool' _ IH Hs].
  - apply in_use_initial.
  - apply in_use_no_threads.
  - revert Hs. unfold schedule.
    destruct (in_scheduler tl && negb (tl_is_await tl));
      [| intros [= <- <- <-]; exact IH].
    pose proof (in_use_checkout pool IH) as Hout.
    destruct (checkout_worker pool) as [w pool1].
    destruct (Scheduler.state_eqb (Scheduler.state_ (sch w)) Scheduler.halted) eqn:Hh;
      [discriminate |].
    cbn [negb].
    destruct (Scheduler.execute_co _ _ _) as [s2 |] eqn:He; [| discriminate].
    intros [= <- <- <-]. apply in_use_checkin; [exact Hout |]. simpl.
    rewrite (state_execute_co_quiet _ _ He).
    pose proof (Scheduler.state_apply_op size_bytes
                  (Scheduler.op_schedule
                     (Scheduler.arg_coroutine (Some (Scheduler.co_ptr co))) [])
                  (sch w)) as H.
    simpl in H. rewrite H. intros Heq. rewrite Heq in Hh. discriminate.
Qed.




Section Await.
(** the type of the arguments, the type of the result, and the type of
    what the callable can change *)
Variables A R W : Type.
(** the value of a default-constructed [R] *)
Variable default_R : R.

(** a callable that returns a value, or one that returns [void]: called
    with its arguments on a thread whose thread-locals are [tl], it
    changes what it can reach *)
Inductive callable : Type :=
| returns_value (f : thread_locals -> A -> W -> R * W)
| returns_void (f : thread_locals -> A -> W -> W).

(** [detail::convert_void_return]: [int] for a callable that returns
    [void] *)
Definition convert_void_return (c : callable) : Type :=
  match c with returns_value _ => R | returns_void _ => Z end.

(** [await_(std::false_type, cb, args...)]: [R r;], the lambda assigns
    [r = cb(args...)], and [r] is returned *)
Definition await_value (f : thread_locals -> A -> W -> R * W) (a : A) (co : nat)
    (tl : thread_locals) (during : list pool_op) (w : W) (pool : await_threadpool)
  : option (R * W * list event * await_threadpool) :=
  match schedule_shared (R * W) (fun tlc rw => f tlc a (snd rw)) co tl during
          (default_R, w) pool with
  | Some (rw, tr, pool') => Some (fst rw, snd rw, tr, pool')
  | None => None
  end.

(** [await_(std::true_type, cb, args...)]: the lambda calls
    [cb(args...)], and 0 is returned *)
Definition await_void (f : thread_locals -> A -> W -> W) (a : A) (co : nat)
    (tl : thread_locals) (during : list pool_op) (w : W) (pool : await_threadpool)
  : option (Z * W * list event * await_threadpool) :=
  match schedule_shared W (fun tlc w' => f tlc a w') co tl during w pool with
  | Some (w', tr, pool') => Some (0%Z, w', tr, pool')
  | None => None
  end.

(** [await(cb, args...)]: what it returns, what the callable has changed,
    what happened, and the pool afterwards *)
Definition await (c : callable) (a : A) (co : nat) (tl : thread_locals)
    (during : list pool_op) (w : W) (pool : await_threadpool)
  : option (convert_void_return c * W * list event * await_threadpool) :=
  match c with
  | returns_value f => await_value f a co tl during w pool
  | returns_void f => await_void f a co tl during w pool
  end.




End Await.
End SizeT.

(** a callable that returns the successor of its argument and counts its
    calls *)
Definition succ_counted : callable nat nat nat :=
  returns_value nat nat nat (fun _ n calls_made => (S n, S calls_made)).

(** a coroutine, named 7, in scheduler 1 awaits the successor of 41 on the
    default pool: the worker, named 0, runs it and is checked in again *)
Example await_on_worker :
  await 8 nat nat nat 0%nat succ_counted 41%nat 9
    (ThreadLocals 1 (Some 1%nat) (Some 1%nat) (Some 7%nat) None false)
    [] 0%nat (initial_pool 1)
  = Some (42%nat, 1%nat,
          [ev_checkout 0; ev_park;
           ev_call (ThreadLocals 0 (Some 0%nat) (Some 1%nat) (Some 9%nat) None true);
           ev_unpark; ev_checkin 0],
          initial_pool 1).
Proof. reflexivity. Qed.


(** the default pool while that callable runs: worker 0 is checked out *)
Definition worker_0_out : await_threadpool := snd (checkout_worker 8 (initial_pool 1)).

Example worker_0_out_empty : worker_0_out = MkPool 1 1 [] 1.
Proof. reflexivity. Qed.

(** a second coroutine, named 8, awaits while worker 0 is out: a worker,
    named 1, is made for the call; the first caller checks worker 0 in
    meanwhile, so worker 1 is dropped at the end *)
Example await_overlapping :
  await 8 nat nat nat 0%nat succ_counted 41%nat 10
    (ThreadLocals 1 (Some 1%nat) (Some 1%nat) (Some 8%nat) None false)
    [pool_checkin (new_worker 0)] 0%nat worker_0_out
  = Some (42%nat, 1%nat,
          [ev_checkout 1; ev_park;
           ev_call (ThreadLocals 1 (Some 1%nat) (Some 1%nat) (Some 10%nat) None true);
           ev_unpark; ev_checkin 1],
          MkPool 1 1 [new_worker 0] 2).
Proof. reflexivity. Qed.


End Await.

(** * More of the code

    Further properties of the code embedded above, and embeddings of
    [threadpool::worker] as [parallel] uses it, of [inc/mce/mutex.hpp], of
    [inc/mce/condition_variable.hpp], of the thread of a threadpool worker
    and of the iterator of [inc/mce/base_channel.hpp], with the same
    conventions.

    ** More on [scheduler::measurement] *)

Module MeasurementFacts.
Import Measurement.
Local Open Scope Z_scope.

Section Word.
Variable size_bytes : Z.
Hypothesis size_bytes_pos : 0 < size_bytes.

Lemma saturate_zero z : 0 <= z -> saturate size_bytes z = 0 -> z = 0.
Proof.
  intros Hz. unfold saturate. rewrite (right_mask_eq size_bytes size_bytes_pos).
  pose proof (half_width_pos size_bytes size_bytes_pos) as Hh.
  assert (2 <= 2 ^ half_width size_bytes).
  { change 2 with (2 ^ 1) at 1. apply Z.pow_le_mono_r; lia. }
  destruct (z >? 2 ^ half_width size_bytes - 1) eqn:E; lia.
Qed.

Lemma saturate_mono a b :
  0 <= a -> a <= b -> saturate size_bytes a <= saturate size_bytes b.
Proof.
  intros Ha Hab. unfold saturate.
  destruct (a >? right_mask size_bytes) eqn:Ea;
    destruct (b >? right_mask size_bytes) eqn:Eb; lia.
Qed.

(** X1: the packed word of a measurement is 0 exactly when both counts are
    0: the test [if(cur_weight)] of [threadpool::worker()] finds the
    schedulers with nothing enqueued and nothing scheduled, and no other. *)
Theorem weight_zero_iff_empty (e s : Z) :
  0 <= e -> 0 <= s ->
  to_size_t (make size_bytes e s) = 0 <-> e = 0 /\ s = 0.
Proof.
  intros He Hs. unfold to_size_t.
  rewrite (weight_make size_bytes size_bytes_pos) by assumption.
  pose proof (pow_half_pos size_bytes size_bytes_pos) as Hp.
  destruct (saturate_in_half size_bytes size_bytes_pos e He) as [He0 He1].
  destruct (saturate_in_half size_bytes size_bytes_pos s Hs) as [Hs0 Hs1].
  split.
  - intros H.
    assert (saturate size_bytes e = 0 /\ saturate size_bytes s = 0) as [H1 H2] by nia.
    split; apply saturate_zero; assumption.
  - intros [-> ->]. unfold saturate.
    rewrite (right_mask_eq size_bytes size_bytes_pos).
    destruct (0 >? 2 ^ half_width size_bytes - 1) eqn:E; lia.
Qed.

(** X2: the comparison of measurements never inverts the counts, also
    where they saturate: more enqueued and more scheduled never gives a
    smaller measurement. *)
Theorem measurement_monotone (e1 s1 e2 s2 : Z) :
  0 <= e1 -> e1 <= e2 -> 0 <= s1 -> s1 <= s2 ->
  leb (make size_bytes e1 s1) (make size_bytes e2 s2) = true
  /\ ltb (make size_bytes e2 s2) (make size_bytes e1 s1) = false.
Proof.
  intros He1 He Hs1 Hs. unfold leb, ltb.
  rewrite !(weight_make size_bytes size_bytes_pos) by lia.
  pose proof (pow_half_pos size_bytes size_bytes_pos) as Hp.
  pose proof (saturate_mono e1 e2 He1 He).
  pose proof (saturate_mono s1 s2 Hs1 Hs).
  split; [apply Z.leb_le | apply Z.ltb_ge]; nia.
Qed.

End Word.

Lemma weight_zero_iff_empty_witness :
  to_size_t (make 8 0 0) = 0 <-> 0 = 0 /\ 0 = 0.
Proof. apply (weight_zero_iff_empty 8); lia. Defined.

(** 2^32 + 7 enqueued saturates, and still is not below 5 enqueued *)
Lemma measurement_monotone_witness :
  leb (make 8 5 1) (make 8 4294967303 1) = true
  /\ ltb (make 8 4294967303 1) (make 8 5 1) = false.
Proof. apply (measurement_monotone 8); lia. Defined.

End MeasurementFacts.

(** ** More on [scheduler] *)

Module SchedulerFacts.
Import ThreadLocal Scheduler.
Local Open Scope Z_scope.

(** the coroutines named by the arguments of one [schedule] call, in the
    order of the arguments: null pointers are none, a container gives its
    non-null elements, and the first argument that is neither starts a
    callable that takes all the rest *)
Fixpoint coroutines_of (args : list arg) : list coroutine :=
  match args with
  | [] => []
  | arg_coroutine c :: rest => option_list c ++ coroutines_of rest
  | arg_container cs :: rest => omap id cs ++ coroutines_of rest
  | arg_other cb :: rest => [co_make cb rest]
  end.

(** [scheduled_context::notify()] (scheduler.hpp, 352-357): the parked
    coroutine goes back to the scheduler it ran in, if that still exists *)
Definition scheduled_context_notify (size_bytes : Z) (co : coroutine)
    (wsch : option scheduler) : option scheduler :=
  match wsch with
  | Some sch => Some (schedule size_bytes (arg_coroutine (Some co)) [] sch)
  | None => None
  end.

Lemma task_queue_tasks_available_notify_ s :
  task_queue_ (tasks_available_notify_ s) = task_queue_ s.
Proof.
  unfold tasks_available_notify_.
  destruct (waiting_for_tasks_ s); [| reflexivity].
  simpl. destruct (tasks_available_park_ s); reflexivity.
Qed.

Lemma scheduled_tasks_available_notify_ s :
  scheduled_ (tasks_available_notify_ s) = scheduled_ s.
Proof.
  unfold tasks_available_notify_.
  destruct (waiting_for_tasks_ s); [| reflexivity].
  simpl. destruct (tasks_available_park_ s); reflexivity.
Qed.

Lemma waiting_tasks_available_notify_ s :
  waiting_for_tasks_ (tasks_available_notify_ s) = false.
Proof.
  unfold tasks_available_notify_.
  destruct (waiting_for_tasks_ s) eqn:E; [| exact E].
  simpl. destruct (tasks_available_park_ s); reflexivity.
Qed.

Lemma task_queue_resume_notify_ s : task_queue_ (resume_notify_ s) = task_queue_ s.
Proof. unfold resume_notify_. destruct (waiting_for_resume_ s); reflexivity. Qed.

Lemma scheduled_resume_notify_ s : scheduled_ (resume_notify_ s) = scheduled_ s.
Proof. unfold resume_notify_. destruct (waiting_for_resume_ s); reflexivity. Qed.

Section SizeT.
Variable size_bytes : Z.
Hypothesis size_bytes_pos : 0 < size_bytes.

Lemma pow_width_pos : 0 < 2 ^ Measurement.size_width size_bytes.
Proof. apply Z.pow_pos_nonneg; unfold Measurement.size_width; lia. Qed.

Lemma wrap_is_size_t z : Measurement.is_size_t size_bytes (Measurement.wrap size_bytes z).
Proof. apply Z.mod_pos_bound, pow_width_pos. Qed.

Lemma wrap_succ z n :
  Measurement.wrap size_bytes (Measurement.wrap size_bytes (z + 1) + n)
  = Measurement.wrap size_bytes (z + (1 + n)).
Proof.
  unfold Measurement.wrap. rewrite Zplus_mod_idemp_l. f_equal. lia.
Qed.

Lemma wrap_small z :
  Measurement.is_size_t size_bytes z -> Measurement.wrap size_bytes z = z.
Proof. intros H. apply Z.mod_small. exact H. Qed.

(** the queue and the count after the coroutines [cs] were given to
    [schedule_coroutine_] one by one *)
Definition enqueued_all (cs : list coroutine) (s s' : scheduler) : Prop :=
  task_queue_ s' = task_queue_ s ++ cs
  /\ scheduled_ s'
     = Measurement.wrap size_bytes (scheduled_ s + Z.of_nat (length cs))
  /\ state_ s' = state_ s.

Lemma enqueued_all_nil s :
  Measurement.is_size_t size_bytes (scheduled_ s) -> enqueued_all [] s s.
Proof.
  intros H. split; [symmetry; apply app_nil_r |]. split; [| reflexivity].
  simpl. rewrite Z.add_0_r. symmetry. apply wrap_small. exact H.
Qed.

Lemma enqueued_all_cons c cs s s' :
  enqueued_all cs (schedule_coroutine_ size_bytes (Some c) s) s' ->
  enqueued_all (c :: cs) s s'.
Proof.
  intros (Hq & Hn & Hst). simpl in Hq, Hn, Hst. split; [| split].
  - rewrite Hq, <- app_assoc. reflexivity.
  - rewrite Hn, wrap_succ. f_equal. simpl length. lia.
  - exact Hst.
Qed.

Lemma enqueued_all_option c cs s s' :
  Measurement.is_size_t size_bytes (scheduled_ s) ->
  (forall s1, Measurement.is_size_t size_bytes (scheduled_ s1) ->
     s1 = schedule_coroutine_ size_bytes c s -> enqueued_all cs s1 s') ->
  enqueued_all (option_list c ++ cs) s s'.
Proof.
  intros Hs H. destruct c as [c |]; simpl.
  - apply enqueued_all_cons. apply H; [apply wrap_is_size_t | reflexivity].
  - apply H; [exact Hs | reflexivity].
Qed.

Lemma fold_schedule_coroutine_ cs : forall rest s s',
  Measurement.is_size_t size_bytes (scheduled_ s) ->
  (forall s1, Measurement.is_size_t size_bytes (scheduled_ s1) ->
     s1 = fold_left (fun s' c => schedule_coroutine_ size_bytes c s') cs s ->
     enqueued_all rest s1 s') ->
  enqueued_all (omap id cs ++ rest) s s'.
Proof.
  induction cs as [| c cs IH]; intros rest s s' Hs H; simpl.
  - apply H; [exact Hs | reflexivity].
  - destruct c as [c |]; simpl.
    + apply enqueued_all_cons. apply IH; [apply wrap_is_size_t |].
      intros s1 H1 ->. apply H; [exact H1 | reflexivity].
    + apply IH; [exact Hs |]. intros s1 H1 ->. apply H; [exact H1 | reflexivity].
Qed.

Lemma enqueued_all_notify cs s s1 :
  enqueued_all cs s s1 -> enqueued_all cs s (tasks_available_notify_ s1).
Proof.
  intros (Hq & Hn & Hst).
  unfold enqueued_all.
  rewrite task_queue_tasks_available_notify_, scheduled_tasks_available_notify_,
    state_tasks_available_notify_.
  auto.
Qed.

Lemma schedule__enqueues args : forall s,
  Measurement.is_size_t size_bytes (scheduled_ s) ->
  enqueued_all (coroutines_of args) s (schedule_ size_bytes args s).
Proof.
  induction args as [| a rest IH]; intros s Hs; simpl.
  - apply enqueued_all_notify, enqueued_all_nil, Hs.
  - destruct a as [c | cs | cb].
    + apply enqueued_all_option; [exact Hs |].
      intros s1 H1 ->. apply IH. exact H1.
    + apply fold_schedule_coroutine_; [exact Hs |].
      intros s1 H1 ->. apply IH. exact H1.
    + apply enqueued_all_notify, enqueued_all_cons, enqueued_all_nil.
      apply wrap_is_size_t.
Qed.

Lemma waiting_schedule_ args : forall s,
  waiting_for_tasks_ (schedule_ size_bytes args s) = false.
Proof.
  induction args as [| a rest IH]; intros s; simpl.
  - apply waiting_tasks_available_notify_.
  - destruct a; try apply IH. apply waiting_tasks_available_notify_.
Qed.

(** X3: one call [schedule(a, as...)] on a scheduler that is not halted
    appends the coroutines of its arguments to the run-queue in the order
    of the arguments, behind what was queued; the scheduled-count grows by
    their number (modulo the word); the lifecycle state stays, and a run
    loop waiting for tasks is notified. *)
Theorem schedule_keeps_argument_order (a : arg) (rest : list arg) (s : scheduler) :
  state_ s <> halted ->
  Measurement.is_size_t size_bytes (scheduled_ s) ->
  task_queue_ (schedule size_bytes a rest s)
  = task_queue_ s ++ coroutines_of (a :: rest)
  /\ scheduled_ (schedule size_bytes a rest s)
     = Measurement.wrap size_bytes
         (scheduled_ s + Z.of_nat (length (coroutines_of (a :: rest))))
  /\ state_ (schedule size_bytes a rest s) = state_ s
  /\ waiting_for_tasks_ (schedule size_bytes a rest s) = false.
Proof.
  intros Hh Hs. unfold schedule.
  destruct (state_eqb (state_ s) halted) eqn:E;
    [apply state_eqb_eq in E; contradiction |].
  cbn [negb].
  destruct (schedule__enqueues (a :: rest) s Hs) as (Hq & Hn & Hst).
  repeat split; try assumption.
  apply waiting_schedule_.
Qed.

Lemma wrap_succ_neq z :
  Measurement.is_size_t size_bytes z ->
  Measurement.wrap size_bytes (z + 1) <> z.
Proof.
  intros [H0 H1]. unfold Measurement.wrap.
  assert (2 <= 2 ^ Measurement.size_width size_bytes).
  { change 2 with (2 ^ 1) at 1. apply Z.pow_le_mono_r;
      unfold Measurement.size_width; lia. }
  destruct (Z.eq_dec (z + 1) (2 ^ Measurement.size_width size_bytes)) as [E | E].
  - rewrite E, Z_mod_same_full. lia.
  - rewrite Z.mod_small; lia.
Qed.

(** X4: a coroutine that parks and is unparked is back at the end of the
    run-queue, as after a yield, but the scheduled-count is one higher than
    before: the park branch of [execute_co] leaves [scheduled_] as it is,
    and [scheduled_context::notify()] goes through [schedule], which
    increments it. *)
Theorem park_unpark_raises_scheduled (c : coroutine) (q : list coroutine)
    (s : scheduler) :
  task_queue_ s = c :: q ->
  state_ s <> halted ->
  Measurement.is_size_t size_bytes (scheduled_ s) ->
  exists s1 s2 s3,
    execute_co size_bytes (Interval [] co_park) s = Some s1
    /\ task_queue_ s1 = q /\ scheduled_ s1 = scheduled_ s
    /\ scheduled_context_notify size_bytes c (Some s1) = Some s2
    /\ task_queue_ s2 = q ++ [c]
    /\ scheduled_ s2 = Measurement.wrap size_bytes (scheduled_ s + 1)
    /\ scheduled_ s2 <> scheduled_ s
    /\ execute_co size_bytes (Interval [] co_yield) s = Some s3
    /\ task_queue_ s3 = q ++ [c] /\ scheduled_ s3 = scheduled_ s.
Proof.
  intros Hq Hh Hs. unfold execute_co. rewrite Hq. cbn [outcome during apply_ops fold_left].
  rewrite Hq. cbn [tail].
  eexists _, _, _. split; [reflexivity |]. split; [reflexivity |].
  split; [reflexivity |]. split; [reflexivity |].
  destruct (schedule_enqueues size_bytes c (set_task_queue_ q s) Hh) as [H1 H2].
  split; [exact H1 |]. split; [exact H2 |]. split.
  - rewrite H2. apply wrap_succ_neq. exact Hs.
  - split; [reflexivity |]. split; reflexivity.
Qed.

Lemma halt_impl_keeps c s :
  state_ (halt_impl c s) = halted
  /\ task_queue_ (halt_impl c s) = task_queue_ s
  /\ scheduled_ (halt_impl c s) = scheduled_ s.
Proof.
  unfold halt_impl. destruct c.
  - rewrite state_resume_notify_, task_queue_resume_notify_, scheduled_resume_notify_.
    auto.
  - match goal with |- context [if ?b then _ else _] => destruct b end;
      cbn [state_ task_queue_ scheduled_ set_halt_complete_waiters_];
      rewrite state_tasks_available_notify_, task_queue_tasks_available_notify_,
        scheduled_tasks_available_notify_, state_resume_notify_,
        task_queue_resume_notify_, scheduled_resume_notify_; auto.
  - rewrite state_tasks_available_notify_, task_queue_tasks_available_notify_,
      scheduled_tasks_available_notify_, state_resume_notify_,
      task_queue_resume_notify_, scheduled_resume_notify_; auto.
Qed.

Lemma halted_apply_op o s :
  state_ s = halted ->
  state_ (apply_op size_bytes o s) = halted
  /\ task_queue_ (apply_op size_bytes o s) = task_queue_ s
  /\ scheduled_ (apply_op size_bytes o s) = scheduled_ s.
Proof.
  intros Hs. destruct o as [a rest | | | c | |]; cbn [apply_op]; auto.
  - unfold schedule. rewrite Hs. auto.
  - unfold suspend_impl. rewrite Hs. auto.
  - unfold resume_impl. rewrite Hs. auto.
  - apply halt_impl_keeps.
Qed.

Lemma halted_apply_ops ops : forall s,
  state_ s = halted ->
  state_ (apply_ops size_bytes ops s) = halted
  /\ task_queue_ (apply_ops size_bytes ops s) = task_queue_ s
  /\ scheduled_ (apply_ops size_bytes ops s) = scheduled_ s.
Proof.
  induction ops as [| o ops IH]; intros s Hs; [auto |].
  destruct (halted_apply_op o s Hs) as (H1 & H2 & H3).
  destruct (IH _ H1) as (H4 & H5 & H6).
  change (apply_ops size_bytes (o :: ops) s)
    with (apply_ops size_bytes ops (apply_op size_bytes o s)).
  rewrite H4, H5, H6. auto.
Qed.

Lemma run_halted parent_cs env s :
  state_ s = halted ->
  run size_bytes parent_cs env s = (returned false, halt_exit s).
Proof.
  intros Hs. unfold run.
  assert (Hr : resume_loop size_bytes env s = Some (env, s))
    by (destruct env; simpl; rewrite Hs; reflexivity).
  rewrite Hr, Hs. cbn [state_eqb state_rank Nat.eqb].
  unfold run_exit. rewrite Hs. reflexivity.
Qed.

(** X5: halted is final.  Whatever is called on a halted scheduler
    ([schedule], [suspend], [resume], [halt], in any number and order), it
    stays halted, with the run-queue and the scheduled-count it had; and
    [run()] on it returns [false] at once, running no coroutine. *)
Theorem halted_is_final (ops : list op) (parent_cs : option nat)
    (env : list interval) (s : scheduler) :
  state_ s = halted ->
  state_ (apply_ops size_bytes ops s) = halted
  /\ task_queue_ (apply_ops size_bytes ops s) = task_queue_ s
  /\ scheduled_ (apply_ops size_bytes ops s) = scheduled_ s
  /\ run size_bytes parent_cs env s = (returned false, halt_exit s).
Proof.
  intros Hs. destruct (halted_apply_ops ops s Hs) as (H1 & H2 & H3).
  repeat split; try assumption. apply run_halted. exact Hs.
Qed.

(** the coroutines that the root evaluation loop runs, in the order in
    which [execute_co] takes them from the front of the queue
    ([cur_co = task_queue_.front()]) *)
Fixpoint root_loop_runs (env : list interval) (s : scheduler) : list coroutine :=
  if can_continue_ s then
    match env with
    | [] => []
    | i :: env' =>
        match task_queue_ s with
        | cur_co :: _ =>
            cur_co :: match execute_co size_bytes i s with
                      | Some s' => root_loop_runs env' s'
                      | None => []
                      end
        | [] => root_loop_runs env' (tasks_available_wait_ size_bytes i s)
        end
    end
  else [].

Lemma set_task_queue_same s : set_task_queue_ (task_queue_ s) s = s.
Proof. destruct s; reflexivity. Qed.

(** X6: the root loop is a round robin.  With [k] coroutines or more in
    the queue and nothing else calling the scheduler, [k] runs that each
    end in a yield are runs of the first [k] coroutines of the queue, in
    queue order, each once; after them the queue is rotated by [k], and
    nothing else of the scheduler has changed. *)
Theorem root_loop_round_robin (k : nat) (s : scheduler) :
  can_continue_ s = true ->
  (k <= length (task_queue_ s))%nat ->
  root_loop size_bytes (repeat (Interval [] co_yield) k) s
  = loop_blocked
      (set_task_queue_ (drop k (task_queue_ s) ++ take k (task_queue_ s)) s)
  /\ root_loop_runs (repeat (Interval [] co_yield) k) s = take k (task_queue_ s).
Proof.
  revert s. induction k as [| k IH]; intros s Hc Hk.
  - cbn [repeat root_loop root_loop_runs]. rewrite Hc.
    rewrite drop_0, take_0, app_nil_r, set_task_queue_same. auto.
  - destruct (task_queue_ s) as [| c q] eqn:Hq; [simpl in Hk; lia |].
    simpl in Hk.
    cbn [repeat root_loop root_loop_runs]. rewrite Hc, Hq.
    cbn [length Nat.eqb negb]. unfold execute_co. rewrite Hq.
    cbn [outcome during apply_ops fold_left]. rewrite Hq. cbn [tail].
    assert (Hlen : (k <= length (task_queue_ (set_task_queue_ (q ++ [c]) s)))%nat).
    { cbn [task_queue_ set_task_queue_]. rewrite length_app. simpl. lia. }
    destruct (IH (set_task_queue_ (q ++ [c]) s) Hc Hlen) as [H1 H2].
    rewrite H1, H2. cbn [task_queue_ set_task_queue_].
    rewrite drop_app_le by lia. rewrite take_app_le by lia.
    cbn [drop take]. split; [| reflexivity].
    rewrite <- app_assoc. reflexivity.
Qed.

(** X7: a scheduler suspended while it runs keeps its coroutines.  When
    [suspend()] is called during the run of the first coroutine, which then
    yields, [run()] returns [true] with every coroutine still queued and
    the scheduled-count unchanged, and [resume()] makes the scheduler ready
    again with that queue. *)
Theorem suspend_keeps_coroutines (c : coroutine) (q : list coroutine)
    (s : scheduler) :
  state_ s = ready ->
  task_queue_ s = c :: q ->
  exists s1,
    run size_bytes None [Interval [op_suspend] co_yield] s = (returned true, s1)
    /\ state_ s1 = suspended
    /\ task_queue_ s1 = q ++ [c]
    /\ scheduled_ s1 = scheduled_ s
    /\ state_ (resume_impl s1) = ready
    /\ task_queue_ (resume_impl s1) = q ++ [c]
    /\ scheduled_ (resume_impl s1) = scheduled_ s.
Proof.
  intros Hs Hq. destruct s as [st hc n wr wt tp hw tq].
  cbn [state_ task_queue_] in Hs, Hq. subst st tq.
  destruct wt, tp; eexists; (split; [reflexivity |]); repeat split.
Qed.

(** X8: what [run()] leaves behind.  After it returned [false] the
    run-queue is empty, [halt_complete_] is set and no caller of [halt()]
    is left waiting for it; after it returned [true] the wait flags are
    reset and [halt_complete_] is clear, so that [run()] can be called
    again. *)
Theorem run_leaves_behind (parent_cs : option nat) (env : list interval)
    (s s' : scheduler) (b : bool) :
  run size_bytes parent_cs env s = (returned b, s') ->
  (b = false ->
     task_queue_ s' = [] /\ halt_complete_ s' = true
     /\ halt_complete_waiters_ s' = [])
  /\ (b = true ->
     halt_complete_ s' = false /\ waiting_for_resume_ s' = false
     /\ waiting_for_tasks_ s' = false /\ tasks_available_park_ s' = None).
Proof.
  intros Hrun.
  assert (H : exists s3, run_exit s3 = (returned b, s')).
  { unfold run in Hrun.
    destruct (resume_loop size_bytes env s) as [[env1 s1] |]; [| discriminate].
    destruct (state_eqb (state_ s1) ready); [| eauto].
    match type of Hrun with
    | match ?l with _ => _ end = _ => destruct l; try discriminate; eauto
    end. }
  destruct H as [s3 H]. unfold run_exit in H.
  destruct (state_eqb (state_ s3) suspended); injection H as <- <-;
    split; intros; try discriminate; repeat split.
Qed.

End SizeT.

Lemma size_t_8_1 : Measurement.is_size_t 8 1.
Proof. split; [lia | reflexivity]. Qed.

(** a coroutine, a container with a null pointer in it, and a callable
    with one argument, given to a scheduler that holds one coroutine *)
Lemma schedule_keeps_argument_order_witness :
  task_queue_
    (schedule 8 (arg_coroutine (Some (co_ptr 5)))
       [arg_container [None; Some (co_ptr 6)]; arg_other 3;
        arg_coroutine (Some (co_ptr 9))] suspend_example)
  = [co_make 1 []; co_ptr 5; co_ptr 6;
     co_make 3 [arg_coroutine (Some (co_ptr 9))]].
Proof.
  apply (schedule_keeps_argument_order 8 ltac:(lia)
           (arg_coroutine (Some (co_ptr 5)))
           [arg_container [None; Some (co_ptr 6)]; arg_other 3;
            arg_coroutine (Some (co_ptr 9))] suspend_example);
    [discriminate | exact size_t_8_1].
Defined.

Lemma park_unpark_raises_scheduled_witness :
  exists s1 s2,
    execute_co 8 (Interval [] co_park) suspend_example = Some s1
    /\ scheduled_context_notify 8 (co_make 1 []) (Some s1) = Some s2
    /\ scheduled_ suspend_example = 1 /\ scheduled_ s2 = 2
    /\ task_queue_ s2 = task_queue_ suspend_example.
Proof.
  destruct (park_unpark_raises_scheduled 8 ltac:(lia) (co_make 1 []) []
              suspend_example eq_refl ltac:(discriminate) size_t_8_1)
    as (s1 & s2 & s3 & H1 & _ & _ & H2 & H3 & H4 & _).
  exists s1, s2. split; [exact H1 |]. split; [exact H2 |].
  split; [reflexivity |]. split; [rewrite H4; reflexivity | rewrite H3; reflexivity].
Defined.

Lemma halted_is_final_witness :
  state_ (apply_ops 8 [op_resume; op_schedule (arg_other 4) []; op_suspend]
            halted_example) = halted
  /\ fst (run 8 None [] halted_example) = returned false.
Proof.
  destruct (halted_is_final 8 [op_resume; op_schedule (arg_other 4) []; op_suspend]
              None [] halted_example eq_refl) as (H1 & _ & _ & H2).
  split; [exact H1 | rewrite H2; reflexivity].
Defined.

(** three coroutines; two runs *)
Definition three_coroutines : scheduler :=
  set_state_ running
    (schedule 8 (arg_container [Some (co_ptr 1); Some (co_ptr 2); Some (co_ptr 3)])
       [] make).

Lemma root_loop_round_robin_witness :
  root_loop_runs 8 (repeat (Interval [] co_yield) 2) three_coroutines
  = [co_ptr 1; co_ptr 2]
  /\ root_loop 8 (repeat (Interval [] co_yield) 2) three_coroutines
     = loop_blocked (set_task_queue_ [co_ptr 3; co_ptr 1; co_ptr 2] three_coroutines).
Proof.
  destruct (root_loop_round_robin 8 2 three_coroutines eq_refl) as [H1 H2].
  - simpl. lia.
  - split; [exact H2 | exact H1].
Defined.

Lemma suspend_keeps_coroutines_witness :
  exists s1,
    run 8 None [Interval [op_suspend] co_yield] suspend_example = (returned true, s1)
    /\ task_queue_ (resume_impl s1) = [co_make 1 []].
Proof.
  destruct (suspend_keeps_coroutines 8 (co_make 1 []) [] suspend_example
              eq_refl eq_refl) as (s1 & H1 & _ & _ & _ & _ & H2 & _).
  exists s1. split; [exact H1 | exact H2].
Defined.

Lemma run_leaves_behind_witness :
  task_queue_ (snd (run 8 None [Interval [op_halt (from_coroutine 3)] co_yield]
                      suspend_example)) = []
  /\ halt_complete_waiters_
       (snd (run 8 None [Interval [op_halt (from_coroutine 3)] co_yield]
               suspend_example)) = [].
Proof.
  destruct (run_leaves_behind 8 None [Interval [op_halt (from_coroutine 3)] co_yield]
              suspend_example
              (snd (run 8 None [Interval [op_halt (from_coroutine 3)] co_yield]
                      suspend_example)) false eq_refl) as [H _].
  destruct (H eq_refl) as (H1 & _ & H2). split; [exact H1 | exact H2].
Defined.

End SchedulerFacts.

(** ** More on [threadpool] *)

Module ThreadpoolFacts.
Import ThreadLocal Threadpool.
Local Open Scope Z_scope.

Section SizeT.
Variable size_bytes : Z.
Hypothesis size_bytes_pos : 0 < size_bytes.
Variable w : world.

(** the load of a worker, as [worker()] reads it: one word *)
Definition weight (sch : nat) : Z :=
  Measurement.to_size_t (measure_of size_bytes w sch).

Lemma weight_nonneg sch :
  0 <= Scheduler.scheduled_ (schedulers w !!! sch) -> 0 <= weight sch.
Proof.
  intros H. unfold weight, measure_of, Scheduler.measure, Measurement.to_size_t.
  rewrite (Measurement.weight_make size_bytes size_bytes_pos) by lia.
  pose proof (Measurement.pow_half_pos size_bytes size_bytes_pos).
  destruct (Measurement.saturate_in_half size_bytes size_bytes_pos
              (Z.of_nat (length (Scheduler.task_queue_ (schedulers w !!! sch))))
              ltac:(lia)).
  destruct (Measurement.saturate_in_half size_bytes size_bytes_pos
              (Scheduler.scheduled_ (schedulers w !!! sch)) H).
  nia.
Qed.

(** what the scan has established after the workers [seen]: the candidate
    is one of them, and either it is empty, or it is the lightest seen *)
Definition scan_ok (seen : list nat) (st : scan) : Prop :=
  ret st ∈ seen
  /\ (if found_empty st then weight (ret st) = 0
      else least_weight st = measure_of size_bytes w (ret st)
           /\ forall x, x ∈ seen -> weight (ret st) <= weight x).

Lemma compare_ok range : forall seen st,
  found_empty st = false ->
  scan_ok seen st -> scan_ok (seen ++ range) (compare size_bytes w range st).
Proof.
  induction range as [| sch range IH]; intros seen st Hf Hok.
  - rewrite app_nil_r. exact Hok.
  - cbn [compare]. fold (weight sch).
    destruct (Z.eqb_spec (weight sch) 0) as [E | E]; cbn [negb].
    + split; [cbn [ret]; apply elem_of_app; right; left |].
      cbn [found_empty ret]. exact E.
    + replace (seen ++ sch :: range) with ((seen ++ [sch]) ++ range)
        by (rewrite <- app_assoc; reflexivity).
      destruct Hok as [Hin Hmin]. rewrite Hf in Hmin. destruct Hmin as [Hl Hmin].
      unfold Measurement.ltb.
      destruct (Z.ltb_spec (Measurement.weight_ (measure_of size_bytes w sch))
                  (Measurement.weight_ (least_weight st))) as [Hlt | Hge].
      * apply IH; [exact Hf |]. split; cbn [ret found_empty].
        -- apply elem_of_app. right. left.
        -- rewrite Hf. split; [reflexivity |].
           intros x Hx. apply elem_of_app in Hx. destruct Hx as [Hx | Hx].
           ++ specialize (Hmin x Hx). rewrite Hl in Hlt.
              unfold weight, Measurement.to_size_t in *. lia.
           ++ apply list_elem_of_singleton in Hx. subst x. lia.
      * apply IH; [exact Hf |]. split.
        -- apply elem_of_app. left. exact Hin.
        -- rewrite Hf. split; [exact Hl |].
           intros x Hx. apply elem_of_app in Hx. destruct Hx as [Hx | Hx].
           ++ apply Hmin, Hx.
           ++ apply list_elem_of_singleton in Hx. subst x. rewrite Hl in Hge.
              unfold weight, Measurement.to_size_t. exact Hge.
Qed.

(** X9: [worker()] returns a least loaded worker.  With the rotating index
    inside the vector and the loads as they are in [w] for the time of the
    scan, the scheduler returned is a worker of the pool whose measurement
    is less than or equal to that of every worker; the vector is unchanged
    and the index has moved on by one, around the end, so that it is
    inside the vector again. *)
Theorem worker_least_loaded (tp : threadpool) :
  (current_scheduler_idx_val_ tp < size tp)%nat ->
  (forall sch, sch ∈ workers_schedulers_ tp ->
     0 <= Scheduler.scheduled_ (schedulers w !!! sch)) ->
  fst (worker size_bytes w tp) ∈ workers_schedulers_ tp
  /\ (forall sch, sch ∈ workers_schedulers_ tp ->
        Measurement.leb (measure_of size_bytes w (fst (worker size_bytes w tp)))
          (measure_of size_bytes w sch) = true)
  /\ workers_schedulers_ (snd (worker size_bytes w tp)) = workers_schedulers_ tp
  /\ current_scheduler_idx_val_ (snd (worker size_bytes w tp))
     = ((current_scheduler_idx_val_ tp + 1) mod size tp)%nat
  /\ (current_scheduler_idx_val_ (snd (worker size_bytes w tp))
      < size (snd (worker size_bytes w tp)))%nat.
Proof.
  intros Hidx Hpos. unfold worker, current_scheduler_idx_. cbn [fst snd].
  set (ws := workers_schedulers_ tp) in *.
  set (i := current_scheduler_idx_val_ tp) in *.
  unfold size in *. fold ws in Hidx |- *.
  assert (Hi : ws !! i = Some (ws !!! i))
    by (apply list_lookup_lookup_total_lt; exact Hidx).
  assert (Hsplit : ws = take i ws ++ (ws !!! i) :: drop (S i) ws)
    by (symmetry; apply take_drop_middle; exact Hi).
  set (st0 := MkScan (measure_of size_bytes w (ws !!! i)) (ws !!! i) false).
  assert (H0 : scan_ok [ws !!! i] st0).
  { split; [left |]. cbn [found_empty ret st0]. split; [reflexivity |].
    intros x Hx. apply list_elem_of_singleton in Hx. subst x. lia. }
  pose proof (compare_ok (drop (S i) ws) _ st0 eq_refl H0) as H1.
  set (st1 := compare size_bytes w (drop (S i) ws) st0) in *.
  set (st2 := if negb (found_empty st1) && negb (Nat.eqb i 0)
              then compare size_bytes w (take i ws) st1 else st1).
  assert (Hsub : forall seen x, x ∈ seen ->
            seen = [ws !!! i] ++ drop (S i) ws
            \/ seen = ([ws !!! i] ++ drop (S i) ws) ++ take i ws -> x ∈ ws).
  { intros seen x Hx Hseen. rewrite Hsplit.
    destruct Hseen as [-> | ->]; repeat rewrite elem_of_app in Hx;
      rewrite elem_of_app, elem_of_cons; rewrite list_elem_of_singleton in Hx;
      tauto. }
  assert (H2 : exists seen, scan_ok seen st2
            /\ (forall x, x ∈ seen -> x ∈ ws)
            /\ (found_empty st2 = false -> forall x, x ∈ ws -> x ∈ seen)).
  { unfold st2. destruct (found_empty st1) eqn:Hf; cbn [negb andb].
    - exists ([ws !!! i] ++ drop (S i) ws). split; [exact H1 |].
      split; [intros x Hx; eapply Hsub; eauto |]. rewrite Hf. discriminate.
    - destruct (Nat.eqb_spec i 0) as [E | E]; cbn [negb].
      + exists ([ws !!! i] ++ drop (S i) ws). split; [exact H1 |].
        split; [intros x Hx; eapply Hsub; eauto |].
        intros _ x Hx. rewrite Hsplit in Hx. rewrite E in Hx |- *.
        rewrite take_0 in Hx. exact Hx.
      + exists (([ws !!! i] ++ drop (S i) ws) ++ take i ws).
        split; [apply compare_ok; assumption |].
        split; [intros x Hx; eapply Hsub; eauto |].
        intros _ x Hx. rewrite Hsplit in Hx.
        repeat rewrite elem_of_app. rewrite list_elem_of_singleton.
        rewrite elem_of_app, elem_of_cons in Hx. tauto. }
  destruct H2 as (seen & [Hin Hmin] & Hseen & Hall).
  split; [apply Hseen, Hin |]. split.
  - intros sch Hsch. unfold Measurement.leb. apply Z.leb_le.
    change (weight (ret st2) <= weight sch).
    destruct (found_empty st2).
    + rewrite Hmin. apply weight_nonneg, Hpos, Hsch.
    + apply Hmin, Hall; [reflexivity | exact Hsch].
  - split; [reflexivity |]. cbn [current_scheduler_idx_val_ workers_schedulers_].
    destruct (Nat.ltb_spec (i + 1) (length ws)) as [Hlt | Hge].
    + rewrite Nat.mod_small by lia. split; [reflexivity | lia].
    + assert ((i + 1)%nat = length ws) as -> by lia.
      rewrite Nat.Div0.mod_same. split; [reflexivity | lia].
Qed.

(** [detail::parallel_algorithm()] (threadpool.hpp, 352-357): [worker()]
    of the threadpool the calling thread is a worker of, or of the default
    threadpool; [tps] are the threadpools by name *)
Definition parallel_algorithm (tps : gmap nat threadpool) (tl : thread_locals)
  : nat * threadpool :=
  if in_threadpool tl
  then worker size_bytes w
         (default (default_threadpool w) (tl_this_threadpool tl ≫= (tps !!.)))
  else worker size_bytes w (default_threadpool w).

(** [parallel(args...)]: the schedulers after the call *)
Definition parallel (a : Scheduler.arg) (rest : list Scheduler.arg)
    (tps : gmap nat threadpool) (tl : thread_locals)
  : gmap nat Scheduler.scheduler :=
  let target := fst (parallel_algorithm tps tl) in
  <[target := Scheduler.schedule size_bytes a rest (schedulers w !!! target)]>
    (schedulers w).

(** the threadpool [parallel] looks at *)
Definition parallel_pool (tps : gmap nat threadpool) (tl : thread_locals)
  : threadpool :=
  if in_threadpool tl
  then default (default_threadpool w) (tl_this_threadpool tl ≫= (tps !!.))
  else default_threadpool w.

(** X10: [parallel] schedules on a least loaded worker, of the threadpool
    of the calling thread if it is a worker thread, else of the default
    threadpool: with the loads as they are in [w], the scheduler that takes
    the arguments is a worker of that pool whose measurement is less than
    or equal to that of every worker of the pool, and no other scheduler
    changes. *)
Theorem parallel_least_loaded (a : Scheduler.arg) (rest : list Scheduler.arg)
    (tps : gmap nat threadpool) (tl : thread_locals) :
  let tp := parallel_pool tps tl in
  let target := fst (parallel_algorithm tps tl) in
  (current_scheduler_idx_val_ tp < size tp)%nat ->
  (forall sch, sch ∈ workers_schedulers_ tp ->
     0 <= Scheduler.scheduled_ (schedulers w !!! sch)) ->
  target ∈ workers_schedulers_ tp
  /\ (forall sch, sch ∈ workers_schedulers_ tp ->
        Measurement.leb (measure_of size_bytes w target)
          (measure_of size_bytes w sch) = true)
  /\ parallel a rest tps tl !! target
     = Some (Scheduler.schedule size_bytes a rest (schedulers w !!! target))
  /\ (forall sch, sch <> target ->
        parallel a rest tps tl !! sch = schedulers w !! sch).
Proof.
  intros tp target Hidx Hpos.
  assert (Ht : target = fst (worker size_bytes w tp)).
  { unfold target, tp, parallel_algorithm, parallel_pool.
    destruct (in_threadpool tl); reflexivity. }
  destruct (worker_least_loaded tp Hidx Hpos) as (H1 & H2 & _).
  rewrite <- Ht in H1, H2. split; [exact H1 |]. split; [exact H2 |].
  unfold parallel. fold target. split.
  - apply lookup_insert_eq.
  - intros sch Hne. apply lookup_insert_ne. congruence.
Qed.

End SizeT.

(** four workers with 2, 1, 3 and 1 coroutines, the index at worker 2 *)
Definition loaded (n : nat) : Scheduler.scheduler :=
  Scheduler.schedule 8
    (Scheduler.arg_container (repeat (Some (Scheduler.co_ptr 1)) n)) []
    Scheduler.make.

Definition four_workers : world :=
  MkWorld
    (<[20%nat := loaded 2]> (<[21%nat := loaded 1]>
       (<[22%nat := loaded 3]> (<[23%nat := loaded 1]> ∅))))
    (MkThreadpool [20%nat; 21%nat; 22%nat; 23%nat] 2).

Lemma worker_least_loaded_witness :
  fst (worker 8 four_workers (default_threadpool four_workers)) = 23%nat
  /\ (forall sch, sch ∈ [20%nat; 21%nat; 22%nat; 23%nat] ->
        Measurement.leb (measure_of 8 four_workers 23)
          (measure_of 8 four_workers sch) = true)
  /\ current_scheduler_idx_val_
       (snd (worker 8 four_workers (default_threadpool four_workers))) = 3%nat.
Proof.
  destruct (worker_least_loaded 8 ltac:(lia) four_workers
              (default_threadpool four_workers)) as (_ & H & _ & H' & _).
  - vm_compute. lia.
  - intros sch Hsch. cbn [four_workers default_threadpool workers_schedulers_] in Hsch.
    repeat (apply elem_of_cons in Hsch; destruct Hsch as [-> | Hsch]);
      try (vm_compute; discriminate).
    apply not_elem_of_nil in Hsch. contradiction.
  - split; [vm_compute; reflexivity |]. split; [exact H | exact H'].
Defined.

(** from a thread that is no worker, the default threadpool is looked at *)
Lemma parallel_least_loaded_witness :
  fst (parallel_algorithm 8 four_workers ∅ raw_thread) = 23%nat
  /\ parallel 8 four_workers (Scheduler.arg_other 1) [] ∅ raw_thread !! 23%nat
     = Some (Scheduler.schedule 8 (Scheduler.arg_other 1) [] (loaded 1)).
Proof.
  destruct (parallel_least_loaded 8 ltac:(lia) four_workers
              (Scheduler.arg_other 1) [] ∅ raw_thread) as (_ & _ & H & _).
  - vm_compute. lia.
  - intros sch Hsch.
    change (sch ∈ [20%nat; 21%nat; 22%nat; 23%nat]) in Hsch.
    repeat (apply elem_of_cons in Hsch; destruct Hsch as [-> | Hsch]);
      try (vm_compute; discriminate).
    apply not_elem_of_nil in Hsch. contradiction.
  - split; [vm_compute; reflexivity |]. exact H.
Defined.

End ThreadpoolFacts.

(** ** More on the channels

    *** The frames of the calls that wait *)

Module ChannelFacts.
Import ThreadLocal Parkable Channel.

Section Frames.
Variable T : Type.

(** a call that was not unparked has not failed: [failed] is set only by
    the queue entry called with a null pointer, which unparks *)
Definition settled (f : frame T) : Prop :=
  notified (p f) = false -> failed f = false.

Definition frames_ok (fr : gmap nat (frame T)) : Prop :=
  forall id f, fr !! id = Some f -> settled f.

Lemma unpark_notified (q q' : parkable) : unpark q = Some q' -> notified q' = true.
Proof. unfold unpark. destruct (wc q); [intros [= <-]; reflexivity | discriminate]. Qed.

Lemma frames_ok_empty : frames_ok ∅.
Proof. intros id f H. rewrite lookup_empty in H. discriminate. Qed.

Lemma frames_ok_insert id f fr : settled f -> frames_ok fr -> frames_ok (<[id := f]> fr).
Proof.
  intros Hf Hfr id' f'. destruct (decide (id = id')) as [-> | Hne].
  - rewrite lookup_insert_eq. intros [= <-]. exact Hf.
  - rewrite lookup_insert_ne by exact Hne. apply Hfr.
Qed.

Lemma frames_ok_delete id fr : frames_ok fr -> frames_ok (delete id fr).
Proof.
  intros Hfr id' f'. destruct (decide (id = id')) as [-> | Hne].
  - rewrite lookup_delete_eq. discriminate.
  - rewrite lookup_delete_ne by exact Hne. apply Hfr.
Qed.

Lemma settled_notified (b : bool) (q : parkable) (v : T) :
  notified q = true -> settled (MkFrame b q v).
Proof. intros H H'. simpl in H'. congruence. Qed.

Lemma settled_park_frame tl (v : T) : settled (park_frame tl v).
Proof. intros _. reflexivity. Qed.

Lemma frames_ok_call_null id fr fr' :
  frames_ok fr -> call_null id fr = Some fr' -> frames_ok fr'.
Proof.
  intros Hfr. unfold call_null. intros H. simplify_option_eq.
  apply frames_ok_insert; [| exact Hfr].
  apply settled_notified. eapply unpark_notified; eassumption.
Qed.

Lemma frames_ok_call_value id v fr fr' :
  frames_ok fr -> call_value id v fr = Some fr' -> frames_ok fr'.
Proof.
  intros Hfr. unfold call_value. intros H. simplify_option_eq.
  apply frames_ok_insert; [| exact Hfr].
  apply settled_notified. eapply unpark_notified; eassumption.
Qed.

Lemma frames_ok_unpark_queue lst : forall fr fr',
  frames_ok fr -> unpark_queue lst fr = Some fr' -> frames_ok fr'.
Proof.
  induction lst as [| id lst IH]; intros fr fr' Hfr H; simpl in H.
  - injection H as <-. exact Hfr.
  - simplify_option_eq. eapply IH; [| eassumption].
    eapply frames_ok_call_null; eassumption.
Qed.

Lemma waiting_not_failed fr id :
  frames_ok fr -> waits fr id ->
  exists f, fr !! id = Some f /\ failed f = false /\ is_Some (wc (p f)).
Proof.
  intros Hok (f & Hf & Hwc & Hn). exists f. split; [exact Hf |].
  split; [apply (Hok id f Hf Hn) | exact Hwc].
Qed.

End Frames.

Arguments settled {T} _.
Arguments frames_ok {T} _.

Ltac frames_tac :=
  repeat match goal with
  | |- frames_ok (<[_ := _]> _) => apply frames_ok_insert
  | |- frames_ok (delete _ _) => apply frames_ok_delete
  | |- frames_ok ∅ => apply frames_ok_empty
  | |- settled (park_frame _ _) => apply settled_park_frame
  | |- settled (MkFrame _ _ _) =>
      apply settled_notified; eapply unpark_notified; eassumption
  | H : unpark_queue _ ?fr = Some ?fr' |- frames_ok ?fr' =>
      eapply frames_ok_unpark_queue; [| exact H]
  | H : call_value _ _ ?fr = Some ?fr' |- frames_ok ?fr' =>
      eapply frames_ok_call_value; [| exact H]
  | |- _ => assumption
  end.

Ltac closed_absurd :=
  match goal with
  | H : negb ?x = true, H' : ?x = true |- _ => rewrite H' in H; discriminate
  | H : ?x = false, H' : ?x = true |- _ => rewrite H' in H; discriminate
  end.

End ChannelFacts.

(** *** [buffered_channel] *)

Module BufferedFacts.
Import ThreadLocal Parkable Channel Buffered ChannelFacts.

Ltac proj_ctx :=
  cbn [closed_flag buf cap parked_send parked_recv send_frames recv_frames
       set_buf set_parked_send set_parked_recv set_send_frames set_recv_frames] in *.

Section Chan.
Variable T : Type.

(** what holds of a channel besides [inv]: every call that still waits
    has not failed, and nothing waits on a closed channel *)
Definition facts (c : buffered_channel_context T) : Prop :=
  frames_ok (send_frames T c) /\ frames_ok (recv_frames T c)
  /\ (closed_flag T c = true -> parked_send T c = [] /\ parked_recv T c = []).

Ltac facts_tac :=
  unfold facts in *; repeat (case_match; simplify_option_eq); proj_ctx;
  repeat split; intros; try discriminate; try congruence; frames_tac;
  try tauto; try closed_absurd.

Lemma buffered_wake_recv_facts c c' :
  wake_recv T c = Some c' ->
  cap T c' = cap T c /\ closed_flag T c' = closed_flag T c
  /\ (facts c -> facts c').
Proof. unfold wake_recv, call_recv_entry. intros H. facts_tac. Qed.

Lemma buffered_wake_send_facts c c' :
  wake_send T c = Some c' ->
  cap T c' = cap T c /\ closed_flag T c' = closed_flag T c
  /\ (facts c -> facts c').
Proof. unfold wake_send, call_send_entry, push_back. intros H. facts_tac. Qed.

Lemma buffered_push_back_facts v c :
  cap T (push_back T v c) = cap T c
  /\ closed_flag T (push_back T v c) = closed_flag T c
  /\ (facts c -> facts (push_back T v c)).
Proof.
  unfold push_back. repeat case_match;
    (split; [reflexivity | split; [reflexivity | intros H'; exact H']]).
Qed.

Lemma buffered_send__facts tl id s block c o c' :
  send_ T tl id s block c = Some (o, c') ->
  cap T c' = cap T c /\ closed_flag T c' = closed_flag T c
  /\ (facts c -> facts c').
Proof.
  unfold send_. intros H.
  destruct (closed_flag T c) eqn:Hcl; [simplify_eq; auto |].
  destruct (full T c); [destruct block; simplify_eq; proj_ctx |].
  - split; [reflexivity |]. split; [exact Hcl |].
    unfold facts. proj_ctx. intros (H1 & H2 & H3).
    repeat split; frames_tac; intros; closed_absurd.
  - auto.
  - destruct (wake_recv T (push_back T s c)) as [c1 |] eqn:Hw; [| discriminate].
    simpl in H. simplify_eq.
    destruct (buffered_wake_recv_facts _ _ Hw) as (H1 & H2 & H3).
    destruct (buffered_push_back_facts s c) as (H4 & H5 & H6).
    split; [congruence |]. split; [congruence | auto].
Qed.

Lemma buffered_recv_facts tl id r block c o c' :
  recv T tl id r block c = Some (o, c') ->
  cap T c' = cap T c /\ closed_flag T c' = closed_flag T c
  /\ (facts c -> facts c').
Proof.
  unfold recv. intros H.
  destruct (closed_flag T c) eqn:Hcl; [simplify_eq; auto |].
  destruct (buf T c) as [| v b]; [destruct block; simplify_eq; proj_ctx |].
  - split; [reflexivity |]. split; [exact Hcl |].
    unfold facts. proj_ctx. intros (H1 & H2 & H3).
    repeat split; frames_tac; intros; closed_absurd.
  - auto.
  - destruct (wake_send T (set_buf T b c)) as [c1 |] eqn:Hw; [| discriminate].
    simpl in H. simplify_eq.
    destruct (buffered_wake_send_facts _ _ Hw) as (H1 & H2 & H3).
    split; [exact H1 |]. split; [rewrite H2; exact Hcl | auto].
Qed.

Lemma buffered_send_after_park_facts tl id c o c' :
  send_after_park T tl id c = Some (o, c') ->
  cap T c' = cap T c /\ closed_flag T c' = closed_flag T c
  /\ (facts c -> facts c').
Proof.
  unfold send_after_park. intros H.
  destruct (send_frames T c !! id) as [f |]; [| discriminate]. simpl in H.
  assert (H0 : facts c -> facts (set_send_frames T (delete id (send_frames T c)) c)).
  { unfold facts. proj_ctx. intros (H1 & H2 & H3).
    split; [frames_tac |]. split; [frames_tac | exact H3]. }
  destruct (failed f); [simplify_eq; auto |].
  destruct (wake_recv T _) as [c1 |] eqn:Hw; [| discriminate].
  simpl in H. simplify_eq.
  destruct (buffered_wake_recv_facts _ _ Hw) as (H1 & H2 & H3).
  split; [exact H1 |]. split; [exact H2 | auto].
Qed.

Lemma buffered_recv_after_park_facts tl id c o c' :
  recv_after_park T tl id c = Some (o, c') ->
  cap T c' = cap T c /\ closed_flag T c' = closed_flag T c
  /\ (facts c -> facts c').
Proof.
  unfold recv_after_park. intros H.
  destruct (recv_frames T c !! id) as [f |]; [| discriminate]. simpl in H.
  assert (H0 : facts c -> facts (set_recv_frames T (delete id (recv_frames T c)) c)).
  { unfold facts. proj_ctx. intros (H1 & H2 & H3).
    split; [frames_tac |]. split; [frames_tac | exact H3]. }
  destruct (failed f); [simplify_eq; auto |].
  destruct (wake_send T _) as [c1 |] eqn:Hw; [| discriminate].
  simpl in H. simplify_eq.
  destruct (buffered_wake_send_facts _ _ Hw) as (H1 & H2 & H3).
  split; [exact H1 |]. split; [exact H2 | auto].
Qed.

Lemma buffered_close_facts c c' :
  close T c = Some c' -> cap T c' = cap T c /\ (facts c -> facts c').
Proof.
  unfold close. intros H.
  destruct (unpark_queue (parked_send T c) (send_frames T c)) as [sf |] eqn:Hs;
    [| discriminate].
  destruct (unpark_queue (parked_recv T c) (recv_frames T c)) as [rf |] eqn:Hr;
    [| discriminate].
  simpl in H. injection H as <-. split; [reflexivity |].
  unfold facts. proj_ctx. intros (H1 & H2 & H3).
  split; [frames_tac |]. split; [frames_tac | auto].
Qed.

Lemma buffered_step_facts k c c' :
  step T k c c' -> cap T c' = cap T c /\ (facts c -> facts c').
Proof.
  intros [_ [o H]]. destruct k; simpl in H.
  - destruct (send_ T tl id s block c) as [[o' c0] |] eqn:E; [| discriminate].
    simpl in H. simplify_eq. destruct (buffered_send__facts _ _ _ _ _ _ _ E) as (? & ? & ?). auto.
  - destruct (send_after_park T tl id c) as [[o' c0] |] eqn:E; [| discriminate].
    simpl in H. simplify_eq. destruct (buffered_send_after_park_facts _ _ _ _ _ E) as (? & ? & ?). auto.
  - destruct (recv T tl id r block c) as [[o' c0] |] eqn:E; [| discriminate].
    simpl in H. simplify_eq. destruct (buffered_recv_facts _ _ _ _ _ _ _ E) as (? & ? & ?). auto.
  - destruct (recv_after_park T tl id c) as [[o' c0] |] eqn:E; [| discriminate].
    simpl in H. simplify_eq. destruct (buffered_recv_after_park_facts _ _ _ _ _ E) as (? & ? & ?). auto.
  - destruct (close T c) as [c0 |] eqn:E; [| discriminate].
    simpl in H. simplify_eq. apply buffered_close_facts. exact E.
  - simplify_eq. auto.
Qed.

Lemma buffered_facts_construct sz : facts (construct T sz).
Proof.
  repeat split; try discriminate; apply frames_ok_empty.
Qed.

Lemma buffered_reachable_facts c : reachable T c -> facts c.
Proof.
  induction 1 as [sz | k c c' _ IH Hstep]; [apply buffered_facts_construct |].
  apply (buffered_step_facts k c c' Hstep). exact IH.
Qed.

(** X11: on a closed buffered channel, at the boundary of its operations,
    no call waits in either queue; a second [close()] changes nothing; and
    every [send] and [recv], blocking or not, returns [closed] at once,
    without a yield, leaving the channel and the caller's variable as they
    were. *)
Theorem buffered_closed_is_quiet (c : buffered_channel_context T) :
  reachable T c -> closed_flag T c = true ->
  parked_send T c = [] /\ parked_recv T c = []
  /\ close T c = Some c
  /\ (forall tl id s block,
        send_ T tl id s block c = Some (ret Channel.closed s [ev_lock; ev_unlock], c))
  /\ (forall tl id r block,
        recv T tl id r block c = Some (ret Channel.closed r [ev_lock; ev_unlock], c)).
Proof.
  intros Hr Hcl. destruct (buffered_reachable_facts c Hr) as (_ & _ & Hq).
  destruct (Hq Hcl) as [Hs Hrq]. split; [exact Hs |]. split; [exact Hrq |].
  split; [| split].
  - unfold close. rewrite Hs, Hrq. simpl. destruct c; simpl in *. congruence.
  - intros. unfold send_. rewrite Hcl. reflexivity.
  - intros. unfold recv. rewrite Hcl. reflexivity.
Qed.

Lemma buffered_steps_cap ok c c' : steps T ok c c' -> cap T c' = cap T c.
Proof.
  induction 1 as [| k c' c'' _ IH _ Hstep]; [reflexivity |].
  destruct (buffered_step_facts k c' c'' Hstep) as [H _]. congruence.
Qed.

(** X12: the capacity of a buffered channel is fixed at its construction,
    [sz] or 1 when [sz] is 0; whatever is done with the channel, [size()]
    stays within it, [reserve()] is what is missing, and [full()] is true
    exactly when nothing is. *)
Theorem buffered_capacity_fixed (sz : nat) ok (c : buffered_channel_context T) :
  steps T ok (construct T sz) c ->
  capacity T c = Nat.max sz 1
  /\ size T c <= capacity T c
  /\ size T c + reserve T c = capacity T c
  /\ (full T c = true <-> reserve T c = 0).
Proof.
  intros Hst.
  assert (Hr : reachable T c)
    by (eapply buffered_steps_reachable; [apply reach_construct | exact Hst]).
  destruct (buffered_reachable_inv T c Hr) as [_ (Hcap & Hlen & _)].
  pose proof (buffered_steps_cap _ _ _ Hst) as Hc.
  unfold capacity, size, reserve, full. rewrite Hc. cbn [cap construct].
  rewrite Hc in Hlen. cbn [cap construct] in Hlen.
  destruct (Nat.ltb_spec sz 1); (split; [lia |]); (split; [lia |]);
    (split; [lia |]); rewrite Nat.eqb_eq; lia.
Qed.

(** [send] called by one caller for each value of [vs] in turn, and [recv]
    called [n] times; [None] when a call waits or throws *)
Fixpoint send_all (tl : thread_locals) (vs : list T) (c : buffered_channel_context T)
  : option (list result * buffered_channel_context T) :=
  match vs with
  | [] => Some ([], c)
  | v :: vs' =>
      match send_ T tl 0 v true c with
      | Some (ret res _ _, c1) =>
          '(rs, c2) ← send_all tl vs' c1; Some (res :: rs, c2)
      | _ => None
      end
  end.

Fixpoint recv_n (tl : thread_locals) (n : nat) (r : T) (c : buffered_channel_context T)
  : option (list (result * T) * buffered_channel_context T) :=
  match n with
  | 0 => Some ([], c)
  | S n' =>
      match recv T tl 0 r true c with
      | Some (ret res out _, c1) =>
          '(rs, c2) ← recv_n tl n' out c1; Some ((res, out) :: rs, c2)
      | _ => None
      end
  end.

Lemma buffered_send_room tl id v block c :
  closed_flag T c = false -> parked_recv T c = [] -> length (buf T c) < cap T c ->
  send_ T tl id v block c
  = Some (ret success v [ev_lock; ev_unlock; ev_yield (yield tl)],
          set_buf T (buf T c ++ [v]) c).
Proof.
  intros Hcl Hpr Hlt. unfold send_, push_back, full. rewrite Hcl.
  destruct (Nat.eqb_spec (length (buf T c)) (cap T c)) as [E | _]; [lia |].
  unfold wake_recv. proj_ctx. rewrite Hcl, Hpr. reflexivity.
Qed.

Lemma buffered_recv_head tl id r block c v b :
  closed_flag T c = false -> parked_send T c = [] -> buf T c = v :: b ->
  recv T tl id r block c
  = Some (ret success v [ev_lock; ev_unlock; ev_yield (yield tl)], set_buf T b c).
Proof.
  intros Hcl Hps Hb. unfold recv. rewrite Hcl, Hb.
  unfold wake_send. proj_ctx. rewrite Hcl, Hps. reflexivity.
Qed.

Lemma buffered_send_all_room tl vs : forall c,
  closed_flag T c = false -> parked_recv T c = [] ->
  length (buf T c) + length vs <= cap T c ->
  send_all tl vs c
  = Some (repeat success (length vs), set_buf T (buf T c ++ vs) c).
Proof.
  induction vs as [| v vs IH]; intros c Hcl Hpr Hlen.
  - simpl. rewrite app_nil_r. destruct c; reflexivity.
  - simpl in Hlen. cbn [send_all]. rewrite buffered_send_room by (assumption || lia).
    rewrite IH; proj_ctx; try assumption.
    + simpl. rewrite <- app_assoc. reflexivity.
    + rewrite length_app. simpl. lia.
Qed.

Lemma buffered_recv_n_all tl l : forall r c,
  closed_flag T c = false -> parked_send T c = [] -> buf T c = l ->
  recv_n tl (length l) r c
  = Some (map (fun v => (success, v)) l, set_buf T [] c).
Proof.
  induction l as [| v l IH]; intros r c Hcl Hps Hb.
  - simpl. rewrite <- Hb. destruct c; reflexivity.
  - cbn [length recv_n]. rewrite (buffered_recv_head tl 0 r true c v l Hcl Hps Hb).
    rewrite (IH v (set_buf T l c)) by (proj_ctx; auto). reflexivity.
Qed.

(** X13: a buffered channel is first in, first out.  On an open channel
    with nobody waiting, as many sends as there is room all return
    [success] without waiting and leave the values behind those already
    buffered, in the order sent; receiving then returns all buffered values
    in that order, each with [success], and empties the buffer. *)
Theorem buffered_fifo (tl tl' : thread_locals) (vs : list T) (r : T)
    (c : buffered_channel_context T) :
  closed_flag T c = false ->
  parked_send T c = [] -> parked_recv T c = [] ->
  length (buf T c) + length vs <= cap T c ->
  send_all tl vs c
  = Some (repeat success (length vs), set_buf T (buf T c ++ vs) c)
  /\ recv_n tl' (length (buf T c ++ vs)) r (set_buf T (buf T c ++ vs) c)
     = Some (map (fun v => (success, v)) (buf T c ++ vs), set_buf T [] c).
Proof.
  intros Hcl Hps Hpr Hlen. split; [apply buffered_send_all_room; assumption |].
  rewrite (buffered_recv_n_all tl' (buf T c ++ vs) r (set_buf T (buf T c ++ vs) c));
    proj_ctx; auto.
Qed.

(** X14: a [recv] on a buffer on which senders wait (so the buffer is
    full) returns the oldest value and lets in the value of the sender that
    has waited longest, at the back; that sender is taken from the queue
    and its [send], when it goes on, returns [success]. *)
Theorem buffered_recv_admits_sender (tl tl' : thread_locals) (id : nat) (r : T)
    (block : bool) (c : buffered_channel_context T) (front : nat)
    (rest : list nat) :
  reachable T c -> closed_flag T c = false ->
  parked_send T c = front :: rest ->
  exists v b f c' c'',
    buf T c = v :: b /\ send_frames T c !! front = Some f
    /\ recv T tl id r block c
       = Some (ret success v [ev_lock; ev_unlock; ev_yield (yield tl)], c')
    /\ buf T c' = b ++ [val f] /\ parked_send T c' = rest
    /\ send_after_park T tl' front c'
       = Some (ret success (val f) [ev_lock; ev_unlock; ev_yield (yield tl')], c'')
    /\ buf T c'' = b ++ [val f] /\ parked_send T c'' = rest.
Proof.
  intros Hr Hcl Hps.
  destruct (buffered_reachable_inv T c Hr) as [(Hns & Hnr & Hws & Hwr) (Hcap & Hlen & Hf & He)].
  destruct (buffered_reachable_facts c Hr) as (Hsok & _ & _).
  assert (Hfull : full T c = true).
  { destruct (full T c) eqn:E; [reflexivity |]. rewrite (Hf eq_refl) in Hps. discriminate. }
  unfold full in Hfull. apply Nat.eqb_eq in Hfull.
  destruct (buf T c) as [| v b] eqn:Hb; [simpl in Hfull; lia |].
  assert (Hpr : parked_recv T c = []).
  { apply He. unfold empty. rewrite Hb. reflexivity. }
  destruct (waiting_not_failed T _ front Hsok) as (f & Hfr & Hnf & Hwc).
  { apply Hws. rewrite Hps. left. }
  exists v, b, f. eexists _, _. split; [reflexivity |]. split; [exact Hfr |].
  unfold recv. rewrite Hcl, Hb. unfold wake_send, call_send_entry, push_back, full.
  proj_ctx. rewrite Hcl, Hps. simpl in Hfull.
  destruct (Nat.eqb_spec (length b) (cap T c)) as [E | _]; [lia |].
  cbn [negb]. rewrite Hfr. cbn [mbind option_bind]. 
  destruct (Nat.eqb_spec (length b) (cap T c)) as [E | _]; [lia |].
  rewrite (unpark_waits _ Hwc). cbn [mbind option_bind]. proj_ctx.
  split; [reflexivity |]. split; [reflexivity |]. split; [reflexivity |].
  unfold send_after_park. proj_ctx. rewrite lookup_insert_eq. cbn [mbind option_bind].
  cbn [failed val]. rewrite Hnf. unfold wake_recv. proj_ctx. rewrite Hcl, Hpr.
  cbn [negb mbind option_bind]. split; [reflexivity |]. split; reflexivity.
Qed.

(** X15: a [send] on a buffer on which receivers wait (so the buffer is
    empty) hands its value to the receiver that has waited longest: the
    value passes through the buffer, which is empty again after the call,
    and that receiver's [recv], when it goes on, returns [success] with the
    value sent. *)
Theorem buffered_send_serves_receiver (tl tl' : thread_locals) (id : nat) (s : T)
    (block : bool) (c : buffered_channel_context T) (front : nat)
    (rest : list nat) :
  reachable T c -> closed_flag T c = false ->
  parked_recv T c = front :: rest ->
  exists c' c'',
    buf T c = []
    /\ send_ T tl id s block c
       = Some (ret success s [ev_lock; ev_unlock; ev_yield (yield tl)], c')
    /\ buf T c' = [] /\ parked_recv T c' = rest
    /\ recv_after_park T tl' front c'
       = Some (ret success s [ev_lock; ev_unlock; ev_yield (yield tl')], c'')
    /\ buf T c'' = [] /\ parked_recv T c'' = rest.
Proof.
  intros Hr Hcl Hpr.
  destruct (buffered_reachable_inv T c Hr) as [(Hns & Hnr & Hws & Hwr) (Hcap & Hlen & Hf & He)].
  destruct (buffered_reachable_facts c Hr) as (_ & Hrok & _).
  assert (Hb : buf T c = []).
  { destruct (buf T c) as [| v b] eqn:Hb; [reflexivity |].
    assert (E : empty T c = false) by (unfold empty; rewrite Hb; reflexivity).
    rewrite (He E) in Hpr. discriminate. }
  assert (Hps : parked_send T c = []).
  { apply Hf. unfold full. rewrite Hb. apply Nat.eqb_neq. simpl. lia. }
  destruct (waiting_not_failed T _ front Hrok) as (f & Hfr & Hnf & Hwc).
  { apply Hwr. rewrite Hpr. left. }
  eexists _, _. split; [exact Hb |].
  unfold send_, push_back, full. rewrite Hcl, Hb.
  destruct (Nat.eqb_spec (length (@nil T)) (cap T c)) as [E | _]; [simpl in E; lia |].
  unfold wake_recv, call_recv_entry, empty. proj_ctx. rewrite Hcl, Hpr.
  cbn [app length Nat.eqb negb]. rewrite Hfr. cbn [mbind option_bind].
  rewrite (unpark_waits _ Hwc). cbn [mbind option_bind]. proj_ctx.
  split; [reflexivity |]. split; [reflexivity |]. split; [reflexivity |].
  unfold recv_after_park. proj_ctx. rewrite lookup_insert_eq. cbn [mbind option_bind].
  cbn [failed val]. rewrite Hnf. unfold wake_send. proj_ctx. rewrite Hcl, Hps.
  cbn [negb mbind option_bind]. split; [reflexivity |]. split; reflexivity.
Qed.

End Chan.

Lemma buffered_closed_is_quiet_witness :
  close nat Channels.closed_with_value = Some Channels.closed_with_value
  /\ send_ nat Channels.in_coroutine_7 2 8 true Channels.closed_with_value
     = Some (ret Channel.closed 8 [ev_lock; ev_unlock], Channels.closed_with_value).
Proof.
  destruct (buffered_closed_is_quiet nat Channels.closed_with_value
              Channels.closed_with_value_reachable eq_refl)
    as (_ & _ & Hc & Hs & _).
  split; [exact Hc | apply Hs].
Defined.

(** constructed with size 0, after one [try_send] *)
Lemma buffered_capacity_fixed_witness :
  capacity nat (MkContext nat false [5] 1 [] [] ∅ ∅) = 1
  /\ full nat (MkContext nat false [5] 1 [] [] ∅ ∅) = true.
Proof.
  destruct (buffered_capacity_fixed nat 0 (fun _ => True)
              (MkContext nat false [5] 1 [] [] ∅ ∅)) as (H1 & _ & _ & H2).
  - apply (steps_step nat _ _ (c_send nat Channels.in_coroutine_7 0 5 false)
             (construct nat 0)).
    + apply steps_refl.
    + exact I.
    + split; [intros H; discriminate | eexists; reflexivity].
  - split; [exact H1 | apply H2; reflexivity].
Defined.

Lemma buffered_fifo_witness :
  send_all nat Channels.in_coroutine_7 [1; 2; 3] (construct nat 3)
  = Some ([success; success; success], MkContext nat false [1; 2; 3] 3 [] [] ∅ ∅)
  /\ recv_n nat Threadpool.raw_thread 3 0 (MkContext nat false [1; 2; 3] 3 [] [] ∅ ∅)
     = Some ([(success, 1); (success, 2); (success, 3)], construct nat 3).
Proof.
  apply (buffered_fifo nat Channels.in_coroutine_7 Threadpool.raw_thread
           [1; 2; 3] 0 (construct nat 3));
    [reflexivity | reflexivity | reflexivity | simpl; lia].
Defined.

Lemma buffered_recv_admits_sender_witness :
  exists c' c'',
    recv nat Threadpool.raw_thread 2 0 true Channels.full_one_sender
    = Some (ret success 5 [ev_lock; ev_unlock; ev_yield None], c')
    /\ buf nat c' = [6]
    /\ send_after_park nat Channels.in_coroutine_7 1 c'
       = Some (ret success 6 [ev_lock; ev_unlock; ev_yield (Some 7)], c'').
Proof.
  destruct (buffered_recv_admits_sender nat Threadpool.raw_thread
              Channels.in_coroutine_7 2 0 true Channels.full_one_sender 1 []
              Channels.full_one_sender_reachable eq_refl eq_refl)
    as (v & b & f & c' & c'' & Hb & Hf & Hrecv & Hbuf & _ & Hsend & _).
  injection Hb as <- <-. injection Hf as <-.
  exists c', c''. split; [exact Hrecv |]. split; [exact Hbuf | exact Hsend].
Defined.

(** a channel of capacity 2 on which call 1 waits in [recv] *)
Definition one_receiver : buffered_channel_context nat :=
  MkContext nat false [] 2 [] [1]
    ∅ (<[1 := park_frame Channels.in_coroutine_7 0]> ∅).

Lemma one_receiver_reachable : reachable nat one_receiver.
Proof.
  apply (reach_step nat (c_recv nat Channels.in_coroutine_7 1 0 true) (construct nat 2)).
  - apply reach_construct.
  - split; [intros _; reflexivity | eexists; reflexivity].
Defined.

Lemma buffered_send_serves_receiver_witness :
  exists c' c'',
    send_ nat Threadpool.raw_thread 2 33 true one_receiver
    = Some (ret success 33 [ev_lock; ev_unlock; ev_yield None], c')
    /\ buf nat c' = []
    /\ recv_after_park nat Channels.in_coroutine_7 1 c'
       = Some (ret success 33 [ev_lock; ev_unlock; ev_yield (Some 7)], c'').
Proof.
  destruct (buffered_send_serves_receiver nat Threadpool.raw_thread
              Channels.in_coroutine_7 2 33 true one_receiver 1 []
              one_receiver_reachable eq_refl eq_refl)
    as (c' & c'' & _ & Hsend & Hbuf & _ & Hrecv & _).
  exists c', c''. split; [exact Hsend |]. split; [exact Hbuf | exact Hrecv].
Defined.

End BufferedFacts.

(** *** [unbuffered_channel] *)

Module UnbufferedFacts.
Import ThreadLocal Parkable Channel Unbuffered ChannelFacts.

Ltac proj_ctx :=
  cbn [closed_flag parked_send parked_recv send_frames recv_frames] in *.

Section Chan.
Variable T : Type.

(** what holds of a channel besides [inv]: every call that still waits
    has not failed, and nothing waits on a closed channel *)
Definition facts (c : unbuffered_channel_context T) : Prop :=
  frames_ok (send_frames T c) /\ frames_ok (recv_frames T c)
  /\ (closed_flag T c = true -> parked_send T c = [] /\ parked_recv T c = []).

Lemma unbuffered_facts_construct : facts (construct T).
Proof. repeat split; try discriminate; apply frames_ok_empty. Qed.

Lemma unbuffered_send__facts tl id s block c o c' :
  send_ T tl id s block c = Some (o, c') -> facts c -> facts c'.
Proof.
  unfold send_, call_recv_entry, facts. intros H (H1 & H2 & H3).
  repeat (case_match; simplify_option_eq); proj_ctx;
    (split; [frames_tac | split; [frames_tac |]]); intros; try discriminate; try closed_absurd; auto; try tauto.
Qed.

Lemma unbuffered_recv_facts tl id r block c o c' :
  recv T tl id r block c = Some (o, c') -> facts c -> facts c'.
Proof.
  unfold recv, call_send_entry, facts. intros H (H1 & H2 & H3).
  repeat (case_match; simplify_option_eq); proj_ctx;
    (split; [frames_tac | split; [frames_tac |]]); intros; try discriminate; try closed_absurd; auto; try tauto.
Qed.

Lemma unbuffered_send_after_park_facts tl id c o c' :
  send_after_park T tl id c = Some (o, c') -> facts c -> facts c'.
Proof.
  unfold send_after_park, facts. intros H (H1 & H2 & H3).
  destruct (send_frames T c !! id) as [f |]; [| discriminate]. simpl in H.
  repeat (case_match; simplify_option_eq); proj_ctx;
    (split; [frames_tac | split; [frames_tac |]]); intros; try discriminate; try closed_absurd; auto; try tauto.
Qed.

Lemma unbuffered_recv_after_park_facts tl id c o c' :
  recv_after_park T tl id c = Some (o, c') -> facts c -> facts c'.
Proof.
  unfold recv_after_park, facts. intros H (H1 & H2 & H3).
  destruct (recv_frames T c !! id) as [f |]; [| discriminate]. simpl in H.
  repeat (case_match; simplify_option_eq); proj_ctx;
    (split; [frames_tac | split; [frames_tac |]]); intros; try discriminate; try closed_absurd; auto; try tauto.
Qed.

Lemma unbuffered_close_facts c c' : close T c = Some c' -> facts c -> facts c'.
Proof.
  unfold close, facts. intros H (H1 & H2 & H3).
  destruct (unpark_queue (parked_send T c) (send_frames T c)) as [sf |] eqn:Hs;
    [| discriminate].
  destruct (unpark_queue (parked_recv T c) (recv_frames T c)) as [rf |] eqn:Hr;
    [| discriminate].
  simpl in H. injection H as <-. proj_ctx.
  split; [frames_tac |]. split; [frames_tac | auto].
Qed.

Lemma unbuffered_step_facts k c c' : step T k c c' -> facts c -> facts c'.
Proof.
  intros [_ [o H]]. destruct k; simpl in H.
  - destruct (send_ T tl id s block c) as [[o' c0] |] eqn:E; [| discriminate].
    simpl in H. simplify_eq. eapply unbuffered_send__facts; eassumption.
  - destruct (send_after_park T tl id c) as [[o' c0] |] eqn:E; [| discriminate].
    simpl in H. simplify_eq. eapply unbuffered_send_after_park_facts; eassumption.
  - destruct (recv T tl id r block c) as [[o' c0] |] eqn:E; [| discriminate].
    simpl in H. simplify_eq. eapply unbuffered_recv_facts; eassumption.
  - destruct (recv_after_park T tl id c) as [[o' c0] |] eqn:E; [| discriminate].
    simpl in H. simplify_eq. eapply unbuffered_recv_after_park_facts; eassumption.
  - destruct (close T c) as [c0 |] eqn:E; [| discriminate].
    simpl in H. simplify_eq. eapply unbuffered_close_facts; eassumption.
  - simplify_eq. auto.
Qed.

Lemma unbuffered_reachable_facts c : reachable T c -> facts c.
Proof.
  induction 1 as [| k c c' _ IH Hstep]; [apply unbuffered_facts_construct |].
  apply (unbuffered_step_facts k c c' Hstep). exact IH.
Qed.

(** X16: on a closed unbuffered channel, at the boundary of its
    operations, no call waits in either queue; a second [close()] changes
    nothing; and every [send] and [recv], blocking or not, returns [closed]
    at once, without a yield, leaving the channel and the caller's variable
    as they were. *)
Theorem unbuffered_closed_is_quiet (c : unbuffered_channel_context T) :
  reachable T c -> closed_flag T c = true ->
  parked_send T c = [] /\ parked_recv T c = []
  /\ close T c = Some c
  /\ (forall tl id s block,
        send_ T tl id s block c = Some (ret Channel.closed s [ev_lock; ev_unlock], c))
  /\ (forall tl id r block,
        recv T tl id r block c = Some (ret Channel.closed r [ev_lock; ev_unlock], c)).
Proof.
  intros Hr Hcl. destruct (unbuffered_reachable_facts c Hr) as (_ & _ & Hq).
  destruct (Hq Hcl) as [Hs Hrq]. split; [exact Hs |]. split; [exact Hrq |].
  split; [| split].
  - unfold close. rewrite Hs, Hrq. simpl. destruct c; simpl in *. congruence.
  - intros. unfold send_. rewrite Hcl. reflexivity.
  - intros. unfold recv. rewrite Hcl. reflexivity.
Qed.

(** X17: the rendezvous of an unbuffered channel, in the order of
    waiting.  A [send] on an open channel on which receivers wait does not
    wait: it returns [success], takes the receiver that has waited longest
    from the queue, and that receiver's [recv], when it goes on, returns
    [success] with the value sent.  A [recv] on a channel on which senders
    wait returns [success] with the value of the sender that has waited
    longest, and that sender's [send], when it goes on, returns
    [success]. *)
Theorem unbuffered_rendezvous_fifo (tl tl' : thread_locals) (id : nat) (v : T)
    (block : bool) (c : unbuffered_channel_context T) (front : nat)
    (rest : list nat) :
  reachable T c -> closed_flag T c = false ->
  (parked_recv T c = front :: rest ->
   exists c' c'',
     send_ T tl id v block c
     = Some (ret success v [ev_lock; ev_unlock; ev_yield (yield tl)], c')
     /\ parked_recv T c' = rest /\ parked_send T c' = []
     /\ recv_after_park T tl' front c'
        = Some (ret success v [ev_lock; ev_unlock; ev_yield (yield tl')], c'')
     /\ parked_recv T c'' = rest)
  /\ (parked_send T c = front :: rest ->
      exists f c' c'',
        send_frames T c !! front = Some f
        /\ recv T tl id v block c
           = Some (ret success (val f) [ev_lock; ev_unlock; ev_yield (yield tl)], c')
        /\ parked_send T c' = rest /\ parked_recv T c' = []
        /\ send_after_park T tl' front c'
           = Some (ret success (val f) [ev_lock; ev_unlock; ev_yield (yield tl')], c'')
        /\ parked_send T c'' = rest).
Proof.
  intros Hr Hcl.
  destruct (unbuffered_reachable_inv T c Hr) as [(Hns & Hnr & Hws & Hwr) Hnb].
  destruct (unbuffered_reachable_facts c Hr) as (Hsok & Hrok & _).
  split; intros Hq.
  - assert (Hps : parked_send T c = []) by (destruct Hnb; congruence).
    destruct (waiting_not_failed T _ front Hrok) as (f & Hfr & Hnf & Hwc).
    { apply Hwr. rewrite Hq. left. }
    eexists _, _. unfold send_, call_recv_entry, call_value.
    rewrite Hcl, Hq, Hfr. cbn [mbind option_bind].
    rewrite (unpark_waits _ Hwc). cbn [mbind option_bind].
    split; [reflexivity |]. proj_ctx. split; [reflexivity |]. split; [exact Hps |].
    unfold recv_after_park. proj_ctx. rewrite lookup_insert_eq.
    cbn [mbind option_bind failed val]. rewrite Hnf. split; reflexivity.
  - assert (Hpr : parked_recv T c = []) by (destruct Hnb; congruence).
    destruct (waiting_not_failed T _ front Hsok) as (f & Hfr & Hnf & Hwc).
    { apply Hws. rewrite Hq. left. }
    exists f. eexists _, _. split; [exact Hfr |].
    unfold recv, call_send_entry.
    rewrite Hcl, Hq, Hfr. cbn [mbind option_bind].
    rewrite (unpark_waits _ Hwc). cbn [mbind option_bind].
    split; [reflexivity |]. proj_ctx. split; [reflexivity |]. split; [exact Hpr |].
    unfold send_after_park. proj_ctx. rewrite lookup_insert_eq.
    cbn [mbind option_bind failed val]. rewrite Hnf. split; reflexivity.
Qed.

End Chan.

(** an unbuffered channel closed right after its construction *)
Definition closed_at_once : unbuffered_channel_context nat :=
  MkContext nat true [] [] ∅ ∅.

Lemma closed_at_once_reachable : reachable nat closed_at_once.
Proof.
  apply (reach_step nat (c_close nat) (construct nat)).
  - apply reach_construct.
  - split; [exact I | eexists; reflexivity].
Defined.

Lemma unbuffered_closed_is_quiet_witness :
  close nat closed_at_once = Some closed_at_once
  /\ recv nat Channels.in_coroutine_7 2 8 true closed_at_once
     = Some (ret Channel.closed 8 [ev_lock; ev_unlock], closed_at_once).
Proof.
  destruct (unbuffered_closed_is_quiet nat closed_at_once
              closed_at_once_reachable eq_refl) as (_ & _ & Hc & _ & Hr).
  split; [exact Hc | apply Hr].
Defined.

(** of the two senders that wait with 10 and 20, the first is served *)
Lemma unbuffered_rendezvous_fifo_witness :
  exists c' c'',
    recv nat Threadpool.raw_thread 3 0 true Channels.two_senders
    = Some (ret success 10 [ev_lock; ev_unlock; ev_yield None], c')
    /\ parked_send nat c' = [2]
    /\ send_after_park nat Channels.in_coroutine_7 1 c'
       = Some (ret success 10 [ev_lock; ev_unlock; ev_yield (Some 7)], c'').
Proof.
  destruct (unbuffered_rendezvous_fifo nat Threadpool.raw_thread
              Channels.in_coroutine_7 3 0 true Channels.two_senders 1 [2]
              Channels.two_senders_reachable eq_refl) as [_ H].
  destruct (H eq_refl) as (f & c' & c'' & Hf & Hrecv & Hq & _ & Hsend & _).
  injection Hf as <-.
  exists c', c''. split; [exact Hrecv |]. split; [exact Hq | exact Hsend].
Defined.

End UnbufferedFacts.

(** ** [mutex] (mutex.hpp) *)

Module Mutex.
Import ThreadLocal Parkable.

(** the mutex, with the parkables of the [lock()] calls that wait on it,
    which live in the frames of those calls, by the name of the call *)
Record mutex : Type := MkMutex {
  acquired_ : bool;
  notify_q_ : list nat;
  lock_frames : gmap nat parkable
}.

(** [mutex()] *)
Definition new : mutex := MkMutex false [] ∅.

(** how a call comes back: [lock()] and a successful [try_lock()] return
    with the mutex [acquired]; [lock()] waits in [park]; [unlock()] has
    [released] it; [try_lock()] was [refused] *)
Inductive outcome : Type := acquired | parked | released | refused.

(** [lock()] up to its return or to [p.park(lk)]; [id] names the call *)
Definition lock (tl : thread_locals) (id : nat) (m : mutex) : outcome * mutex :=
  if acquired_ m then
    (parked,
     MkMutex (acquired_ m) (notify_q_ m ++ [id])
       (<[id := park tl Parkable.new]> (lock_frames m)))
  else (acquired, MkMutex true (notify_q_ m) (lock_frames m)).

(** [lock()] from the return of [p.park(lk)] on: the parkable of this
    turn of the loop is gone, and the loop tests [acquired_] again *)
Definition lock_after_park (tl : thread_locals) (id : nat) (m : mutex)
  : option (outcome * mutex) :=
  _ ← lock_frames m !! id;
  let fr := delete id (lock_frames m) in
  if acquired_ m then
    Some (parked,
          MkMutex (acquired_ m) (notify_q_ m ++ [id])
            (<[id := park tl Parkable.new]> fr))
  else Some (acquired, MkMutex true (notify_q_ m) fr).

(** [unlock()]; [None] is an exception: [mutex_already_unlocked_exception],
    or what [unpark] throws *)
Definition unlock (m : mutex) : option mutex :=
  if acquired_ m then
    match notify_q_ m with
    | front :: rest =>
        q ← lock_frames m !! front;
        q' ← unpark q;
        Some (MkMutex false rest (<[front := q']> (lock_frames m)))
    | [] => Some (MkMutex false [] (lock_frames m))
    end
  else None.

(** [try_lock()] *)
Definition try_lock (m : mutex) : bool * mutex :=
  if negb (acquired_ m) then (true, MkMutex true (notify_q_ m) (lock_frames m))
  else (false, m).

Inductive call : Type :=
| c_lock (tl : thread_locals) (id : nat)
| c_lock_after_park (tl : thread_locals) (id : nat)
| c_unlock
| c_try_lock.

Definition exec (k : call) (m : mutex) : option (outcome * mutex) :=
  match k with
  | c_lock tl id => Some (lock tl id m)
  | c_lock_after_park tl id => lock_after_park tl id m
  | c_unlock => m' ← unlock m; Some (released, m')
  | c_try_lock =>
      let '(b, m') := try_lock m in Some (if b then acquired else refused, m')
  end.

(** a call of [lock()] that waits, and one that was unparked *)
Definition waits (m : mutex) (id : nat) : Prop :=
  exists q, lock_frames m !! id = Some q /\ is_Some (wc q) /\ notified q = false.

Definition woken (m : mutex) (id : nat) : Prop :=
  exists q, lock_frames m !! id = Some q /\ notified q = true.

(** when a step can happen: a new call has a name no waiting call has, and
    a parked call goes on once it was unparked *)
Definition enabled (k : call) (m : mutex) : Prop :=
  match k with
  | c_lock _ id => lock_frames m !! id = None
  | c_lock_after_park _ id => woken m id
  | c_unlock | c_try_lock => True
  end.

Definition step (k : call) (m m' : mutex) : Prop :=
  enabled k m /\ exists o, exec k m = Some (o, m').

Inductive reachable : mutex -> Prop :=
| reach_new : reachable new
| reach_step k m m' : reachable m -> step k m m' -> reachable m'.

(** the calls of [ks] one after the other, with their outcomes *)
Fixpoint run (ks : list call) (m : mutex) : option (list outcome * mutex) :=
  match ks with
  | [] => Some ([], m)
  | k :: ks' =>
      '(o, m1) ← exec k m;
      '(os, m2) ← run ks' m1;
      Some (o :: os, m2)
  end.

Definition outcome_eqb (a b : outcome) : bool :=
  match a, b with
  | acquired, acquired | parked, parked | released, released
  | refused, refused => true
  | _, _ => false
  end.

Fixpoint count (o : outcome) (os : list outcome) : nat :=
  match os with
  | [] => 0
  | x :: os' => (if outcome_eqb x o then 1 else 0) + count o os'
  end.

Definition held (m : mutex) : nat := if acquired_ m then 1 else 0.

(** every queue entry is the parkable of a call that waits, once; and when
    the mutex is free while calls wait in the queue, some call was unparked
    and has not gone on yet *)
Definition wf (m : mutex) : Prop :=
  NoDup (notify_q_ m)
  /\ (forall id, id ∈ notify_q_ m -> waits m id)
  /\ (acquired_ m = false -> notify_q_ m <> [] -> exists id, woken m id).

Lemma mutex_exec_held k m o m' :
  exec k m = Some (o, m') ->
  held m + count acquired [o] = held m' + count released [o].
Proof.
  unfold exec, lock, lock_after_park, unlock, try_lock, held.
  intros H. destruct k; repeat (simplify_option_eq; try case_match); simpl in *;
    try reflexivity; try congruence.
Qed.

Lemma mutex_count_cons o o' os : count o (o' :: os) = count o [o'] + count o os.
Proof. simpl. lia. Qed.

(** X18: the mutex has one holder at most.  Along any sequence of calls,
    the calls that returned with the mutex acquired ([lock()], and
    [try_lock()] with [true]) are as many as the calls of [unlock()] that
    returned, plus one exactly when [acquired_] is set: no call acquires
    the mutex between an acquisition and the next [unlock()]. *)
Theorem mutex_exclusive (ks : list call) (os : list outcome) (m m' : mutex) :
  run ks m = Some (os, m') ->
  held m + count acquired os = held m' + count released os.
Proof.
  revert os m. induction ks as [| k ks IH]; intros os m H; simpl in H.
  - injection H as <- <-. reflexivity.
  - destruct (exec k m) as [[o m1] |] eqn:E; [| discriminate]. simpl in H.
    destruct (run ks m1) as [[os' m2] |] eqn:E'; [| discriminate]. simpl in H.
    injection H as <- <-.
    pose proof (mutex_exec_held _ _ _ _ E). pose proof (IH _ _ E').
    rewrite (mutex_count_cons acquired), (mutex_count_cons released). lia.
Qed.


Lemma mutex_waits_not_woken m id : waits m id -> woken m id -> False.
Proof.
  intros (q & Hq & _ & Hn) (q' & Hq' & Hn'). rewrite Hq in Hq'.
  injection Hq' as <-. rewrite Hn in Hn'. discriminate.
Qed.

Lemma mutex_waits_frames m m' id :
  lock_frames m' !! id = lock_frames m !! id -> waits m id -> waits m' id.
Proof. intros H (q & Hq & Hw). exists q. rewrite H. auto. Qed.

Lemma mutex_wf_new : wf new.
Proof.
  split; [apply NoDup_nil_2 |]. split; [intros id H; inversion H |].
  intros _ H. contradiction H. reflexivity.
Qed.

Lemma mutex_wf_push tl id m :
  wf m -> id ∉ notify_q_ m ->
  wf (MkMutex true (notify_q_ m ++ [id])
        (<[id := park tl Parkable.new]> (lock_frames m))).
Proof.
  intros (Hnd & Hw & _) Hnin. split; [| split]; cbn [notify_q_ acquired_].
  - apply NoDup_app. split; [exact Hnd |]. split; [| apply NoDup_singleton].
    intros x Hx Hx'. apply list_elem_of_singleton in Hx' as ->. contradiction.
  - intros x Hx. apply elem_of_app in Hx as [Hx | Hx].
    + apply (mutex_waits_frames m); [| apply Hw, Hx]. cbn [lock_frames].
      apply lookup_insert_ne. intros ->. contradiction.
    + apply list_elem_of_singleton in Hx as ->.
      exists (park tl Parkable.new). cbn [lock_frames].
      split; [apply lookup_insert_eq |]. split; [eexists; reflexivity | reflexivity].
  - discriminate.
Qed.

Lemma mutex_wf_delete id m :
  wf m -> woken m id ->
  (id ∉ notify_q_ m)
  /\ wf (MkMutex true (notify_q_ m) (delete id (lock_frames m))).
Proof.
  intros (Hnd & Hw & _) Hwk.
  assert (Hnin : id ∉ notify_q_ m)
    by (intros Hin; eapply mutex_waits_not_woken; [apply Hw |]; eassumption).
  split; [exact Hnin |].
  split; [exact Hnd |]. split; [| discriminate].
  intros x Hx. apply (mutex_waits_frames m); [| apply Hw, Hx]. cbn [lock_frames].
  apply lookup_delete_ne. intros ->. contradiction.
Qed.

Lemma mutex_unlock_wf m :
  wf m -> acquired_ m = true ->
  exists m', unlock m = Some m' /\ wf m' /\ acquired_ m' = false
    /\ notify_q_ m' = tail (notify_q_ m)
    /\ (forall front, head (notify_q_ m) = Some front -> woken m' front).
Proof.
  intros (Hnd & Hw & _) Hacq. unfold unlock. rewrite Hacq.
  destruct (notify_q_ m) as [| front rest] eqn:Hq.
  - eexists. split; [reflexivity |]. split; [| split; [reflexivity |]].
    + split; [apply NoDup_nil_2 |]. split; [intros id H; inversion H |].
      intros _ H. contradiction H. reflexivity.
    + split; [reflexivity | discriminate].
  - destruct (Hw front) as (q & Hfr & [c Hwc] & Hn); [left |].
    rewrite Hfr. cbn [mbind option_bind]. unfold unpark. rewrite Hwc.
    cbn [mbind option_bind]. eexists. split; [reflexivity |].
    apply NoDup_cons in Hnd as [Hnin Hnd].
    assert (Hwk : woken (MkMutex false rest
                           (<[front := MkParkable (Some c) true]> (lock_frames m)))
                    front).
    { eexists. cbn [lock_frames]. split; [apply lookup_insert_eq | reflexivity]. }
    split; [| split; [reflexivity |]].
    + split; [exact Hnd |]. split.
      * intros x Hx. apply (mutex_waits_frames m); [| apply Hw; right; exact Hx].
        cbn [lock_frames]. apply lookup_insert_ne. intros ->. contradiction.
      * intros _ _. exists front. exact Hwk.
    + split; [reflexivity |]. intros front' [= <-]. exact Hwk.
Qed.

Lemma mutex_step_wf k m m' : wf m -> step k m m' -> wf m'.
Proof.
  intros Hwf [Hen [o Hex]]. pose proof Hwf as (Hnd & Hw & Hlw).
  destruct k as [tl id | tl id | |]; simpl in Hen, Hex.
  - unfold lock in Hex. destruct (acquired_ m) eqn:Hacq; injection Hex as <- <-.
    + apply mutex_wf_push; [exact Hwf |].
      intros Hin. destruct (Hw _ Hin) as (q & Hq & _). congruence.
    + split; [exact Hnd |]. split; [exact Hw | discriminate].
  - unfold lock_after_park in Hex. pose proof Hen as (q & Hq & _).
    rewrite Hq in Hex. cbn [mbind option_bind] in Hex.
    destruct (mutex_wf_delete id m Hwf Hen) as [Hnin Hwf'].
    destruct (acquired_ m) eqn:Hacq; injection Hex as <- <-.
    + apply (mutex_wf_push tl id _ Hwf'). exact Hnin.
    + exact Hwf'.
  - destruct (unlock m) as [m0 |] eqn:E; [| discriminate].
    simpl in Hex. injection Hex as <- <-.
    destruct (acquired_ m) eqn:Hacq;
      [| unfold unlock in E; rewrite Hacq in E; discriminate].
    destruct (mutex_unlock_wf m Hwf Hacq) as (m1 & E1 & H1 & _). congruence.
  - unfold try_lock in Hex. destruct (acquired_ m) eqn:Hacq; simpl in Hex;
      injection Hex as <- <-; [exact Hwf |].
    split; [exact Hnd |]. split; [exact Hw | discriminate].
Qed.

Lemma mutex_reachable_wf m : reachable m -> wf m.
Proof.
  induction 1 as [| k m m' _ IH Hstep]; [apply mutex_wf_new |].
  eapply mutex_step_wf; eassumption.
Qed.

(** X19: [unlock()] on a mutex that is not acquired throws; on an
    acquired mutex, at the boundary of its operations, it returns, the
    mutex is free, and the call of [lock()] that has waited longest, if
    there is one, is taken from the queue and unparked. *)
Theorem mutex_unlock_wakes_first (m : mutex) :
  reachable m ->
  (acquired_ m = false -> unlock m = None)
  /\ (acquired_ m = true ->
      exists m', unlock m = Some m' /\ acquired_ m' = false
        /\ notify_q_ m' = tail (notify_q_ m)
        /\ (forall front, head (notify_q_ m) = Some front -> woken m' front)).
Proof.
  intros Hr. split; intros Hacq.
  - unfold unlock. rewrite Hacq. reflexivity.
  - destruct (mutex_unlock_wf m (mutex_reachable_wf m Hr) Hacq) as (m' & H1 & _ & H2).
    exists m'. auto.
Qed.

(** X20: no wake-up is lost, and none is a promise.  Whenever the mutex
    is free while calls of [lock()] wait in the queue, some call was
    unparked and has not gone on yet, and going on now it acquires the
    mutex.  A call that was unparked and finds the mutex acquired again, by
    a call that came in between, waits again, at the back of the queue. *)
Theorem mutex_no_lost_wakeup (m : mutex) :
  reachable m ->
  (acquired_ m = false -> notify_q_ m <> [] ->
   exists id, woken m id
     /\ forall tl, exists m',
          lock_after_park tl id m = Some (acquired, m')
          /\ acquired_ m' = true /\ notify_q_ m' = notify_q_ m)
  /\ (forall tl id, woken m id -> acquired_ m = true ->
      exists m', lock_after_park tl id m = Some (parked, m')
        /\ notify_q_ m' = notify_q_ m ++ [id] /\ waits m' id).
Proof.
  intros Hr. destruct (mutex_reachable_wf m Hr) as (_ & _ & Hlw). split.
  - intros Hacq Hq. destruct (Hlw Hacq Hq) as [id Hwk]. exists id.
    split; [exact Hwk |]. intros tl. destruct Hwk as (q & Hfr & _).
    unfold lock_after_park. rewrite Hfr, Hacq. cbn [mbind option_bind].
    eexists. split; [reflexivity |]. split; reflexivity.
  - intros tl id (q & Hfr & _) Hacq.
    unfold lock_after_park. rewrite Hfr, Hacq. cbn [mbind option_bind].
    eexists. split; [reflexivity |]. split; [reflexivity |].
    exists (park tl Parkable.new). cbn [lock_frames].
    split; [apply lookup_insert_eq |]. split; [eexists; reflexivity | reflexivity].
Qed.


(** call 1 holds the mutex, and the calls 2 and 3 wait for it *)
Definition two_waiters : mutex :=
  MkMutex true [2; 3]
    (<[3 := park Threadpool.raw_thread Parkable.new]>
       (<[2 := park Threadpool.raw_thread Parkable.new]> ∅)).

Lemma two_waiters_reachable : reachable two_waiters.
Proof.
  apply (reach_step (c_lock Threadpool.raw_thread 3)
           (MkMutex true [2] (<[2 := park Threadpool.raw_thread Parkable.new]> ∅))).
  - apply (reach_step (c_lock Threadpool.raw_thread 2) (MkMutex true [] ∅)).
    + apply (reach_step (c_lock Threadpool.raw_thread 1) new).
      * apply reach_new.
      * split; [reflexivity | eexists; reflexivity].
    + split; [reflexivity | eexists; reflexivity].
  - split; [reflexivity | eexists; reflexivity].
Defined.

(** the same after [unlock()]: call 2 was unparked, call 3 waits *)
Definition one_woken : mutex :=
  MkMutex false [3]
    (<[2 := MkParkable (Some thread_context) true]>
       (<[3 := park Threadpool.raw_thread Parkable.new]>
          (<[2 := park Threadpool.raw_thread Parkable.new]> ∅))).

Lemma one_woken_reachable : reachable one_woken.
Proof.
  apply (reach_step c_unlock two_waiters).
  - exact two_waiters_reachable.
  - split; [exact I | eexists; reflexivity].
Defined.

Lemma mutex_exclusive_witness :
  held new
  + count acquired [acquired; refused; parked; released; acquired]
  = held (MkMutex true [] ∅)
    + count released [acquired; refused; parked; released; acquired].
Proof.
  apply (mutex_exclusive
           [c_lock Threadpool.raw_thread 1; c_try_lock;
            c_lock Threadpool.raw_thread 2; c_unlock;
            c_lock_after_park Threadpool.raw_thread 2] _ new).
  reflexivity.
Defined.

Lemma mutex_unlock_wakes_first_witness :
  exists m', unlock two_waiters = Some m' /\ acquired_ m' = false
    /\ notify_q_ m' = [3] /\ woken m' 2.
Proof.
  destruct (mutex_unlock_wakes_first two_waiters two_waiters_reachable) as [_ H].
  destruct (H eq_refl) as (m' & H1 & H2 & H3 & H4).
  exists m'. split; [exact H1 |]. split; [exact H2 |]. split; [exact H3 |].
  apply H4. reflexivity.
Defined.

Lemma mutex_no_lost_wakeup_witness :
  exists id, woken one_woken id
    /\ exists m', lock_after_park Threadpool.raw_thread id one_woken
                  = Some (acquired, m').
Proof.
  destruct (mutex_no_lost_wakeup one_woken one_woken_reachable) as [H _].
  destruct (H eq_refl ltac:(discriminate)) as (id & Hwk & Hgo).
  exists id. split; [exact Hwk |].
  destruct (Hgo Threadpool.raw_thread) as (m' & Hm' & _). exists m'. exact Hm'.
Defined.

End Mutex.

(** ** More on [await] *)

Module AwaitFacts.
Import ThreadLocal Await.
Local Open Scope Z_scope.

Section SizeT.
Variable size_bytes : Z.
Hypothesis size_bytes_pos : 0 < size_bytes.

(** the free list holds [min_worker_cnt_] workers, and [worker_cnt_]
    counts them *)
Definition pool_settled (pool : await_threadpool) : Prop :=
  length (workers_ pool) = min_worker_cnt_ pool
  /\ worker_cnt_ pool = Z.of_nat (min_worker_cnt_ pool).

Lemma wrap_one_back :
  Measurement.wrap size_bytes (Measurement.wrap size_bytes (0 + 1) - 1) = 0.
Proof.
  unfold Measurement.wrap.
  assert (2 <= 2 ^ Measurement.size_width size_bytes).
  { change 2 with (2 ^ 1) at 1. apply Z.pow_le_mono_r;
      unfold Measurement.size_width; lia. }
  rewrite (Z.mod_small (0 + 1)) by lia. apply Z.mod_small. lia.
Qed.

Lemma schedule_settled St (cb : St -> St) co tl st pool st' tr pool' :
  pool_settled pool ->
  schedule size_bytes St cb co tl st pool = Some (st', tr, pool') ->
  pool_settled pool'
  /\ min_worker_cnt_ pool' = min_worker_cnt_ pool
  /\ (tr <> [ev_call tl] ->
      match workers_ pool with
      | w :: rest =>
          exists s2, workers_ pool' = rest ++ [MkWorker s2 (sch_name w) (thd w)]
                     /\ spawned pool' = spawned pool
      | [] => workers_ pool' = [] /\ spawned pool' = S (spawned pool)
      end).
Proof.
  intros [Hlen Hcnt]. unfold schedule.
  destruct (in_scheduler tl && negb (tl_is_await tl));
    [| intros [= <- <- <-]; split; [split; assumption |];
       split; [reflexivity | intros H; contradiction H; reflexivity]].
  unfold checkout_worker, checkin_worker.
  destruct (workers_ pool) as [| w rest] eqn:Hw.
  - destruct (negb _); [| discriminate].
    destruct (Scheduler.execute_co _ _ _) as [s2 |]; [| discriminate].
    intros [= <- <- <-]. cbn [workers_ min_worker_cnt_ worker_cnt_ spawned].
    simpl in Hlen. rewrite <- Hlen. cbn [Nat.ltb Nat.leb].
    cbn [workers_ min_worker_cnt_ worker_cnt_ spawned].
    rewrite Hcnt, <- Hlen. change (Z.of_nat 0) with 0.
    split; [split; [reflexivity | apply wrap_one_back] |].
    split; [reflexivity |]. intros _. split; reflexivity.
  - destruct (negb _); [| discriminate].
    destruct (Scheduler.execute_co _ _ _) as [s2 |]; [| discriminate].
    intros [= <- <- <-]. cbn [workers_ min_worker_cnt_ worker_cnt_ spawned].
    simpl in Hlen.
    destruct (Nat.ltb_spec (length rest) (min_worker_cnt_ pool)) as [_ | Hge]; [| lia].
    unfold pool_settled. cbn [workers_ min_worker_cnt_ worker_cnt_ spawned].
    split; [split; [rewrite length_app; simpl; lia | exact Hcnt] |].
    split; [reflexivity |]. intros _. exists s2. split; reflexivity.
Qed.

Lemma reachable_settled pool : pool_reachable size_bytes pool -> pool_settled pool.
Proof.
  induction 1 as [min | | St cb co tl st pool st' tr pool' _ IH Hs].
  - split; [| reflexivity]. cbn [initial_pool workers_ min_worker_cnt_].
    rewrite length_map, length_seq. reflexivity.
  - split; reflexivity.
  - eapply schedule_settled; eassumption.
Qed.

(** X21: the await pool neither grows nor shrinks over a call.  With the
    calls of [await] made one at a time, after each of them the free list
    holds [min_worker_cnt_] workers again and [worker_cnt_] is that number:
    a pool with workers takes the worker at the front and puts it back at
    the end, with no thread spawned; a pool made with no threads spawns a
    worker for the call and drops it afterwards. *)
Theorem await_pool_steady (St : Type) (cb : St -> St) (co : nat)
    (tl : thread_locals) (st st' : St) (tr : list event)
    (pool pool' : await_threadpool) :
  pool_reachable size_bytes pool ->
  schedule size_bytes St cb co tl st pool = Some (st', tr, pool') ->
  length (workers_ pool') = min_worker_cnt_ pool
  /\ worker_cnt_ pool' = Z.of_nat (min_worker_cnt_ pool)
  /\ length (workers_ pool) = min_worker_cnt_ pool
  /\ (tr <> [ev_call tl] ->
      match workers_ pool with
      | w :: rest =>
          exists s2, workers_ pool' = rest ++ [MkWorker s2 (sch_name w) (thd w)]
                     /\ spawned pool' = spawned pool
      | [] => workers_ pool' = [] /\ spawned pool' = S (spawned pool)
      end).
Proof.
  intros Hr Hs. pose proof (reachable_settled pool Hr) as Hset.
  destruct (schedule_settled _ _ _ _ _ _ _ _ _ Hset Hs) as ([H1 H2] & H3 & H4).
  rewrite H3 in H1, H2. destruct Hset as [H5 _]. auto.
Qed.

(** X22: the callable of an [await] sees the caller's surroundings.  When
    the call goes to a worker thread (the caller is in a scheduler, and not
    on an await thread), the callable runs there with [this_scheduler()]
    and the threadpool of the caller, inside a coroutine, on a thread
    marked as an await thread: [concurrent] called from it schedules where
    it would have from the caller, and an [await] called from it runs its
    callable in place, with no worker checked out. *)
Theorem await_forwards_context (St : Type) (cb : St -> St) (co : nat)
    (tl : thread_locals) (st st' : St) (tr : list event)
    (pool pool' : await_threadpool) :
  in_scheduler tl = true -> tl_is_await tl = false ->
  schedule size_bytes St cb co tl st pool = Some (st', tr, pool') ->
  exists wt tlw,
    tr = [ev_checkout wt; ev_park; ev_call tlw; ev_unpark; ev_checkin wt]
    /\ thread_id tlw = wt
    /\ this_scheduler tlw = this_scheduler tl
    /\ tl_this_threadpool tlw = tl_this_threadpool tl
    /\ in_coroutine tlw = true /\ is_await tlw = true
    /\ (forall w, Threadpool.concurrent_algorithm w tlw
                  = Threadpool.concurrent_algorithm w tl)
    /\ (forall St' (cb' : St' -> St') co' st0 pool0,
          schedule size_bytes St' cb' co' tlw st0 pool0
          = Some (cb' st0, [ev_call tlw], pool0)).
Proof.
  intros Hin Haw. unfold schedule. rewrite Hin, Haw. cbn [negb andb].
  destruct (checkout_worker size_bytes pool) as [w pool1].
  destruct (negb _); [| discriminate].
  destruct (Scheduler.execute_co _ _ _) as [s2 |]; [| discriminate].
  intros [= <- <- <-]. eexists _, _. split; [reflexivity |].
  unfold worker_locals. rewrite Hin. cbn [thread_id].
  split; [reflexivity |]. split; [reflexivity |]. split.
  { cbn [tl_this_threadpool]. unfold in_threadpool.
    destruct (tl_this_threadpool tl); reflexivity. }
  split; [reflexivity |]. split; [reflexivity |]. split.
  - intros w0. unfold Threadpool.concurrent_algorithm, in_scheduler, this_scheduler in *.
    cbn [tl_this_scheduler_redirect].
    destruct (tl_this_scheduler_redirect tl); [reflexivity |].
    vm_compute in Hin. discriminate.
  - intros St' cb' co' st0 pool0. cbn [tl_is_await negb andb].
    rewrite andb_false_r. reflexivity.
Qed.

End SizeT.

Lemma await_pool_steady_witness :
  length (workers_ (initial_pool 2)) = 2%nat
  /\ exists pool',
       snd <$> schedule 8 nat S 9 Channels.in_coroutine_7 41%nat (initial_pool 2)
       = Some pool'
       /\ length (workers_ pool') = 2%nat /\ worker_cnt_ pool' = 2.
Proof.
  split; [reflexivity |]. eexists. split; [reflexivity |].
  destruct (await_pool_steady 8 ltac:(lia) nat S 9 Channels.in_coroutine_7 41%nat _ _
              (initial_pool 2) _ (pool_initial 8 2) eq_refl) as (H1 & H2 & _).
  split; [exact H1 | exact H2].
Defined.

Lemma await_forwards_context_witness :
  exists wt tlw,
    snd <$> (fst <$> schedule 8 nat S 9 Channels.in_coroutine_7 41%nat (initial_pool 1))
    = Some [ev_checkout wt; ev_park; ev_call tlw; ev_unpark; ev_checkin wt]
    /\ this_scheduler tlw = Some 1%nat /\ is_await tlw = true.
Proof.
  destruct (await_forwards_context 8 nat S 9 Channels.in_coroutine_7 41%nat _ _
              (initial_pool 1) _ eq_refl eq_refl eq_refl)
    as (wt & tlw & Htr & _ & Hs & _ & _ & Ha & _).
  exists wt, tlw. injection Htr as <- <-.
  split; [reflexivity |]. split; [exact Hs | exact Ha].
Defined.

End AwaitFacts.

(** ** [run()] and the scheduler pointers of the thread
       (scheduler.hpp, 512-536 and 652-667) *)

Module RunLocals.
Import ThreadLocal Parkable Scheduler.

Definition set_schedulers (cs cs_re : option nat) (tl : thread_locals)
  : thread_locals :=
  ThreadLocals (thread_id tl) cs cs_re (tl_this_coroutine tl)
    (tl_this_threadpool tl) (tl_is_await tl).

(** the lambdas [push_scheduler_state_] and [pop_scheduler_state_] *)
Definition push_scheduler_state_ (this : nat) (tl : thread_locals) : thread_locals :=
  set_schedulers (Some this) (Some this) tl.

Definition pop_scheduler_state_ (parent_cs : option nat) (tl : thread_locals)
  : thread_locals :=
  set_schedulers parent_cs parent_cs tl.

(** the handler [catch(...)]: [if(tl_cs == this) tl_cs = parent_cs] *)
Definition catch_all (this : nat) (parent_cs : option nat) (tl : thread_locals)
  : thread_locals :=
  if bool_decide (tl_this_scheduler tl = Some this)
  then set_schedulers parent_cs (tl_this_scheduler_redirect tl) tl
  else tl.

(** the thread-locals of the calling thread when [run()] of scheduler
    [this] is left with [r]: by a return, or by the exception of a
    coroutine, which is thrown while the pushed state is in place *)
Definition run_locals (this : nat) (r : run_result) (tl : thread_locals)
  : option thread_locals :=
  let parent_cs := tl_this_scheduler tl in
  let tl1 := push_scheduler_state_ this tl in
  match r with
  | returned _ => Some (pop_scheduler_state_ parent_cs tl1)
  | raised => Some (catch_all this parent_cs tl1)
  | blocked => None
  end.

(** X23: what [run()] leaves of the scheduler pointers of its thread.
    After a return both pointers are what [tl_this_scheduler()] was on
    entry, so the thread-locals are restored when the two agreed on entry.
    After the exception of a coroutine only [tl_this_scheduler()] is
    restored: [this_scheduler()] still is the scheduler that was left, so
    that on this thread [in_scheduler()] holds, [park] takes the context of
    a coroutine in a scheduler, and [concurrent] schedules on that
    scheduler. *)
Theorem run_restores_pointers (this : nat) (r : run_result)
    (tl tl' : thread_locals) :
  run_locals this r tl = Some tl' ->
  tl_this_scheduler tl' = tl_this_scheduler tl
  /\ (forall b, r = returned b ->
        tl_this_scheduler_redirect tl' = tl_this_scheduler tl
        /\ (tl_this_scheduler_redirect tl = tl_this_scheduler tl -> tl' = tl))
  /\ (r = raised ->
        in_scheduler tl' = true /\ this_scheduler tl' = Some this
        /\ (forall q, wc (park tl' q) = Some scheduled_context)
        /\ (forall w, Threadpool.concurrent_algorithm w tl' = this)).
Proof.
  unfold run_locals. destruct r as [b | |]; [| | discriminate]; intros [= <-].
  - split; [reflexivity |]. split; [| discriminate].
    intros _ _. split; [reflexivity |]. intros H.
    destruct tl; cbn in *. subst. reflexivity.
  - unfold catch_all, push_scheduler_state_.
    cbn [tl_this_scheduler set_schedulers]. rewrite bool_decide_eq_true_2 by reflexivity.
    cbn [tl_this_scheduler tl_this_scheduler_redirect set_schedulers].
    split; [reflexivity |]. split; [discriminate |]. intros _.
    split; [reflexivity |]. split; [reflexivity |]. split; reflexivity.
Qed.

(** a thread that runs no scheduler calls [run()] of scheduler 4 *)
Lemma run_restores_pointers_witness :
  exists tl',
    run_locals 4 raised Threadpool.raw_thread = Some tl'
    /\ tl_this_scheduler tl' = None /\ in_scheduler tl' = true.
Proof.
  eexists. split; [reflexivity |].
  destruct (run_restores_pointers 4 raised Threadpool.raw_thread _ eq_refl)
    as (H1 & _ & H2).
  split; [exact H1 |]. apply H2. reflexivity.
Defined.

End RunLocals.

(** ** [condition_variable] (condition_variable.hpp)

    The lock of the user, which [wait] releases before it takes the
    private lock and takes again after it released the private lock, is not
    part of the condition variable.  The timer of a [wait_until] is an
    event that may happen at any time while the call has not removed
    it. *)

Module ConditionVariable.
Import ThreadLocal Parkable.
Local Open Scope Z_scope.

(** [std::cv_status] *)
Inductive cv_status : Type := no_timeout | timeout.

(** what a call of [wait] or [wait_until] has on its stack: the parkable,
    the key, and for [wait_until] ([timed]) the flag [notify_available] and
    the [status]; [timer_pending] holds until the handler of its timer has
    run, and [key_held] until [return_key] *)
Record waiter : Type := MkWaiter {
  p : parkable;
  key : Z;
  timed : bool;
  notify_available : bool;
  status : cv_status;
  timer_pending : bool;
  key_held : bool
}.

(** the condition variable, with the frames of the calls that wait on it,
    by the name of the call; a queue entry is the key and the call whose
    parkable its unparker holds *)
Record condition_variable : Type := MkCV {
  notify_queue_ : list (Z * nat);
  free_keys_ : list Z;
  key_source_ : Z;
  waiters : gmap nat waiter
}.

Definition set_notify_queue_ (q : list (Z * nat)) (cv : condition_variable) :=
  MkCV q (free_keys_ cv) (key_source_ cv) (waiters cv).

Definition set_waiters (ws : gmap nat waiter) (cv : condition_variable) :=
  MkCV (notify_queue_ cv) (free_keys_ cv) (key_source_ cv) ws.

(** [condition_variable()] *)
Definition new : condition_variable := MkCV [] [] 0 ∅.

Section SizeT.
Variable size_bytes : Z.

(** [borrow_key()] and [return_key(key)] *)
Definition borrow_key (cv : condition_variable) : Z * condition_variable :=
  match free_keys_ cv with
  | k :: rest => (k, MkCV (notify_queue_ cv) rest (key_source_ cv) (waiters cv))
  | [] =>
      (key_source_ cv,
       MkCV (notify_queue_ cv) []
         (Measurement.wrap size_bytes (key_source_ cv + 1)) (waiters cv))
  end.

Definition return_key (k : Z) (cv : condition_variable) : condition_variable :=
  MkCV (notify_queue_ cv) (free_keys_ cv ++ [k]) (key_source_ cv) (waiters cv).

(** the queue entry of call [id], called: an [unparker], or an
    [unparker_with_flag], which unparks only while the flag is set, and
    clears it; [None] when [unpark] throws or the frame is gone *)
Definition call_entry (id : nat) (cv : condition_variable)
  : option condition_variable :=
  w ← waiters cv !! id;
  if timed w then
    if notify_available w then
      p' ← unpark (p w);
      Some (set_waiters
              (<[id := MkWaiter p' (key w) (timed w) false (status w)
                         (timer_pending w) (key_held w)]> (waiters cv)) cv)
    else Some cv
  else
    p' ← unpark (p w);
    Some (set_waiters
            (<[id := MkWaiter p' (key w) (timed w) (notify_available w)
                       (status w) (timer_pending w) (key_held w)]> (waiters cv)) cv).

(** [wait(lk)] and [wait_until(user_lk, tp)] up to [p.park]: a key is
    borrowed, the entry is pushed, and [wait_until] starts its timer *)
Definition wait_entry (is_timed : bool) (tl : thread_locals) (id : nat)
    (cv : condition_variable) : condition_variable :=
  let '(k, cv1) := borrow_key cv in
  MkCV (notify_queue_ cv1 ++ [(k, id)]) (free_keys_ cv1) (key_source_ cv1)
    (<[id := MkWaiter (park tl Parkable.new) k is_timed true no_timeout
               is_timed true]> (waiters cv1)).

Definition wait := wait_entry false.
Definition wait_until := wait_entry true.

(** [wait(lk)] from the return of [p.park] on *)
Definition wait_after_park (id : nat) (cv : condition_variable)
  : option condition_variable :=
  w ← waiters cv !! id;
  Some (return_key (key w) (set_waiters (delete id (waiters cv)) cv)).

(** [wait_until] from the return of [p.park] to the release of the
    private lock: the key is returned *)
Definition wait_until_after_park (id : nat) (cv : condition_variable)
  : option condition_variable :=
  w ← waiters cv !! id;
  Some (return_key (key w)
          (set_waiters
             (<[id := MkWaiter (p w) (key w) (timed w) (notify_available w)
                        (status w) (timer_pending w) false]> (waiters cv)) cv)).

(** the entries before the first one with the key, and the call of that
    one *)
Fixpoint find_key (k : Z) (q : list (Z * nat)) : option nat :=
  match q with
  | [] => None
  | (k', id) :: q' => if k' =? k then Some id else find_key k q'
  end.

Fixpoint erase_key (k : Z) (q : list (Z * nat)) : list (Z * nat) :=
  match q with
  | [] => []
  | (k', id) :: q' => if k' =? k then q' else (k', id) :: erase_key k q'
  end.

(** [notify_with_key(lk, key)] *)
Definition notify_with_key (k : Z) (cv : condition_variable)
  : option condition_variable :=
  match find_key k (notify_queue_ cv) with
  | Some id =>
      cv1 ← call_entry id cv;
      Some (set_notify_queue_ (erase_key k (notify_queue_ cv1)) cv1)
  | None => Some cv
  end.

(** the handler of the timer of call [id], which runs once: when the time
    is reached, or when the timer is removed *)
Definition timer_handler (id : nat) (cv : condition_variable)
  : option condition_variable :=
  w ← waiters cv !! id;
  if notify_available w then
    notify_with_key (key w)
      (set_waiters
         (<[id := MkWaiter (p w) (key w) (timed w) (notify_available w)
                    timeout false (key_held w)]> (waiters cv)) cv)
  else
    Some (set_waiters
            (<[id := MkWaiter (p w) (key w) (timed w) (notify_available w)
                       (status w) false (key_held w)]> (waiters cv)) cv).

(** [wait_until] from [ts_.remove(id)] to its return: the handler runs
    now if it has not, and [status] is returned *)
Definition wait_until_remove_timer (id : nat) (cv : condition_variable)
  : option (cv_status * condition_variable) :=
  w ← waiters cv !! id;
  cv1 ← (if timer_pending w then timer_handler id cv else Some cv);
  w1 ← waiters cv1 !! id;
  Some (status w1, set_waiters (delete id (waiters cv1)) cv1).

(** [notify_one()] *)
Definition notify_one (cv : condition_variable) : option condition_variable :=
  match notify_queue_ cv with
  | (_, id) :: _ =>
      cv1 ← call_entry id cv;
      Some (set_notify_queue_ (tail (notify_queue_ cv1)) cv1)
  | [] => Some cv
  end.

(** [notify_all()] *)
Fixpoint call_entries (q : list (Z * nat)) (cv : condition_variable)
  : option condition_variable :=
  match q with
  | [] => Some cv
  | (_, id) :: q' => cv1 ← call_entry id cv; call_entries q' cv1
  end.

Definition notify_all (cv : condition_variable) : option condition_variable :=
  cv1 ← call_entries (notify_queue_ cv) cv;
  Some (set_notify_queue_ [] cv1).

Inductive call : Type :=
| c_wait (tl : thread_locals) (id : nat)
| c_wait_after_park (id : nat)
| c_wait_until (tl : thread_locals) (id : nat)
| c_wait_until_after_park (id : nat)
| c_wait_until_remove_timer (id : nat)
| c_timer (id : nat)
| c_notify_one
| c_notify_all.

Definition exec (k : call) (cv : condition_variable) : option condition_variable :=
  match k with
  | c_wait tl id => Some (wait tl id cv)
  | c_wait_after_park id => wait_after_park id cv
  | c_wait_until tl id => Some (wait_until tl id cv)
  | c_wait_until_after_park id => wait_until_after_park id cv
  | c_wait_until_remove_timer id => snd <$> wait_until_remove_timer id cv
  | c_timer id => timer_handler id cv
  | c_notify_one => notify_one cv
  | c_notify_all => notify_all cv
  end.

(** a frame whose call was unparked *)
Definition woken (cv : condition_variable) (id : nat) : Prop :=
  exists w, waiters cv !! id = Some w /\ notified (p w) = true.

(** when a step can happen: a new call has a name no waiting call has, and
    the keys made so far do not use up the word; a parked call goes on once
    it was unparked; the timer of a [wait_until] fires while it is
    pending *)
Definition enabled (k : call) (cv : condition_variable) : Prop :=
  match k with
  | c_wait _ id | c_wait_until _ id =>
      waiters cv !! id = None
      /\ key_source_ cv + 1 < 2 ^ Measurement.size_width size_bytes
  | c_wait_after_park id =>
      exists w, waiters cv !! id = Some w /\ notified (p w) = true
                /\ timed w = false
  | c_wait_until_after_park id =>
      exists w, waiters cv !! id = Some w /\ notified (p w) = true
                /\ timed w = true /\ key_held w = true
  | c_wait_until_remove_timer id =>
      exists w, waiters cv !! id = Some w /\ key_held w = false
  | c_timer id =>
      exists w, waiters cv !! id = Some w /\ timer_pending w = true
  | c_notify_one | c_notify_all => True
  end.

Definition step (k : call) (cv cv' : condition_variable) : Prop :=
  enabled k cv /\ exec k cv = Some cv'.

Inductive reachable : condition_variable -> Prop :=
| reach_new : reachable new
| reach_step k cv cv' : reachable cv -> step k cv cv' -> reachable cv'.


(** *** The keys *)

Hypothesis size_bytes_pos : 0 < size_bytes.

(** the keys in use and the free keys are all different, and below
    [key_source_] *)
Definition keys_ok (free : list Z) (src : Z) (ws : gmap nat waiter) : Prop :=
  NoDup free
  /\ 0 <= src < 2 ^ Measurement.size_width size_bytes
  /\ (forall k, k ∈ free -> 0 <= k < src)
  /\ (forall id w, ws !! id = Some w -> key_held w = true ->
        (key w ∉ free) /\ 0 <= key w < src)
  /\ (forall id1 id2 w1 w2,
        ws !! id1 = Some w1 -> ws !! id2 = Some w2 ->
        key_held w1 = true -> key_held w2 = true -> key w1 = key w2 ->
        id1 = id2).

Lemma keys_ok_delete free src ws id :
  keys_ok free src ws -> keys_ok free src (delete id ws).
Proof.
  intros (H1 & H2 & H3 & H4 & H5).
  split; [exact H1 |]. split; [exact H2 |]. split; [exact H3 |]. split.
  - intros i x Hi Hx. apply lookup_delete_Some in Hi as [_ Hi].
    apply (H4 i x Hi Hx).
  - intros id1 id2 w1 w2 Ha Hb. apply lookup_delete_Some in Ha as [_ Ha].
    apply lookup_delete_Some in Hb as [_ Hb]. eapply H5; eassumption.
Qed.

Lemma keys_ok_update free src ws id w w' :
  keys_ok free src ws -> ws !! id = Some w ->
  key w' = key w -> key_held w' = key_held w ->
  keys_ok free src (<[id := w']> ws).
Proof.
  intros (H1 & H2 & H3 & H4 & H5) Hw Hk Hh.
  assert (Hlook : forall i x, <[id := w']> ws !! i = Some x ->
            exists y, ws !! i = Some y /\ key x = key y /\ key_held x = key_held y).
  { intros i x. destruct (decide (id = i)) as [-> | Hne].
    - rewrite lookup_insert_eq. intros [= <-]. eauto.
    - rewrite lookup_insert_ne by exact Hne. eauto. }
  split; [exact H1 |]. split; [exact H2 |]. split; [exact H3 |]. split.
  - intros i x Hi Hx. destruct (Hlook _ _ Hi) as (y & Hy & -> & Hyh).
    apply (H4 i y Hy). congruence.
  - intros i1 i2 x1 x2 Ha Hb Hxa Hxb Hkk.
    destruct (Hlook _ _ Ha) as (y1 & Hy1 & Hk1 & Hh1).
    destruct (Hlook _ _ Hb) as (y2 & Hy2 & Hk2 & Hh2).
    apply (H5 i1 i2 y1 y2); congruence.
Qed.

Lemma keys_ok_release free src ws id w w' :
  keys_ok free src ws -> ws !! id = Some w -> key_held w = true ->
  key_held w' = false ->
  keys_ok (free ++ [key w]) src (<[id := w']> ws).
Proof.
  intros (H1 & H2 & H3 & H4 & H5) Hw Hh Hh'.
  destruct (H4 id w Hw Hh) as [Hnin Hrange].
  split; [| split; [exact H2 |]; split; [| split]].
  - apply NoDup_app. split; [exact H1 |]. split; [| apply NoDup_singleton].
    intros x Hx Hx'. apply list_elem_of_singleton in Hx' as ->. contradiction.
  - intros k Hk. apply elem_of_app in Hk as [Hk | Hk]; [apply H3, Hk |].
    apply list_elem_of_singleton in Hk as ->. exact Hrange.
  - intros i x Hi Hx. destruct (decide (id = i)) as [-> | Hne].
    { rewrite lookup_insert_eq in Hi. injection Hi as <-. congruence. }
    rewrite lookup_insert_ne in Hi by exact Hne.
    destruct (H4 i x Hi Hx) as [Hnin' Hr']. split; [| exact Hr'].
    intros Hin. apply elem_of_app in Hin as [Hin | Hin]; [contradiction |].
    apply list_elem_of_singleton in Hin.
    apply Hne. apply (H5 id i w x); congruence.
  - intros i1 i2 x1 x2 Ha Hb Hxa Hxb Hkk.
    destruct (decide (id = i1)) as [-> | Hne1].
    { rewrite lookup_insert_eq in Ha. injection Ha as <-. congruence. }
    destruct (decide (id = i2)) as [-> | Hne2].
    { rewrite lookup_insert_eq in Hb. injection Hb as <-. congruence. }
    rewrite lookup_insert_ne in Ha by exact Hne1.
    rewrite lookup_insert_ne in Hb by exact Hne2.
    apply (H5 i1 i2 x1 x2); assumption.
Qed.

Lemma keys_ok_borrow cv id w' :
  keys_ok (free_keys_ cv) (key_source_ cv) (waiters cv) ->
  waiters cv !! id = None ->
  key_source_ cv + 1 < 2 ^ Measurement.size_width size_bytes ->
  key w' = fst (borrow_key cv) ->
  keys_ok (free_keys_ (snd (borrow_key cv))) (key_source_ (snd (borrow_key cv)))
    (<[id := w']> (waiters cv)).
Proof.
  intros (H1 & H2 & H3 & H4 & H5) Hfresh Hroom Hk. unfold borrow_key in *.
  destruct (free_keys_ cv) as [| k rest] eqn:Hfree; cbn [fst snd free_keys_ key_source_] in *.
  - assert (Hw : Measurement.wrap size_bytes (key_source_ cv + 1) = key_source_ cv + 1)
      by (apply Z.mod_small; lia).
    rewrite Hw. split; [apply NoDup_nil_2 |]. split; [lia |].
    split; [intros k Hk'; inversion Hk' |]. split.
    + intros i x Hi Hx. split; [apply not_elem_of_nil |].
      destruct (decide (id = i)) as [-> | Hne].
      * rewrite lookup_insert_eq in Hi. injection Hi as <-. lia.
      * rewrite lookup_insert_ne in Hi by exact Hne.
        destruct (H4 i x Hi Hx) as [_ Hr]. lia.
    + intros i1 i2 x1 x2 Ha Hb Hxa Hxb Hkk.
      destruct (decide (id = i1)) as [E1 | Hne1];
        destruct (decide (id = i2)) as [E2 | Hne2]; [congruence | subst i1 | subst i2 |].
      * rewrite lookup_insert_eq in Ha. injection Ha as <-.
        rewrite lookup_insert_ne in Hb by exact Hne2.
        destruct (H4 i2 x2 Hb Hxb) as [_ Hr]. lia.
      * rewrite lookup_insert_eq in Hb. injection Hb as <-.
        rewrite lookup_insert_ne in Ha by exact Hne1.
        destruct (H4 i1 x1 Ha Hxa) as [_ Hr]. lia.
      * rewrite lookup_insert_ne in Ha by exact Hne1.
        rewrite lookup_insert_ne in Hb by exact Hne2.
        apply (H5 i1 i2 x1 x2); assumption.
  - apply NoDup_cons in H1 as [Hnin Hnd].
    split; [exact Hnd |]. split; [exact H2 |].
    split; [intros k' Hk'; apply H3; right; exact Hk' |]. split.
    + intros i x Hi Hx. destruct (decide (id = i)) as [-> | Hne].
      * rewrite lookup_insert_eq in Hi. injection Hi as <-. rewrite Hk.
        split; [exact Hnin | apply H3; left].
      * rewrite lookup_insert_ne in Hi by exact Hne.
        destruct (H4 i x Hi Hx) as [Hn Hr]. split; [| exact Hr].
        intros Hin. apply Hn. right. exact Hin.
    + intros i1 i2 x1 x2 Ha Hb Hxa Hxb Hkk.
      destruct (decide (id = i1)) as [E1 | Hne1];
        destruct (decide (id = i2)) as [E2 | Hne2]; [congruence | subst i1 | subst i2 |].
      * rewrite lookup_insert_eq in Ha. injection Ha as <-.
        rewrite lookup_insert_ne in Hb by exact Hne2.
        destruct (H4 i2 x2 Hb Hxb) as [Hn _]. exfalso. apply Hn.
        rewrite <- Hkk, Hk. left.
      * rewrite lookup_insert_eq in Hb. injection Hb as <-.
        rewrite lookup_insert_ne in Ha by exact Hne1.
        destruct (H4 i1 x1 Ha Hxa) as [Hn _]. exfalso. apply Hn.
        rewrite Hkk, Hk. left.
      * rewrite lookup_insert_ne in Ha by exact Hne1.
        rewrite lookup_insert_ne in Hb by exact Hne2.
        apply (H5 i1 i2 x1 x2); assumption.
Qed.


(** *** The queue and the frames *)

(** every queue entry is the unparker of a call that waits, once, with
    its key and its flag set; a call that was not unparked is in the queue;
    the flag of a [wait_until] that was unparked is clear; a call that gave
    its key back was unparked; only [wait_until] has a timer; and the
    status of a call that waits is [no_timeout] *)
Definition queue_ok (q : list (Z * nat)) (ws : gmap nat waiter) : Prop :=
  NoDup (q.*2)
  /\ (forall (k : Z) (id : nat), (k, id) ∈ q ->
        exists w, ws !! id = Some w /\ key w = k /\ key_held w = true
          /\ is_Some (wc (p w)) /\ notified (p w) = false
          /\ notify_available w = true)
  /\ (forall id w, ws !! id = Some w -> notified (p w) = false ->
        (key w, id) ∈ q)
  /\ (forall id w, ws !! id = Some w -> notified (p w) = true ->
        timed w = true -> notify_available w = false)
  /\ (forall id w, ws !! id = Some w -> key_held w = false ->
        notified (p w) = true /\ timed w = true)
  /\ (forall id w, ws !! id = Some w -> timer_pending w = true ->
        timed w = true)
  /\ (forall id w, ws !! id = Some w -> notified (p w) = false ->
        status w = no_timeout).

Definition wf (cv : condition_variable) : Prop :=
  keys_ok (free_keys_ cv) (key_source_ cv) (waiters cv)
  /\ queue_ok (notify_queue_ cv) (waiters cv).

(** the frame of a call after its queue entry was called *)
Definition unparked (w : waiter) : waiter :=
  MkWaiter (MkParkable (wc (p w)) true) (key w) (timed w)
    (if timed w then false else notify_available w)
    (status w) (timer_pending w) (key_held w).

Lemma queue_entry_id (q1 : list (Z * nat)) k id q2 k' id' :
  NoDup ((q1 ++ (k, id) :: q2).*2) -> (k', id') ∈ q1 ++ q2 -> id' <> id.
Proof.
  rewrite fmap_app, fmap_cons. cbn [snd]. intros Hnd Hin ->.
  apply NoDup_app in Hnd as (_ & Hdis & Hnd2).
  apply NoDup_cons in Hnd2 as [Hnin _].
  apply elem_of_app in Hin as [Hin | Hin].
  - apply (Hdis id); [| left].
    apply list_elem_of_fmap. exists (k', id). auto.
  - apply Hnin. apply list_elem_of_fmap. exists (k', id). auto.
Qed.

Lemma queue_ok_called (q1 : list (Z * nat)) k id q2 ws w :
  queue_ok (q1 ++ (k, id) :: q2) ws -> ws !! id = Some w ->
  queue_ok (q1 ++ q2) (<[id := unparked w]> ws).
Proof.
  intros (Q1 & Q2 & F1 & F2 & F3 & F4 & S1) Hw.
  assert (Hsub : forall x, x ∈ q1 ++ q2 -> x ∈ q1 ++ (k, id) :: q2).
  { intros x Hx. apply elem_of_app in Hx as [Hx | Hx]; apply elem_of_app;
      [left | right; right]; exact Hx. }
  split; [| split; [| split; [| split; [| split; [| split]]]]].
  - revert Q1. rewrite !fmap_app, fmap_cons. intros Q1.
    apply NoDup_app in Q1 as (Ha & Hdis & Hb).
    apply NoDup_cons in Hb as [_ Hb]. apply NoDup_app.
    split; [exact Ha |]. split; [| exact Hb].
    intros x Hx Hx'. apply (Hdis x Hx). right. exact Hx'.
  - intros k' id' Hin.
    pose proof (queue_entry_id _ _ _ _ _ _ Q1 Hin) as Hne.
    rewrite lookup_insert_ne by congruence. apply Q2, Hsub, Hin.
  - intros i x Hi Hn. destruct (decide (id = i)) as [<- | Hne].
    { rewrite lookup_insert_eq in Hi. injection Hi as <-. discriminate. }
    rewrite lookup_insert_ne in Hi by exact Hne.
    specialize (F1 i x Hi Hn). apply elem_of_app in F1 as [H | H];
      [apply elem_of_app; left; exact H |].
    apply elem_of_cons in H as [H | H]; [congruence |].
    apply elem_of_app; right; exact H.
  - intros i x Hi Hn Ht. destruct (decide (id = i)) as [<- | Hne].
    { rewrite lookup_insert_eq in Hi. injection Hi as <-. cbn in *.
      rewrite Ht. reflexivity. }
    rewrite lookup_insert_ne in Hi by exact Hne. eapply F2; eassumption.
  - intros i x Hi Hh. destruct (decide (id = i)) as [<- | Hne].
    { rewrite lookup_insert_eq in Hi. injection Hi as <-. cbn in *.
      split; [reflexivity |]. apply (F3 id w Hw Hh). }
    rewrite lookup_insert_ne in Hi by exact Hne. eapply F3; eassumption.
  - intros i x Hi Hh. destruct (decide (id = i)) as [<- | Hne].
    { rewrite lookup_insert_eq in Hi. injection Hi as <-. cbn in *.
      apply (F4 id w Hw Hh). }
    rewrite lookup_insert_ne in Hi by exact Hne. eapply F4; eassumption.
  - intros i x Hi Hn. destruct (decide (id = i)) as [<- | Hne].
    { rewrite lookup_insert_eq in Hi. injection Hi as <-. discriminate. }
    rewrite lookup_insert_ne in Hi by exact Hne. eapply S1; eassumption.
Qed.

(** calling an entry of the queue unparks its call, and nothing else *)
Lemma call_entry_queued (q1 : list (Z * nat)) k id q2 cv :
  queue_ok (q1 ++ (k, id) :: q2) (waiters cv) ->
  exists w, waiters cv !! id = Some w /\ key w = k
    /\ call_entry id cv
       = Some (set_waiters (<[id := unparked w]> (waiters cv)) cv).
Proof.
  intros (_ & Q2 & _).
  destruct (Q2 k id) as (w & Hw & Hk & _ & [c Hwc] & _ & Hfl).
  { apply elem_of_app. right. left. }
  exists w. split; [exact Hw |]. split; [exact Hk |].
  unfold call_entry, unparked. rewrite Hw. cbn [mbind option_bind].
  unfold unpark. rewrite Hwc, Hfl.
  destruct (timed w) eqn:Ht; cbn [mbind option_bind]; rewrite ?Ht; reflexivity.
Qed.


(** a change of a frame that leaves the parkable, the key and the flag *)
Lemma queue_ok_update q ws id w w' :
  queue_ok q ws -> ws !! id = Some w ->
  p w' = p w -> key w' = key w -> timed w' = timed w ->
  notify_available w' = notify_available w ->
  (key_held w' = key_held w
   \/ (key_held w' = false /\ notified (p w) = true /\ timed w = true)) ->
  (timer_pending w' = true -> timer_pending w = true) ->
  (status w' = status w \/ notified (p w) = true) ->
  queue_ok q (<[id := w']> ws).
Proof.
  intros (Q1 & Q2 & F1 & F2 & F3 & F4 & S1) Hw Hp Hk Ht Hf Hh Htp Hs.
  assert (Hlook : forall i x, <[id := w']> ws !! i = Some x ->
            (i = id /\ x = w') \/ (i <> id /\ ws !! i = Some x)).
  { intros i x. destruct (decide (id = i)) as [-> | Hne].
    - rewrite lookup_insert_eq. intros [= <-]. auto.
    - rewrite lookup_insert_ne by exact Hne. auto. }
  split; [exact Q1 |]. split; [| split; [| split; [| split; [| split]]]].
  - intros k i Hin. destruct (Q2 k i Hin) as (x & Hx & Hxk & Hxh & Hwc & Hn & Hfl).
    destruct (decide (id = i)) as [-> | Hne].
    + rewrite lookup_insert_eq. exists w'. rewrite Hx in Hw. injection Hw as <-.
      split; [reflexivity |]. rewrite Hp, Hk, Hf.
      destruct Hh as [Hh | (_ & Hn' & _)]; [| congruence].
      rewrite Hh. repeat split; assumption.
    + rewrite lookup_insert_ne by exact Hne. exists x. repeat split; assumption.
  - intros i x Hi Hn. destruct (Hlook _ _ Hi) as [[-> ->] | [_ Hx]].
    + rewrite Hk. apply (F1 id w Hw). congruence.
    + apply (F1 i x Hx Hn).
  - intros i x Hi Hn Htx. destruct (Hlook _ _ Hi) as [[-> ->] | [_ Hx]].
    + rewrite Hf. apply (F2 id w Hw); congruence.
    + apply (F2 i x Hx Hn Htx).
  - intros i x Hi Hhx. destruct (Hlook _ _ Hi) as [[-> ->] | [_ Hx]].
    + rewrite Hp, Ht. destruct Hh as [Hh | (_ & Hn & Htw)]; [| auto].
      apply (F3 id w Hw). congruence.
    + apply (F3 i x Hx Hhx).
  - intros i x Hi Hpx. destruct (Hlook _ _ Hi) as [[-> ->] | [_ Hx]].
    + rewrite Ht. apply (F4 id w Hw). auto.
    + apply (F4 i x Hx Hpx).
  - intros i x Hi Hn. destruct (Hlook _ _ Hi) as [[-> ->] | [_ Hx]].
    + rewrite Hp in Hn. destruct Hs as [Hs | Hs]; [| congruence].
      rewrite Hs. apply (S1 id w Hw Hn).
    + apply (S1 i x Hx Hn).
Qed.

Lemma queue_ok_delete q ws id w :
  queue_ok q ws -> ws !! id = Some w -> notified (p w) = true ->
  queue_ok q (delete id ws).
Proof.
  intros (Q1 & Q2 & F1 & F2 & F3 & F4 & S1) Hw Hn.
  assert (Hlook : forall i x, delete id ws !! i = Some x -> ws !! i = Some x).
  { intros i x Hi. apply lookup_delete_Some in Hi as [_ Hi]. exact Hi. }
  split; [exact Q1 |]. split; [| split; [| split; [| split; [| split]]]]; eauto.
  intros k i Hin. destruct (Q2 k i Hin) as (x & Hx & Hrest).
  exists x. split; [| exact Hrest].
  rewrite lookup_delete_ne; [exact Hx |]. intros ->.
  rewrite Hx in Hw. injection Hw as <-. destruct Hrest as (_ & _ & _ & Hn' & _).
  congruence.
Qed.

Lemma queue_ok_push q ws id k is_timed tl :
  queue_ok q ws -> ws !! id = None ->
  queue_ok (q ++ [(k, id)])
    (<[id := MkWaiter (park tl Parkable.new) k is_timed true no_timeout
               is_timed true]> ws).
Proof.
  intros (Q1 & Q2 & F1 & F2 & F3 & F4 & S1) Hfresh.
  assert (Hnin : id ∉ q.*2).
  { intros Hin. apply list_elem_of_fmap in Hin as ([k' i] & Heq & Hin).
    cbn in Heq. subst i. destruct (Q2 k' id Hin) as (x & Hx & _). congruence. }
  assert (Hlook : forall i x,
            <[id := MkWaiter (park tl Parkable.new) k is_timed true no_timeout
                       is_timed true]> ws !! i = Some x ->
            (i = id /\ x = MkWaiter (park tl Parkable.new) k is_timed true
                             no_timeout is_timed true)
            \/ (i <> id /\ ws !! i = Some x)).
  { intros i x. destruct (decide (id = i)) as [-> | Hne].
    - rewrite lookup_insert_eq. intros [= <-]. auto.
    - rewrite lookup_insert_ne by exact Hne. auto. }
  split; [| split; [| split; [| split; [| split; [| split]]]]].
  - rewrite fmap_app. cbn. apply NoDup_app. split; [exact Q1 |].
    split; [| apply NoDup_singleton].
    intros x Hx Hx'. apply list_elem_of_singleton in Hx' as ->. contradiction.
  - intros k' i Hin. apply elem_of_app in Hin as [Hin | Hin].
    + destruct (Q2 k' i Hin) as (x & Hx & Hrest). exists x. split; [| exact Hrest].
      rewrite lookup_insert_ne; [exact Hx |]. intros ->. congruence.
    + apply list_elem_of_singleton in Hin. injection Hin as -> ->.
      rewrite lookup_insert_eq. eexists. split; [reflexivity |]. cbn.
      repeat split; eauto.
  - intros i x Hi Hn. destruct (Hlook _ _ Hi) as [[-> ->] | [_ Hx]].
    + apply elem_of_app. right. left.
    + apply elem_of_app. left. apply (F1 i x Hx Hn).
  - intros i x Hi Hn Htx. destruct (Hlook _ _ Hi) as [[-> ->] | [_ Hx]].
    + discriminate.
    + apply (F2 i x Hx Hn Htx).
  - intros i x Hi Hhx. destruct (Hlook _ _ Hi) as [[-> ->] | [_ Hx]].
    + discriminate.
    + apply (F3 i x Hx Hhx).
  - intros i x Hi Hpx. destruct (Hlook _ _ Hi) as [[-> ->] | [_ Hx]].
    + exact Hpx.
    + apply (F4 i x Hx Hpx).
  - intros i x Hi Hn. destruct (Hlook _ _ Hi) as [[-> ->] | [_ Hx]].
    + reflexivity.
    + apply (S1 i x Hx Hn).
Qed.


(** *** The operations keep the invariant *)

Lemma cv_wf_called (q1 : list (Z * nat)) k id q2 free src ws w :
  keys_ok free src ws -> queue_ok (q1 ++ (k, id) :: q2) ws ->
  ws !! id = Some w ->
  keys_ok free src (<[id := unparked w]> ws)
  /\ queue_ok (q1 ++ q2) (<[id := unparked w]> ws).
Proof.
  intros Hk Hq Hw. split.
  - eapply keys_ok_update; [exact Hk | exact Hw | reflexivity | reflexivity].
  - apply (queue_ok_called q1 k id q2); assumption.
Qed.

Lemma cv_notify_one_wf cv :
  wf cv ->
  match notify_queue_ cv with
  | [] => notify_one cv = Some cv
  | (k, id) :: rest =>
      exists w, waiters cv !! id = Some w /\ key w = k
        /\ notify_one cv
           = Some (MkCV rest (free_keys_ cv) (key_source_ cv)
                     (<[id := unparked w]> (waiters cv)))
        /\ wf (MkCV rest (free_keys_ cv) (key_source_ cv)
                 (<[id := unparked w]> (waiters cv)))
  end.
Proof.
  intros [Hk Hq]. unfold notify_one.
  destruct (notify_queue_ cv) as [| [k id] rest] eqn:Hqe; [reflexivity |].
  destruct (call_entry_queued [] k id rest cv) as (w & Hw & Hkw & Hcall);
    [exact Hq |].
  exists w. split; [exact Hw |]. split; [exact Hkw |]. rewrite Hcall.
  cbn [mbind option_bind notify_queue_ set_waiters set_notify_queue_].
  rewrite Hqe. split; [reflexivity |].
  destruct (cv_wf_called [] k id rest _ _ _ w Hk Hq Hw) as [H1 H2].
  split; assumption.
Qed.

Lemma call_entries_wf q : forall cv,
  keys_ok (free_keys_ cv) (key_source_ cv) (waiters cv) ->
  queue_ok q (waiters cv) ->
  exists ws,
    call_entries q cv = Some (set_waiters ws cv)
    /\ keys_ok (free_keys_ cv) (key_source_ cv) ws /\ queue_ok [] ws
    /\ (forall k id, (k, id) ∈ q ->
          exists w, waiters cv !! id = Some w /\ ws !! id = Some (unparked w))
    /\ (forall id, id ∉ q.*2 -> ws !! id = waiters cv !! id).
Proof.
  induction q as [| [k id] q IH]; intros cv Hk Hq.
  - exists (waiters cv). split; [destruct cv; reflexivity |].
    split; [exact Hk |]. split; [exact Hq |].
    split; [intros k id H; inversion H | reflexivity].
  - destruct (call_entry_queued [] k id q cv Hq) as (w & Hw & Hkw & Hcall).
    destruct (cv_wf_called [] k id q _ _ _ w Hk Hq Hw) as [Hk1 Hq1].
    cbn [call_entries]. rewrite Hcall. cbn [mbind option_bind].
    destruct (IH (set_waiters (<[id := unparked w]> (waiters cv)) cv) Hk1 Hq1)
      as (ws & Hces & Hk2 & Hq2 & Hin & Hout).
    exists ws. split; [exact Hces |]. split; [exact Hk2 |]. split; [exact Hq2 |].
    assert (Hnin : id ∉ q.*2).
    { destruct Hq as [Q1 _]. cbn in Q1. apply NoDup_cons in Q1 as [H _]. exact H. }
    split.
    + intros k' id' Hin'. apply elem_of_cons in Hin' as [[= -> ->] | Hin'].
      * exists w. split; [exact Hw |]. rewrite (Hout id Hnin).
        cbn [waiters set_waiters]. apply lookup_insert_eq.
      * destruct (Hin k' id' Hin') as (x & Hx & Hx'). cbn [waiters set_waiters] in Hx.
        rewrite lookup_insert_ne in Hx; [eauto |].
        intros ->. apply Hnin. apply list_elem_of_fmap. exists (k', id'). auto.
    + intros id' Hnin'. cbn in Hnin'. apply not_elem_of_cons in Hnin' as [Hne Hnin'].
      rewrite (Hout id' Hnin'). cbn [waiters set_waiters].
      apply lookup_insert_ne. congruence.
Qed.

Lemma find_key_split k q id :
  find_key k q = Some id ->
  exists q1 q2, q = q1 ++ (k, id) :: q2 /\ erase_key k q = q1 ++ q2.
Proof.
  induction q as [| [k' id'] q IH]; [discriminate |]. cbn [find_key erase_key].
  destruct (Z.eqb_spec k' k) as [-> | Hne].
  - intros [= ->]. exists [], q. split; reflexivity.
  - intros H. destruct (IH H) as (q1 & q2 & -> & ->).
    exists ((k', id') :: q1), q2. split; reflexivity.
Qed.

Lemma find_key_in k q id : (k, id) ∈ q -> is_Some (find_key k q).
Proof.
  induction q as [| [k' id'] q IH]; [intros H; inversion H |].
  intros H. cbn [find_key]. destruct (Z.eqb_spec k' k) as [-> | Hne]; [eauto |].
  apply elem_of_cons in H as [[= -> ->] | H]; [contradiction | auto].
Qed.

(** the handler of the timer of a call that still waits: that call, and
    no other, is unparked, with the status [timeout] *)
Lemma timer_handler_waiting cv id w :
  wf cv -> waiters cv !! id = Some w -> notify_available w = true ->
  timer_pending w = true ->
  exists q1 q2,
    notify_queue_ cv = q1 ++ (key w, id) :: q2
    /\ notified (p w) = false
    /\ timer_handler id cv
       = Some (MkCV (q1 ++ q2) (free_keys_ cv) (key_source_ cv)
                 (<[id := MkWaiter (MkParkable (wc (p w)) true) (key w) true
                            false timeout false true]> (waiters cv)))
    /\ wf (MkCV (q1 ++ q2) (free_keys_ cv) (key_source_ cv)
             (<[id := MkWaiter (MkParkable (wc (p w)) true) (key w) true
                        false timeout false true]> (waiters cv))).
Proof.
  intros [Hk Hq] Hw Hfl Htp. pose proof Hq as (Q1 & Q2 & F1 & F2 & F3 & F4 & S1).
  pose proof (F4 id w Hw Htp) as Ht.
  assert (Hn : notified (p w) = false).
  { destruct (notified (p w)) eqn:E; [| reflexivity].
    rewrite (F2 id w Hw E Ht) in Hfl. discriminate. }
  assert (Hh : key_held w = true).
  { destruct (key_held w) eqn:E; [reflexivity |].
    destruct (F3 id w Hw E) as [H _]. congruence. }
  pose proof (F1 id w Hw Hn) as Hin.
  destruct (find_key_in _ _ _ Hin) as [id' Hfind].
  destruct (find_key_split _ _ _ Hfind) as (q1 & q2 & Hsplit & Herase).
  assert (id' = id) as ->.
  { destruct (Q2 (key w) id') as (w' & Hw' & Hk' & Hh' & _);
      [rewrite Hsplit; apply elem_of_app; right; left |].
    destruct Hk as (_ & _ & _ & _ & K5). apply (K5 id' id w' w); assumption. }
  exists q1, q2. split; [exact Hsplit |]. split; [exact Hn |].
  destruct (Q2 (key w) id Hin) as (w0 & Hw0 & _ & _ & [c Hwc] & _).
  rewrite Hw in Hw0. injection Hw0 as <-.
  split.
  - unfold timer_handler. rewrite Hw. cbn [mbind option_bind]. rewrite Hfl.
    unfold notify_with_key. cbn [notify_queue_ set_waiters]. rewrite Hfind.
    unfold call_entry. cbn [waiters set_waiters]. rewrite lookup_insert_eq.
    cbn [mbind option_bind timed notify_available p]. rewrite ?Ht, ?Hfl.
    unfold unpark. rewrite Hwc. cbn [mbind option_bind].
    cbn [set_notify_queue_ notify_queue_ set_waiters free_keys_ key_source_ waiters].
    rewrite Herase, insert_insert_eq. cbn [key status timer_pending key_held].
    rewrite ?Hh, ?Ht. reflexivity.
  - rewrite Hsplit in Hq.
    destruct (cv_wf_called q1 (key w) id q2 _ _ _ w Hk Hq Hw) as [Hk1 Hq1].
    split; cbn [notify_queue_ free_keys_ key_source_ waiters].
    + eapply keys_ok_update; [exact Hk | exact Hw | reflexivity |].
      cbn. symmetry. exact Hh.
    + match goal with
      | |- queue_ok _ (<[id := ?x]> _) =>
          replace (<[id := x]> (waiters cv))
            with (<[id := x]> (<[id := unparked w]> (waiters cv)))
            by apply insert_insert_eq
      end.
      eapply queue_ok_update; [exact Hq1 | apply lookup_insert_eq | ..]; cbn;
        rewrite ?Ht, ?Hh; auto.
Qed.

(** the handler of a timer whose call was unparked already changes
    nothing but [timer_pending] *)
Lemma timer_handler_late cv id w :
  wf cv -> waiters cv !! id = Some w -> notify_available w = false ->
  timer_handler id cv
  = Some (set_waiters
            (<[id := MkWaiter (p w) (key w) (timed w) (notify_available w)
                       (status w) false (key_held w)]> (waiters cv)) cv)
  /\ wf (set_waiters
           (<[id := MkWaiter (p w) (key w) (timed w) (notify_available w)
                      (status w) false (key_held w)]> (waiters cv)) cv).
Proof.
  intros [Hk Hq] Hw Hfl. split.
  - unfold timer_handler. rewrite Hw. cbn [mbind option_bind]. rewrite Hfl.
    reflexivity.
  - split; cbn [set_waiters notify_queue_ free_keys_ key_source_ waiters].
    + eapply keys_ok_update; [exact Hk | exact Hw | reflexivity | reflexivity].
    + eapply queue_ok_update; [exact Hq | exact Hw | ..]; cbn; auto; discriminate.
Qed.


Lemma cv_wf_new : wf new.
Proof.
  unfold wf, new. cbn [notify_queue_ free_keys_ key_source_ waiters]. split.
  - split; [apply NoDup_nil_2 |].
    split; [split; [lia | apply Z.pow_pos_nonneg; unfold Measurement.size_width; lia] |].
    split; [intros k H; inversion H |].
    split; [intros id w H; rewrite lookup_empty in H; discriminate |].
    intros id1 id2 w1 w2 H. rewrite lookup_empty in H. discriminate.
  - split; [apply NoDup_nil_2 |].
    split; [intros k id H; inversion H |].
    split; [| split; [| split; [| split]]]; intros i x Hi;
      rewrite lookup_empty in Hi; discriminate.
Qed.

Lemma wait_entry_wf is_timed tl id cv :
  wf cv -> waiters cv !! id = None ->
  key_source_ cv + 1 < 2 ^ Measurement.size_width size_bytes ->
  wf (wait_entry is_timed tl id cv).
Proof.
  intros [Hk Hq] Hfresh Hroom. unfold wait_entry.
  pose proof (keys_ok_borrow cv id
                (MkWaiter (park tl Parkable.new) (fst (borrow_key cv)) is_timed
                   true no_timeout is_timed true) Hk Hfresh Hroom eq_refl) as Hk'.
  assert (Hq' : notify_queue_ (snd (borrow_key cv)) = notify_queue_ cv
                /\ waiters (snd (borrow_key cv)) = waiters cv).
  { unfold borrow_key. destruct (free_keys_ cv); split; reflexivity. }
  destruct Hq' as [Hq1 Hq2].
  destruct (borrow_key cv) as [k cv1]. cbn [fst snd] in *.
  split; cbn [notify_queue_ free_keys_ key_source_ waiters].
  - rewrite Hq2. exact Hk'.
  - rewrite Hq1, Hq2. apply queue_ok_push; assumption.
Qed.

Lemma held_unless_timed ws q id w :
  queue_ok q ws -> ws !! id = Some w -> timed w = false -> key_held w = true.
Proof.
  intros (_ & _ & _ & _ & F3 & _) Hw Ht.
  destruct (key_held w) eqn:Hh; [reflexivity |].
  destruct (F3 id w Hw Hh) as [_ Ht']. congruence.
Qed.

Lemma wait_after_park_wf id cv w :
  wf cv -> waiters cv !! id = Some w -> notified (p w) = true ->
  timed w = false ->
  exists cv', wait_after_park id cv = Some cv' /\ wf cv'.
Proof.
  intros [Hk Hq] Hw Hn Ht. unfold wait_after_park. rewrite Hw.
  cbn [mbind option_bind]. eexists. split; [reflexivity |].
  unfold return_key. cbn [notify_queue_ free_keys_ key_source_ waiters set_waiters].
  split; cbn [notify_queue_ free_keys_ key_source_ waiters].
  - rewrite <- (delete_insert_eq (waiters cv) id
                 (MkWaiter (p w) (key w) (timed w) (notify_available w)
                    (status w) (timer_pending w) false)).
    apply keys_ok_delete.
    apply (keys_ok_release _ _ _ id w); [exact Hk | exact Hw | | reflexivity].
    eapply held_unless_timed; eassumption.
  - eapply queue_ok_delete; eassumption.
Qed.

Lemma wait_until_after_park_wf id cv w :
  wf cv -> waiters cv !! id = Some w -> notified (p w) = true ->
  timed w = true -> key_held w = true ->
  exists cv', wait_until_after_park id cv = Some cv' /\ wf cv'.
Proof.
  intros [Hk Hq] Hw Hn Ht Hh. unfold wait_until_after_park. rewrite Hw.
  cbn [mbind option_bind]. eexists. split; [reflexivity |].
  unfold return_key. cbn [notify_queue_ free_keys_ key_source_ waiters set_waiters].
  split; cbn [notify_queue_ free_keys_ key_source_ waiters].
  - apply (keys_ok_release _ _ _ id w); [exact Hk | exact Hw | exact Hh | reflexivity].
  - eapply queue_ok_update; [exact Hq | exact Hw | ..]; cbn; auto.
Qed.

Lemma wait_until_remove_timer_wf id cv w :
  wf cv -> waiters cv !! id = Some w -> key_held w = false ->
  exists cv', wait_until_remove_timer id cv = Some (status w, cv') /\ wf cv'
    /\ notify_queue_ cv' = notify_queue_ cv
    /\ waiters cv' = delete id (waiters cv).
Proof.
  intros Hwf Hw Hh. pose proof Hwf as [Hk Hq].
  pose proof Hq as (_ & _ & _ & F2 & F3 & _).
  destruct (F3 id w Hw Hh) as [Hn Ht]. pose proof (F2 id w Hw Hn Ht) as Hfl.
  unfold wait_until_remove_timer. rewrite Hw. cbn [mbind option_bind].
  destruct (timer_pending w) eqn:Htp.
  - destruct (timer_handler_late cv id w Hwf Hw Hfl) as [Hth [Hk1 Hq1]].
    rewrite Hth. cbn [mbind option_bind waiters set_waiters].
    rewrite lookup_insert_eq. cbn [mbind option_bind status].
    eexists. split; [reflexivity |].
    cbn [notify_queue_ free_keys_ key_source_ waiters set_waiters] in *.
    rewrite delete_insert_eq.
    split; [| split; reflexivity].
    split; cbn [notify_queue_ free_keys_ key_source_ waiters].
    + apply keys_ok_delete. exact Hk.
    + eapply queue_ok_delete; eassumption.
  - cbn [mbind option_bind]. rewrite Hw. cbn [mbind option_bind].
    eexists. split; [reflexivity |]. split; [| split; reflexivity].
    split; cbn [notify_queue_ free_keys_ key_source_ waiters set_waiters].
    + apply keys_ok_delete. exact Hk.
    + eapply queue_ok_delete; eassumption.
Qed.

Lemma cv_notify_all_wf cv :
  wf cv ->
  exists ws,
    notify_all cv = Some (MkCV [] (free_keys_ cv) (key_source_ cv) ws)
    /\ wf (MkCV [] (free_keys_ cv) (key_source_ cv) ws)
    /\ (forall k id, (k, id) ∈ notify_queue_ cv ->
          exists w, waiters cv !! id = Some w /\ ws !! id = Some (unparked w))
    /\ (forall id, id ∉ (notify_queue_ cv).*2 -> ws !! id = waiters cv !! id).
Proof.
  intros [Hk Hq].
  destruct (call_entries_wf (notify_queue_ cv) cv Hk Hq)
    as (ws & Hces & Hk' & Hq' & Hin & Hout).
  exists ws. unfold notify_all. rewrite Hces. cbn [mbind option_bind].
  split; [reflexivity |]. split; [split; assumption |]. split; assumption.
Qed.

Lemma cv_step_wf k cv cv' : wf cv -> step k cv cv' -> wf cv'.
Proof.
  intros Hwf [Hen Hex]. destruct k; cbn [exec enabled] in Hen, Hex.
  - injection Hex as <-. destruct Hen. apply wait_entry_wf; assumption.
  - destruct Hen as (w & Hw & Hn & Ht).
    destruct (wait_after_park_wf id cv w Hwf Hw Hn Ht) as (cv0 & H0 & Hwf0).
    congruence.
  - injection Hex as <-. destruct Hen. apply wait_entry_wf; assumption.
  - destruct Hen as (w & Hw & Hn & Ht & Hh).
    destruct (wait_until_after_park_wf id cv w Hwf Hw Hn Ht Hh) as (cv0 & H0 & Hwf0).
    congruence.
  - destruct Hen as (w & Hw & Hh).
    destruct (wait_until_remove_timer_wf id cv w Hwf Hw Hh) as (cv0 & H0 & Hwf0 & _).
    rewrite H0 in Hex. cbn in Hex. congruence.
  - destruct Hen as (w & Hw & Htp).
    destruct (notify_available w) eqn:Hfl.
    + destruct (timer_handler_waiting cv id w Hwf Hw Hfl Htp)
        as (q1 & q2 & _ & _ & H0 & Hwf0). congruence.
    + destruct (timer_handler_late cv id w Hwf Hw Hfl) as [H0 Hwf0]. congruence.
  - pose proof (cv_notify_one_wf cv Hwf) as H.
    destruct (notify_queue_ cv) as [| [k id] rest]; [congruence |].
    destruct H as (w & _ & _ & H0 & Hwf0). congruence.
  - destruct (cv_notify_all_wf cv Hwf) as (ws & H0 & Hwf0 & _). congruence.
Qed.

Lemma cv_reachable_wf cv : reachable cv -> wf cv.
Proof.
  induction 1 as [| k cv cv' _ IH Hstep]; [apply cv_wf_new |].
  eapply cv_step_wf; eassumption.
Qed.


Lemma waiting_flag q ws id w :
  queue_ok q ws -> ws !! id = Some w -> notified (p w) = false ->
  notify_available w = true /\ key_held w = true /\ status w = no_timeout.
Proof.
  intros (_ & Q2 & F1 & _ & _ & _ & S1) Hw Hn.
  destruct (Q2 _ _ (F1 id w Hw Hn)) as (w' & Hw' & _ & Hh & _ & _ & Hfl).
  rewrite Hw in Hw'. injection Hw' as <-.
  split; [exact Hfl |]. split; [exact Hh | apply (S1 id w Hw Hn)].
Qed.

(** X24: the keys of a condition variable tell the waiting calls apart:
    no two entries of the queue have the same key.  So the handler of the
    timer of a [wait_until] reaches its own call and no other: while that
    call waits, the handler takes its entry from the queue, unparks it and
    sets its status to [timeout]; once the call was unparked, the handler
    changes neither the queue nor the status; in both cases every other
    call's frame is as it was. *)
Theorem cv_timer_reaches_own_call (cv : condition_variable) (id : nat)
    (w : waiter) :
  reachable cv -> waiters cv !! id = Some w -> timer_pending w = true ->
  (forall k id1 id2,
     (k, id1) ∈ notify_queue_ cv -> (k, id2) ∈ notify_queue_ cv -> id1 = id2)
  /\ exists cv' w',
       timer_handler id cv = Some cv'
       /\ waiters cv' !! id = Some w'
       /\ (forall id', id' <> id -> waiters cv' !! id' = waiters cv !! id')
       /\ (notified (p w) = false ->
             notified (p w') = true /\ status w' = timeout
             /\ exists q1 q2,
                  notify_queue_ cv = q1 ++ (key w, id) :: q2
                  /\ notify_queue_ cv' = q1 ++ q2)
       /\ (notified (p w) = true ->
             p w' = p w /\ status w' = status w
             /\ notify_queue_ cv' = notify_queue_ cv).
Proof.
  intros Hr Hw Htp. pose proof (cv_reachable_wf cv Hr) as Hwf.
  pose proof Hwf as [Hk Hq]. split.
  - intros k id1 id2 H1 H2. destruct Hq as (_ & Q2 & _).
    destruct (Q2 k id1 H1) as (w1 & Hw1 & Hk1 & Hh1 & _).
    destruct (Q2 k id2 H2) as (w2 & Hw2 & Hk2 & Hh2 & _).
    destruct Hk as (_ & _ & _ & _ & K5). apply (K5 id1 id2 w1 w2); congruence.
  - destruct (notify_available w) eqn:Hfl.
    + destruct (timer_handler_waiting cv id w Hwf Hw Hfl Htp)
        as (q1 & q2 & Hsplit & Hn & Hth & _).
      eexists _, _. split; [exact Hth |]. cbn [waiters notify_queue_].
      split; [apply lookup_insert_eq |].
      split; [intros id' Hne; apply lookup_insert_ne; congruence |].
      split; [| congruence]. intros _. split; [reflexivity |].
      split; [reflexivity |]. exists q1, q2. split; [exact Hsplit | reflexivity].
    + destruct (timer_handler_late cv id w Hwf Hw Hfl) as [Hth _].
      eexists _, _. split; [exact Hth |]. cbn [waiters notify_queue_ set_waiters].
      split; [apply lookup_insert_eq |].
      split; [intros id' Hne; apply lookup_insert_ne; congruence |].
      split.
      * intros Hn. destruct (waiting_flag _ _ _ _ Hq Hw Hn) as [Hfl' _]. congruence.
      * intros _. repeat split.
Qed.

(** X25: [notify_one()] unparks the call that has waited longest, and
    [notify_all()] every call that waits; the calls unparked have the
    status [no_timeout], no other frame changes, and the queue loses its
    front, or all its entries.  With nobody waiting [notify_one()] does
    nothing. *)
Theorem cv_notify_wakes (cv : condition_variable) :
  reachable cv ->
  match notify_queue_ cv with
  | [] => notify_one cv = Some cv
  | (k, id) :: rest =>
      exists cv' w',
        notify_one cv = Some cv' /\ notify_queue_ cv' = rest
        /\ waiters cv' !! id = Some w'
        /\ notified (p w') = true /\ status w' = no_timeout
        /\ (forall id', id' <> id -> waiters cv' !! id' = waiters cv !! id')
  end
  /\ exists cv',
       notify_all cv = Some cv' /\ notify_queue_ cv' = []
       /\ (forall k id, (k, id) ∈ notify_queue_ cv ->
             exists w', waiters cv' !! id = Some w'
               /\ notified (p w') = true /\ status w' = no_timeout)
       /\ (forall id, id ∉ (notify_queue_ cv).*2 ->
             waiters cv' !! id = waiters cv !! id).
Proof.
  intros Hr. pose proof (cv_reachable_wf cv Hr) as Hwf. pose proof Hwf as [Hk Hq].
  assert (Hst : forall k id w, (k, id) ∈ notify_queue_ cv ->
            waiters cv !! id = Some w -> status w = no_timeout).
  { intros k id w Hin Hw. destruct Hq as (_ & Q2 & _ & _ & _ & _ & S1).
    destruct (Q2 k id Hin) as (w0 & Hw0 & _ & _ & _ & Hn & _).
    apply (S1 id w Hw). congruence. }
  split.
  - pose proof (cv_notify_one_wf cv Hwf) as H.
    destruct (notify_queue_ cv) as [| [k id] rest] eqn:Hqe; [exact H |].
    destruct H as (w & Hw & _ & Hno & _).
    eexists _, _. split; [exact Hno |]. cbn [notify_queue_ waiters].
    split; [reflexivity |]. split; [apply lookup_insert_eq |].
    split; [reflexivity |]. split; [apply (Hst k id w); [left | exact Hw] |].
    intros id' Hne. apply lookup_insert_ne. congruence.
  - destruct (cv_notify_all_wf cv Hwf) as (ws & Hna & _ & Hin & Hout).
    eexists. split; [exact Hna |]. cbn [notify_queue_ waiters].
    split; [reflexivity |]. split; [| exact Hout].
    intros k id Hkid. destruct (Hin k id Hkid) as (w & Hw & Hws).
    exists (unparked w). split; [exact Hws |]. split; [reflexivity |].
    apply (Hst k id w Hkid Hw).
Qed.

(** X26: [wait_until] returns the status that was set when its call was
    unparked: it gives its key back, removes its timer and returns that
    status, and its frame is gone; the handler of its timer, whether it
    runs between the two steps or at the removal of the timer, changes
    nothing of it. *)
Theorem cv_wait_until_returns_status (cv : condition_variable) (id : nat)
    (w : waiter) :
  reachable cv -> waiters cv !! id = Some w ->
  notified (p w) = true -> timed w = true -> key_held w = true ->
  exists cv1,
    wait_until_after_park id cv = Some cv1
    /\ key w ∈ free_keys_ cv1
    /\ (exists cv2,
          wait_until_remove_timer id cv1 = Some (status w, cv2)
          /\ waiters cv2 !! id = None)
    /\ (timer_pending w = true ->
          exists cv1' cv2,
            timer_handler id cv1 = Some cv1'
            /\ notify_queue_ cv1' = notify_queue_ cv1
            /\ wait_until_remove_timer id cv1' = Some (status w, cv2)
            /\ waiters cv2 !! id = None).
Proof.
  intros Hr Hw Hn Ht Hh. pose proof (cv_reachable_wf cv Hr) as Hwf.
  destruct (wait_until_after_park_wf id cv w Hwf Hw Hn Ht Hh) as (cv1 & H1 & Hwf1).
  exists cv1. split; [exact H1 |].
  unfold wait_until_after_park in H1. rewrite Hw in H1.
  cbn [mbind option_bind] in H1. injection H1 as <-.
  cbn [return_key free_keys_ waiters set_waiters notify_queue_] in *.
  split; [apply elem_of_app; right; left |].
  set (w1 := MkWaiter (p w) (key w) (timed w) (notify_available w) (status w)
               (timer_pending w) false) in *.
  split.
  - destruct (wait_until_remove_timer_wf id _ w1 Hwf1 (lookup_insert_eq _ _ _) eq_refl)
      as (cv2 & H2 & _ & _ & Hws).
    exists cv2. split; [exact H2 |]. rewrite Hws. apply lookup_delete_eq.
  - intros Htp.
    assert (Hfl : notify_available w1 = false).
    { destruct Hwf as [_ (_ & _ & _ & F2 & _)]. apply (F2 id w Hw Hn Ht). }
    destruct (timer_handler_late _ id w1 Hwf1 (lookup_insert_eq _ _ _) Hfl)
      as [Hth Hwf1'].
    eexists. 
    match type of Hwf1' with wf ?c =>
      destruct (wait_until_remove_timer_wf id c
                  (MkWaiter (p w1) (key w1) (timed w1) (notify_available w1)
                     (status w1) false (key_held w1)) Hwf1'
                  (lookup_insert_eq _ _ _) eq_refl) as (cv2 & H2 & _ & _ & Hws)
    end.
    exists cv2. split; [exact Hth |]. split; [reflexivity |].
    split; [exact H2 |]. rewrite Hws. apply lookup_delete_eq.
Qed.

End SizeT.

(** call 1 waits in [wait_until] and call 2 in [wait] *)
Definition timed_waiter : waiter :=
  MkWaiter (park Threadpool.raw_thread Parkable.new) 0 true true no_timeout
    true true.

Definition plain_waiter : waiter :=
  MkWaiter (park Channels.in_coroutine_7 Parkable.new) 1 false true no_timeout
    false true.

Definition two_waiting : condition_variable :=
  MkCV [(0, 1%nat); (1, 2%nat)] [] 2
    (<[2%nat := plain_waiter]> (<[1%nat := timed_waiter]> ∅)).

Lemma two_waiting_reachable : reachable 8 two_waiting.
Proof.
  apply (reach_step 8 (c_wait Channels.in_coroutine_7 2)
           (MkCV [(0, 1%nat)] [] 1 (<[1%nat := timed_waiter]> ∅))).
  - apply (reach_step 8 (c_wait_until Threadpool.raw_thread 1) new).
    + apply reach_new.
    + split; [split; reflexivity | reflexivity].
  - split; [split; reflexivity | reflexivity].
Defined.

(** the same after [notify_one()]: call 1 was unparked *)
Definition one_notified : condition_variable :=
  MkCV [(1, 2%nat)] [] 2
    (<[1%nat := unparked timed_waiter]>
       (<[2%nat := plain_waiter]> (<[1%nat := timed_waiter]> ∅))).

Lemma one_notified_reachable : reachable 8 one_notified.
Proof.
  apply (reach_step 8 c_notify_one two_waiting).
  - exact two_waiting_reachable.
  - split; [exact I | reflexivity].
Defined.

Lemma cv_timer_reaches_own_call_witness :
  exists cv' w',
    timer_handler 1 two_waiting = Some cv'
    /\ waiters cv' !! 1%nat = Some w'
    /\ status w' = timeout
    /\ waiters cv' !! 2%nat = Some plain_waiter.
Proof.
  destruct (cv_timer_reaches_own_call 8 ltac:(lia) two_waiting 1 timed_waiter
              two_waiting_reachable eq_refl eq_refl)
    as (_ & cv' & w' & Hth & Hw' & Hother & Hwait & _).
  exists cv', w'. split; [exact Hth |]. split; [exact Hw' |].
  split; [apply Hwait; reflexivity |].
  rewrite Hother by discriminate. reflexivity.
Defined.

Lemma cv_notify_wakes_witness :
  exists cv',
    notify_all two_waiting = Some cv' /\ notify_queue_ cv' = []
    /\ exists w', waiters cv' !! 2%nat = Some w' /\ notified (p w') = true.
Proof.
  destruct (cv_notify_wakes 8 ltac:(lia) two_waiting two_waiting_reachable)
    as (_ & cv' & Hna & Hq & Hin & _).
  exists cv'. split; [exact Hna |]. split; [exact Hq |].
  destruct (Hin 1 2%nat) as (w' & Hw' & Hn & _).
  - right. left.
  - exists w'. split; [exact Hw' | exact Hn].
Defined.

Lemma cv_wait_until_returns_status_witness :
  exists cv1 cv2,
    wait_until_after_park 1 one_notified = Some cv1
    /\ wait_until_remove_timer 1 cv1 = Some (no_timeout, cv2)
    /\ waiters cv2 !! 1%nat = None.
Proof.
  destruct (cv_wait_until_returns_status 8 ltac:(lia) one_notified 1
              (unparked timed_waiter) one_notified_reachable eq_refl eq_refl
              eq_refl eq_refl)
    as (cv1 & H1 & _ & (cv2 & H2 & H3) & _).
  exists cv1, cv2. split; [exact H1 |]. split; [exact H2 | exact H3].
Defined.

End ConditionVariable.

(** ** The thread of a threadpool worker (threadpool.hpp, 197-234) *)

Module WorkerThread.
Import ThreadLocal Scheduler.

Section SizeT.
Variable size_bytes : Z.

(** the body of the thread of a [worker_thread]:
    [while(this->sch->run()){ }].  Each turn has the calls made on the
    scheduler between two calls of [run()], and the stretches of the call;
    the thread runs no scheduler when it calls [run()], so the scheduler is
    a root.  When the turns are used up the thread is still in the loop. *)
Fixpoint worker_thread (turns : list (list op * list interval)) (s : scheduler)
  : run_result * scheduler :=
  match turns with
  | [] => (blocked, s)
  | (before, env) :: turns' =>
      match run size_bytes None env (apply_ops size_bytes before s) with
      | (returned true, s') => worker_thread turns' s'
      | r => r
      end
  end.

Lemma run_false_halted env s s' :
  run size_bytes None env s = (returned false, s') ->
  state_ s <> running ->
  state_ s' = halted /\ task_queue_ s' = [] /\ halt_complete_ s' = true.
Proof.
  intros Hrun Hnr. unfold run in Hrun.
  destruct (resume_loop size_bytes env s) as [[env1 s1] |] eqn:Hres; [| discriminate].
  destruct (resume_loop_some _ _ _ _ _ Hres) as (Hne & _ & Hrun1 & _).
  assert (Hexit : forall s3, can_continue_ s3 = false \/ state_ s3 = halted ->
            run_exit s3 = (returned false, s') ->
            state_ s' = halted /\ task_queue_ s' = [] /\ halt_complete_ s' = true).
  { intros s3 Hc. unfold run_exit.
    destruct (state_eqb (state_ s3) suspended) eqn:E; [discriminate |].
    intros [= <-]. cbn. split; [| auto].
    destruct Hc as [Hc | Hc]; [| exact Hc].
    destruct (can_continue_false _ Hc) as [H | H]; [| exact H].
    rewrite H in E. discriminate. }
  destruct (state_eqb (state_ s1) ready) eqn:Hready.
  - cbn [bool_decide] in Hrun.
    rewrite bool_decide_eq_false_2 in Hrun by (intros [? ?]; discriminate).
    destruct (root_loop size_bytes env1 (set_state_ running s1)) as [s3 | s3 | s3] eqn:Hl;
      try discriminate.
    destruct (root_loop_done _ _ _ _ Hl) as (Hc & _).
    apply (Hexit s3); [left; exact Hc | exact Hrun].
  - apply (Hexit s1); [| exact Hrun]. right.
    destruct (state_ s1) eqn:Hs1; try discriminate; try reflexivity.
    + destruct (Hrun1 eq_refl) as [-> _]. contradiction.
    + contradiction Hne. reflexivity.
Qed.

Lemma run_true_suspended env s s' :
  run size_bytes None env s = (returned true, s') -> state_ s' = suspended.
Proof.
  intros Hrun. unfold run in Hrun.
  destruct (resume_loop size_bytes env s) as [[env1 s1] |]; [| discriminate].
  assert (Hexit : forall s3, run_exit s3 = (returned true, s') ->
            state_ s' = suspended).
  { intros s3 H. destruct (state_run_exit _ _ _ H) as [Heq Hb].
    rewrite Heq. apply Hb. reflexivity. }
  destruct (state_eqb (state_ s1) ready); [| eauto].
  destruct (if bool_decide (is_Some None) then _ else _); try discriminate; eauto.
Qed.

(** X27: the thread of a threadpool worker ends only when its scheduler
    is halted.  Whatever is called on the scheduler, the loop
    [while(sch->run()){ }] is left only by a [run()] that returned
    [false], and then the scheduler is halted, its run-queue is empty and
    [halt_complete_] is set; a [suspend()] never ends the thread.  And once
    the scheduler is halted the next [run()] ends the loop. *)
Theorem worker_thread_ends_halted (turns : list (list op * list interval))
    (s s' : scheduler) :
  state_ s <> running ->
  (worker_thread turns s = (returned false, s') ->
     state_ s' = halted /\ task_queue_ s' = [] /\ halt_complete_ s' = true)
  /\ (forall b, worker_thread turns s = (returned b, s') -> b = false)
  /\ (state_ s = halted -> turns <> [] ->
      exists s1, worker_thread turns s = (returned false, s1)).
Proof.
  intros Hnr. split; [| split].
  - revert s Hnr. induction turns as [| [before env] turns IH]; intros s Hnr;
      cbn [worker_thread]; [discriminate |].
    destruct (run size_bytes None env (apply_ops size_bytes before s))
      as [[[] | |] s1] eqn:Hrun; try discriminate.
    + apply IH. rewrite (run_true_suspended _ _ _ Hrun). discriminate.
    + intros [= <-]. apply (run_false_halted _ _ _ Hrun).
      rewrite state_apply_ops. intros H. apply ops_state_running in H. contradiction.
  - revert s Hnr. induction turns as [| [before env] turns IH]; intros s Hnr b;
      cbn [worker_thread]; [discriminate |].
    destruct (run size_bytes None env (apply_ops size_bytes before s))
      as [[[] | |] s1] eqn:Hrun; try discriminate.
    + apply IH. rewrite (run_true_suspended _ _ _ Hrun). discriminate.
    + intros [= <- _]. reflexivity.
  - intros Hh Hne. destruct turns as [| [before env] turns]; [contradiction |].
    cbn [worker_thread].
    destruct (SchedulerFacts.halted_apply_ops size_bytes before s Hh) as (H1 & _).
    rewrite (SchedulerFacts.run_halted size_bytes None env _ H1). eauto.
Qed.

End SizeT.

(** suspended in the first turn, resumed and then halted in the second *)
Definition two_turns : list (list op * list interval) :=
  [([], [Interval [op_suspend] co_yield]);
   ([op_resume], [Interval [op_halt from_thread] co_yield])].

Lemma worker_thread_ends_halted_witness :
  exists s',
    worker_thread 8 two_turns suspend_example = (returned false, s')
    /\ state_ s' = halted.
Proof.
  destruct (worker_thread 8 two_turns suspend_example) as [r s'] eqn:E.
  assert (Hr : r = returned false).
  { vm_compute in E. injection E as <- _. reflexivity. }
  subst r. exists s'. split; [reflexivity |].
  destruct (worker_thread_ends_halted 8 two_turns suspend_example s') as [H _].
  - vm_compute. discriminate.
  - apply H. exact E.
Defined.

End WorkerThread.

(** ** [base_channel::iterator] (base_channel.hpp, 118-219) *)

Module ChannelIterator.

Section Iterator.
(** the value type, the state of the channel, and its blocking [recv],
    which is virtual in [base_channel]: whether it succeeded, what it left
    in the variable, and the channel after it *)
Variable T C : Type.
Variable recv : T -> C -> bool * T * C.

(** [iterator_context]; the pointer [bc] never changes *)
Record iterator_context : Type := MkIteratorContext {
  t : T;
  good : bool
}.

(** an iterator is the shared pointer [ctx]: null in a default-constructed
    iterator, which is [end()] *)
Definition iterator : Type := option iterator_context.

(** [iterator_context::increment()] *)
Definition increment (ic : iterator_context) (c : C)
  : bool * iterator_context * C :=
  if good ic then
    let '(ok, r, c') := recv (t ic) c in
    if negb ok then (false, MkIteratorContext r false, c')
    else (good ic, MkIteratorContext r (good ic), c')
  else (good ic, ic, c).

(** [operator++()]: [None] is the dereference of a null [ctx] *)
Definition pre_increment (it : iterator) (c : C) : option (iterator * C) :=
  match it with
  | Some ic =>
      let '(g, ic', c') := increment ic c in
      Some (if negb g then None else Some ic', c')
  | None => None
  end.

(** [begin()], with [t0] the default-constructed [T], and [end()] *)
Definition begin (t0 : T) (c : C) : option (iterator * C) :=
  pre_increment (Some (MkIteratorContext t0 true)) c.

Definition end_ : iterator := None.

(** [operator*()] *)
Definition dereference (it : iterator) : option T := t <$> it.

(** the loop [for(auto it = ch.begin(); it != ch.end(); ++it)], whose body
    is given the dereferenced iterator: the values the body sees; [None]
    when [fuel] turns do not end the loop *)
Fixpoint range_loop (fuel : nat) (it : iterator) (c : C) : option (list T * C) :=
  match it with
  | None => Some ([], c)
  | Some ic =>
      match fuel with
      | O => None
      | S fuel' =>
          '(it', c') ← pre_increment it c;
          '(vs, c'') ← range_loop fuel' it' c';
          Some (t ic :: vs, c'')
      end
  end.

Definition range_for (fuel : nat) (t0 : T) (c : C) : option (list T * C) :=
  '(it, c') ← begin t0 c; range_loop fuel it c'.

(** [T r; while(ch.recv(r)) body(r)] *)
Fixpoint recv_loop (fuel : nat) (r : T) (c : C) : option (list T * C) :=
  match fuel with
  | O => None
  | S fuel' =>
      let '(ok, r', c') := recv r c in
      if ok then '(vs, c'') ← recv_loop fuel' r' c'; Some (r' :: vs, c'')
      else Some ([], c')
  end.

Lemma range_loop_recv_loop fuel : forall v c,
  range_loop fuel (Some (MkIteratorContext v true)) c
  = '(vs, c') ← recv_loop fuel v c; Some (v :: vs, c').
Proof.
  induction fuel as [| fuel IH]; intros v c; [reflexivity |].
  cbn [range_loop recv_loop pre_increment increment good t].
  destruct (recv v c) as [[ok r] c']. destruct ok; cbn [negb mbind option_bind].
  - rewrite IH. destruct (recv_loop fuel r c') as [[vs c''] |]; reflexivity.
  - destruct fuel; reflexivity.
Qed.

(** X28: the range-for loop over a channel is the loop of [recv]: the
    body sees the values that successive calls of the channel's [recv]
    deliver, in order, up to the first call that fails, which ends the
    loop, and the channel is left as those calls leave it; the iterator
    that [begin()] gives is [end()] at once when the first [recv] fails;
    and incrementing [end()] dereferences a null pointer. *)
Theorem range_for_is_recv_loop (fuel : nat) (t0 : T) (c : C) :
  range_for fuel t0 c = recv_loop (S fuel) t0 c
  /\ (fst (fst (recv t0 c)) = false ->
      begin t0 c = Some (end_, snd (recv t0 c))
      /\ range_for fuel t0 c = Some ([], snd (recv t0 c)))
  /\ pre_increment end_ c = None.
Proof.
  split; [| split; [| reflexivity]].
  - unfold range_for, begin. cbn [recv_loop pre_increment increment good t].
    destruct (recv t0 c) as [[ok r] c']. destruct ok; cbn [negb mbind option_bind].
    + rewrite range_loop_recv_loop.
      destruct (recv_loop fuel r c') as [[vs c''] |]; reflexivity.
    + destruct fuel; reflexivity.
  - unfold range_for, begin. cbn [pre_increment increment good t].
    destruct (recv t0 c) as [[ok r] c']. cbn [fst snd]. intros ->.
    cbn [negb mbind option_bind]. split; [reflexivity |].
    destruct fuel; reflexivity.
Qed.

End Iterator.

(** a channel that delivers 4, 5 and 6 and is closed then *)
Definition three_then_closed (r : nat) (c : list nat) : bool * nat * list nat :=
  match c with
  | v :: c' => (true, v, c')
  | [] => (false, r, [])
  end.

Lemma range_for_is_recv_loop_witness :
  range_for nat (list nat) three_then_closed 3 0 [4; 5; 6] = Some ([4; 5; 6], []).
Proof.
  destruct (range_for_is_recv_loop nat (list nat) three_then_closed 3 0 [4; 5; 6])
    as [H _].
  rewrite H. reflexivity.
Defined.

End ChannelIterator.
